(** * random-chess-backend: rule engine, stores and use cases

    A shallow embedding of the Go packages [internal/domain/game],
    [internal/adapters/memory], [internal/adapters/postgres] and
    [internal/usecase], followed by the properties of the assignment and
    move-commit protocol.

    Conventions of the embedding:
    - Go [int] is a 64-bit two's complement integer: a [Z] with the
      wrap-around of [+] and [-] written out ([GoInt]).
    - Go strings are byte strings: [string] of the standard library.
    - [*game.Game] is a pointer: game objects live in a [Heap] and the
      in-memory store keeps pointers, so aliasing between the store and the
      callers is visible.
    - [uuid.New()], [time.Now()], SQL [NOW()], the iteration order of a Go
      map, the scan order of a table and the rows locked by concurrent
      transactions are inputs of the operation that consumes them.
    - A run-time panic (nil dereference, slice bounds) is the result
      [Panic]; the state it leaves behind is returned with it. *)

From stdpp Require Import gmap strings list.
From Stdlib Require Import ZArith Lia String Ascii.

Open Scope Z_scope.

(** ** Go machine integers *)

Module GoInt.

Definition min_int : Z := - 2 ^ 63.
Definition max_int : Z := 2 ^ 63 - 1.

(** Two's complement wrap-around of a 64-bit [int]. *)
Definition wrap (z : Z) : Z := (z + 2 ^ 63) mod 2 ^ 64 - 2 ^ 63.

Definition add (a b : Z) : Z := wrap (a + b).
Definition sub (a b : Z) : Z := wrap (a - b).

Definition in_range (z : Z) : Prop := min_int <= z <= max_int.

End GoInt.

(** ** Shared vocabulary *)

(** [uuid.UUID] (16 bytes) as a number. *)
Abbreviation UUID := N (only parsing).
(** [time.Time] as an instant on a linear clock, in nanoseconds. *)
Abbreviation Time := Z (only parsing).
(** Addresses of heap-allocated [game.Game] objects. *)
Abbreviation ptr := nat (only parsing).

(** The sentinel errors of the packages [game], [ports] and [usecase];
    [ErrDriver] stands for an error reported by the database driver (a
    violated constraint, a value that does not fit its column). *)
Inductive Err : Type :=
| ErrInvalidUCI
| ErrIllegalMove
| ErrGameNotOngoing
| ErrNotFound
| ErrVersionConflict
| ErrNotAssigned
| ErrAlreadyMoved
| ErrNoGamesAvailable
| ErrRateLimited
| ErrDriver.

#[global] Instance Err_eq_dec : EqDecision Err.
Proof. solve_decision. Defined.

(** What a call produces: a value, a returned [error], or a panic. *)
Inductive outcome (A : Type) : Type :=
| Ok (a : A)
| Fail (e : Err)
| Panic.

Arguments Ok {A} a.
Arguments Fail {A} e.
Arguments Panic {A}.

(** ** The chess library (github.com/notnil/chess), as an interface *)

Module chess.

Inductive Outcome : Type := NoOutcome | WhiteWon | BlackWon | Draw.

Inductive Method : Type :=
| NoMethod | Checkmate | Resignation | DrawOffer | Stalemate
| ThreefoldRepetition | FivefoldRepetition | FiftyMoveRule
| SeventyFiveMoveRule | InsufficientMaterial.

Inductive Color : Type := NoColor | White | Black.

#[global] Instance Outcome_eq_dec : EqDecision Outcome.
Proof. solve_decision. Defined.
#[global] Instance Method_eq_dec : EqDecision Method.
Proof. solve_decision. Defined.
#[global] Instance Color_eq_dec : EqDecision Color.
Proof. solve_decision. Defined.

(** The operations of the library that the domain package calls, on a
    game object of type [CG].  [MoveStr] (with UCI notation) gives the game
    after the move, or [None] where the library returns an error. *)
Class Engine (CG : Type) : Type := {
  FenOpt : Type;
  Position : Type;
  Move : Type;
  FEN : string -> option FenOpt;
  NewGame : option FenOpt -> CG;
  MoveStr : CG -> string -> option CG;
  Moves : CG -> list Move;
  GamePosition : CG -> Position;
  PositionString : Position -> string;
  Turn : Position -> Color;
  GameOutcome : CG -> Outcome;
  GameMethod : CG -> Method
}.

End chess.

(** ** Go string slices *)

Module GoString.

(** [uci[:2]], [uci[2:4]] and, for a string of five bytes, [uci[4:]], as
    both stores compute them from [rec.UCI]; the slice expressions panic
    ([None]) on a string shorter than four bytes. *)
Definition split_uci (uci : string)
  : option (string * string * option string) :=
  if (String.length uci <? 4)%nat then None
  else Some (String.substring 0 2 uci, String.substring 2 2 uci,
             if (String.length uci =? 5)%nat
             then Some (String.substring 4 (String.length uci - 4) uci)
             else None).

End GoString.

(** ** Package game: the domain entity and the rule engine *)

Module game.

Definition Status := string.
Definition StatusWaiting : Status := "waiting".
Definition StatusOngoing : Status := "ongoing".
Definition StatusCheckmate : Status := "checkmate".
Definition StatusStalemate : Status := "stalemate".
Definition StatusDraw : Status := "draw".
Definition StatusResigned : Status := "resigned".

Definition Result := string.
Definition ResultWhite : Result := "1-0".
Definition ResultBlack : Result := "0-1".
Definition ResultDraw : Result := "1/2-1/2".

Record Game (CG : Type) : Type := mkGame {
  ID : UUID;
  Status_ : Status;
  Result_ : option Result;
  FEN : string;
  SideToMove : string;
  PlyCount : Z;
  LastMoveUCI : option string;
  LastMoveAt : option Time;
  StateVersion : Z;
  CreatedAt : Time;
  UpdatedAt : Time;
  chessGame : option CG
}.

Arguments mkGame {CG}.
Arguments ID {CG}.
Arguments Status_ {CG}.
Arguments Result_ {CG}.
Arguments FEN {CG}.
Arguments SideToMove {CG}.
Arguments PlyCount {CG}.
Arguments LastMoveUCI {CG}.
Arguments LastMoveAt {CG}.
Arguments StateVersion {CG}.
Arguments CreatedAt {CG}.
Arguments UpdatedAt {CG}.
Arguments chessGame {CG}.

Record MoveRecord : Type := mkMoveRecord {
  rec_ID : UUID;
  rec_UCI : string;
  rec_FENBefore : string;
  rec_FENAfter : string;
  rec_CreatedAt : Time
}.

Record MoveHistoryItem : Type := mkMoveHistoryItem {
  Ply : Z;
  UCI : string;
  FromSq : string;
  ToSq : string;
  Promotion : option string;
  ClientID : UUID;
  FENBefore : string;
  FENAfter : string;
  item_CreatedAt : Time
}.

(** The heap of game objects: [&Game{...}] allocates at the end, a
    pointer is an index, and nothing is ever freed. *)
Abbreviation Heap CG := (list (Game CG)) (only parsing).

Definition alloc {CG} (h : Heap CG) (g : Game CG) : Heap CG * ptr :=
  (h ++ [g], List.length h).

(** [g.Status = st] with a copy of every other field
    ([updated := *g; updated.Status = st]). *)
Definition with_Status {CG} (g : Game CG) (st : Status) : Game CG :=
  mkGame (ID g) st (Result_ g) (FEN g) (SideToMove g) (PlyCount g)
         (LastMoveUCI g) (LastMoveAt g) (StateVersion g) (CreatedAt g)
         (UpdatedAt g) (chessGame g).

Definition with_Status_Result {CG} (g : Game CG) (sr : Status * option Result)
  : Game CG :=
  mkGame (ID g) (fst sr) (snd sr) (FEN g) (SideToMove g) (PlyCount g)
         (LastMoveUCI g) (LastMoveAt g) (StateVersion g) (CreatedAt g)
         (UpdatedAt g) (chessGame g).

(** [isValidUCISyntax]: the byte tests of the source, in its order. *)
Definition isValidUCISyntax (s : string) : bool :=
  if (String.length s <? 4)%nat || (5 <? String.length s)%nat then false
  else
    match String.get 0 s, String.get 1 s, String.get 2 s, String.get 3 s with
    | Some c0, Some c1, Some c2, Some c3 =>
        if Ascii.ltb c0 "a" || Ascii.ltb "h" c0 then false
        else if Ascii.ltb c1 "1" || Ascii.ltb "8" c1 then false
        else if Ascii.ltb c2 "a" || Ascii.ltb "h" c2 then false
        else if Ascii.ltb c3 "1" || Ascii.ltb "8" c3 then false
        else if (String.length s =? 5)%nat then
          match String.get 4 s with
          | Some c4 =>
              if Ascii.eqb c4 "q" || Ascii.eqb c4 "r"
                 || Ascii.eqb c4 "b" || Ascii.eqb c4 "n"
              then true else false
          | None => false
          end
        else true
    | _, _, _, _ => false
    end.

Definition colorName (c : chess.Color) : string :=
  if decide (c = chess.White) then "white" else "black".

Definition outcomeToStatus (o : chess.Outcome) (m : chess.Method)
  : Status * option Result :=
  match o with
  | chess.WhiteWon =>
      if decide (m = chess.Checkmate)
      then (StatusCheckmate, Some ResultWhite)
      else (StatusResigned, Some ResultWhite)
  | chess.BlackWon =>
      if decide (m = chess.Checkmate)
      then (StatusCheckmate, Some ResultBlack)
      else (StatusResigned, Some ResultBlack)
  | chess.Draw =>
      if decide (m = chess.Stalemate)
      then (StatusStalemate, Some ResultDraw)
      else (StatusDraw, Some ResultDraw)
  | chess.NoOutcome => (StatusOngoing, None)
  end.

Section RuleEngine.
Context {CG : Type} {eng : chess.Engine CG}.

Definition fromChessGame (h : Heap CG) (id : UUID) (cg : CG) (now : Time)
  : Heap CG * ptr :=
  let pos := chess.GamePosition cg in
  alloc h (mkGame id StatusOngoing None (chess.PositionString pos)
                  (colorName (chess.Turn pos))
                  (Z.of_nat (List.length (chess.Moves cg)))
                  None None 0 now now (Some cg)).

Definition NewGame (h : Heap CG) (id : UUID) (now : Time) : Heap CG * ptr :=
  fromChessGame h id (chess.NewGame None) now.

(** [(g *Game).ApplyMove(uci, now)]; [recID] is the [uuid.New()] of the
    move record.  The heap is threaded through to show what the call
    writes. *)
Definition ApplyMove (h : Heap CG) (g : ptr) (uci : string) (now : Time)
           (recID : UUID) : Heap CG * outcome (ptr * MoveRecord) :=
  match h !! g with
  | None => (h, Panic)
  | Some G =>
      if negb (String.eqb (Status_ G) StatusOngoing)
         && negb (String.eqb (Status_ G) StatusWaiting)
      then (h, Fail ErrGameNotOngoing)
      else if negb (isValidUCISyntax uci) then (h, Fail ErrInvalidUCI)
      else
        match chess.FEN (FEN G) with
        | None => (h, Fail ErrIllegalMove)
        | Some fenOpt =>
            let newCG := chess.NewGame (Some fenOpt) in
            let fenBefore := FEN G in
            match chess.MoveStr newCG uci with
            | None => (h, Fail ErrIllegalMove)
            | Some newCG =>
                let pos := chess.GamePosition newCG in
                let fenAfter := chess.PositionString pos in
                let newG :=
                  mkGame (ID G) ""%string None fenAfter
                         (colorName (chess.Turn pos))
                         (GoInt.add (PlyCount G) 1)
                         (Some uci) (Some now)
                         (GoInt.add (StateVersion G) 1)
                         (CreatedAt G) now (Some newCG) in
                let newG :=
                  with_Status_Result newG
                    (outcomeToStatus (chess.GameOutcome newCG)
                                     (chess.GameMethod newCG)) in
                let '(h', p) := alloc h newG in
                let rec := mkMoveRecord recID uci fenBefore fenAfter now in
                (h', Ok (p, rec))
            end
        end
  end.

End RuleEngine.

End game.

(** ** Package memory: the single-process store *)

Module memory.
Import game.

(** [games] holds pointers into the heap; [assigned] and [moved] are the
    two-level maps of the source (game id, then the set of client ids);
    [history] is the ordered move history per game. *)
Record Store : Type := mkStore {
  games : gmap UUID ptr;
  assigned : gmap UUID (gset UUID);
  moved : gmap UUID (gset UUID);
  history : gmap UUID (list MoveHistoryItem)
}.

(** What a call takes from its environment: the order in which
    [range s.games] yields the keys, the [uuid.New()] of the [i]-th loop
    iteration, and [time.Now()]. *)
Record Env : Type := mkEnv {
  iter_order : list UUID;
  new_uuid : nat -> UUID;
  now : Time
}.

Definition set_games (s : Store) (m : gmap UUID ptr) : Store :=
  mkStore m (assigned s) (moved s) (history s).
Definition set_assigned (s : Store) (m : gmap UUID (gset UUID)) : Store :=
  mkStore (games s) m (moved s) (history s).
Definition set_moved (s : Store) (m : gmap UUID (gset UUID)) : Store :=
  mkStore (games s) (assigned s) m (history s).
Definition set_history (s : Store) (m : gmap UUID (list MoveHistoryItem))
  : Store :=
  mkStore (games s) (assigned s) (moved s) m.

Definition empty : Store := mkStore ∅ ∅ ∅ ∅.

(** [_, ok := m[k][c]] on a two-level map; a missing inner map has no
    members. *)
Definition member (m : gmap UUID (gset UUID)) (k c : UUID) : bool :=
  match m !! k with
  | Some set => bool_decide (c ∈ set)
  | None => false
  end.

(** [if m[k] == nil { m[k] = make(...) }; m[k][c] = struct{}{}]. *)
Definition add_member (m : gmap UUID (gset UUID)) (k c : UUID)
  : gmap UUID (gset UUID) :=
  <[k := {[c]} ∪ default ∅ (m !! k)]> m.

(** [hist := s.history[id]; if hist == nil { hist = [] }]. *)
Definition history_of (s : Store) (id : UUID) : list MoveHistoryItem :=
  default [] (history s !! id).

Section Ops.
Context {CG : Type} {eng : chess.Engine CG}.

(** [New(seedCount)] and [CreateWaitingBatch] share the shape of their
    loop; [n] iterations remain and [i] is the loop counter. *)
Fixpoint seed_loop (e : Env) (n i : nat) (h : Heap CG) (s : Store)
  : Heap CG * Store :=
  match n with
  | O => (h, s)
  | S n' =>
      let '(h1, g) := NewGame h (new_uuid e i) (now e) in
      seed_loop e n' (S i) h1 (set_games s (<[new_uuid e i := g]> (games s)))
  end.

Definition New (e : Env) (h : Heap CG) (seedCount : Z) : Heap CG * Store :=
  seed_loop e (Z.to_nat seedCount) 0 h empty.

Definition GetByID (h : Heap CG) (s : Store) (id : UUID)
  : Heap CG * Store * outcome ptr :=
  match games s !! id with
  | None => (h, s, Fail ErrNotFound)
  | Some g => (h, s, Ok g)
  end.

Definition SaveIfVersion (h : Heap CG) (s : Store) (g : ptr)
           (expectedVersion : Z) : Heap CG * Store * outcome unit :=
  match h !! g with
  | None => (h, s, Panic)
  | Some G =>
      match games s !! ID G with
      | None => (h, s, Fail ErrNotFound)
      | Some cur =>
          match h !! cur with
          | None => (h, s, Panic)
          | Some C =>
              if decide (StateVersion C ≠ expectedVersion)
              then (h, s, Fail ErrVersionConflict)
              else (h, set_games s (<[ID G := g]> (games s)), Ok tt)
          end
      end
  end.

Fixpoint batch_loop (e : Env) (n i : nat) (h : Heap CG) (s : Store)
  : Heap CG * Store * outcome unit :=
  match n with
  | O => (h, s, Ok tt)
  | S n' =>
      let id := new_uuid e i in
      let '(h1, g) := NewGame h id (now e) in
      match h1 !! g with
      | None => (h1, s, Panic)
      | Some G =>
          let waiting := with_Status G StatusWaiting in
          let '(h2, pw) := alloc h1 waiting in
          batch_loop e n' (S i) h2 (set_games s (<[id := pw]> (games s)))
      end
  end.

Definition CreateWaitingBatch (e : Env) (h : Heap CG) (s : Store)
           (count : Z) : Heap CG * Store * outcome unit :=
  batch_loop e (Z.to_nat count) 0 h s.

(** The selection loop of [ClaimNextGame] over the keys in the order the
    map yields them: the first game that is waiting or ongoing and not
    yet assigned to the client. *)
Fixpoint choose (h : Heap CG) (s : Store) (clientID : UUID)
         (order : list UUID) : outcome (option ptr) :=
  match order with
  | [] => Ok None
  | k :: rest =>
      match games s !! k with
      | None => choose h s clientID rest
      | Some g =>
          match h !! g with
          | None => Panic
          | Some G =>
              if negb (String.eqb (Status_ G) StatusWaiting)
                 && negb (String.eqb (Status_ G) StatusOngoing)
              then choose h s clientID rest
              else if member (assigned s) (ID G) clientID
              then choose h s clientID rest
              else Ok (Some g)
          end
      end
  end.

Definition ClaimNextGame (e : Env) (h : Heap CG) (s : Store)
           (clientID : UUID)
  : Heap CG * Store * outcome (ptr * list MoveHistoryItem) :=
  match choose h s clientID (iter_order e) with
  | Panic => (h, s, Panic)
  | Fail err => (h, s, Fail err)
  | Ok None => (h, s, Fail ErrNoGamesAvailable)
  | Ok (Some chosen) =>
      match h !! chosen with
      | None => (h, s, Panic)
      | Some G =>
          let s1 := set_assigned s (add_member (assigned s) (ID G) clientID) in
          if String.eqb (Status_ G) StatusWaiting then
            let updated := with_Status G StatusOngoing in
            let '(h2, pu) := alloc h updated in
            let s2 := set_games s1 (<[ID G := pu]> (games s1)) in
            (h2, s2, Ok (pu, history_of s2 (ID updated)))
          else (h, s1, Ok (chosen, history_of s1 (ID G)))
      end
  end.

Definition GetGameWithHistory (h : Heap CG) (s : Store) (id : UUID)
  : Heap CG * Store * outcome (ptr * list MoveHistoryItem) :=
  match games s !! id with
  | None => (h, s, Fail ErrNotFound)
  | Some g => (h, s, Ok (g, history_of s id))
  end.

Definition PersistMove (h : Heap CG) (s : Store) (gameID clientID : UUID)
           (newGame : ptr) (rec : MoveRecord) (ply : Z)
  : Heap CG * Store * outcome (list MoveHistoryItem) :=
  match assigned s !! gameID with
  | None => (h, s, Fail ErrNotAssigned)
  | Some assignedSet =>
      if negb (bool_decide (clientID ∈ assignedSet))
      then (h, s, Fail ErrNotAssigned)
      else if member (moved s) gameID clientID
      then (h, s, Fail ErrAlreadyMoved)
      else
        match games s !! gameID with
        | None => (h, s, Fail ErrNotFound)
        | Some cur =>
            match h !! cur, h !! newGame with
            | Some C, Some NG =>
                if decide (StateVersion C ≠ GoInt.sub (StateVersion NG) 1)
                then (h, s, Fail ErrVersionConflict)
                else
                  let s1 := set_games s (<[gameID := newGame]> (games s)) in
                  let s2 := set_moved s1 (add_member (moved s1) gameID clientID) in
                  match GoString.split_uci (rec_UCI rec) with
                  | None => (h, s2, Panic)
                  | Some (fromSq, toSq, promotion) =>
                      let item :=
                        mkMoveHistoryItem ply (rec_UCI rec) fromSq toSq
                          promotion clientID (rec_FENBefore rec)
                          (rec_FENAfter rec) (rec_CreatedAt rec) in
                      let s3 :=
                        set_history s2
                          (<[gameID := history_of s2 gameID ++ [item]]>
                             (history s2)) in
                      (h, s3, Ok (history_of s3 gameID))
                  end
            | _, _ => (h, s, Panic)
            end
        end
  end.

(** The loop of [ListOngoing] over the keys in the order the map yields
    them: [out] collects the games whose status is ongoing. *)
Fixpoint ongoing_loop (h : Heap CG) (s : Store) (order : list UUID)
         (out : list ptr) : outcome (list ptr) :=
  match order with
  | [] => Ok out
  | k :: rest =>
      match games s !! k with
      | None => ongoing_loop h s rest out
      | Some g =>
          match h !! g with
          | None => Panic
          | Some G =>
              if String.eqb (Status_ G) StatusOngoing
              then ongoing_loop h s rest (out ++ [g])
              else ongoing_loop h s rest out
          end
      end
  end.

Definition ListOngoing (e : Env) (h : Heap CG) (s : Store)
  : Heap CG * Store * outcome (list ptr) :=
  (h, s, ongoing_loop h s (iter_order e) []).

(** The loop of [HasActiveGames]: it returns at the first game that is
    waiting or ongoing. *)
Fixpoint active_loop (h : Heap CG) (s : Store) (order : list UUID)
  : outcome bool :=
  match order with
  | [] => Ok false
  | k :: rest =>
      match games s !! k with
      | None => active_loop h s rest
      | Some g =>
          match h !! g with
          | None => Panic
          | Some G =>
              if String.eqb (Status_ G) StatusWaiting
                 || String.eqb (Status_ G) StatusOngoing
              then Ok true
              else active_loop h s rest
          end
      end
  end.

Definition HasActiveGames (e : Env) (h : Heap CG) (s : Store)
  : Heap CG * Store * outcome bool :=
  (h, s, active_loop h s (iter_order e)).

End Ops.

End memory.

(** ** Package postgres: the transactional store *)

Module postgres.
Import game.

Definition initialFEN : string :=
  "rnbqkbnr/pppppppp/8/8/8/8/PPPPPPPP/RNBQKBNR w KQkq - 0 1".

(** The tables of the migrations.  [games] is keyed by its primary key
    [id], [game_players] by its primary key [(game_id, client_id)];
    [moves] keeps its rows in insertion order. *)
Record GameRow : Type := mkGameRow {
  status : string;
  result : option string;
  fen : string;
  side_to_move : string;
  ply_count : Z;
  last_move_uci : option string;
  last_move_at : option Time;
  state_version : Z;
  created_at : Time;
  updated_at : Time
}.

Record PlayerRow : Type := mkPlayerRow {
  has_moved : bool;
  gp_created_at : Time
}.

Record MoveRow : Type := mkMoveRow {
  m_id : UUID;
  m_game_id : UUID;
  m_ply : Z;
  m_uci : string;
  m_from_sq : string;
  m_to_sq : string;
  m_promotion : option string;
  m_client_id : UUID;
  m_fen_before : string;
  m_fen_after : string;
  m_created_at : Time
}.

Record DB : Type := mkDB {
  games : gmap UUID GameRow;
  game_players : gmap (UUID * UUID) PlayerRow;
  moves : list MoveRow
}.

(** The environment of a statement or transaction: the order in which a
    scan meets the rows of [games] (it decides between rows that the
    [ORDER BY] leaves tied), the rows of [games] locked by concurrent
    transactions, SQL [NOW()], and the Go side's [uuid.New()] and
    [time.Now()]. *)
Record Env : Type := mkEnv {
  scan_order : list UUID;
  locked : gset UUID;
  db_now : Time;
  new_uuid : nat -> UUID;
  now : Time
}.

Definition set_games (db : DB) (m : gmap UUID GameRow) : DB :=
  mkDB m (game_players db) (moves db).
Definition set_game_players (db : DB) (m : gmap (UUID * UUID) PlayerRow)
  : DB :=
  mkDB (games db) m (moves db).
Definition set_moves (db : DB) (l : list MoveRow) : DB :=
  mkDB (games db) (game_players db) l.

Definition empty : DB := mkDB ∅ ∅ [].

(** A [TIMESTAMPTZ] column holds whole microseconds: of a [time.Time]
    bound to one, what lies below the microsecond is not stored. *)
Definition timestamptz (t : Time) : Time := 1000 * (t `div` 1000).

(** A Go [int] bound to an [INT] column or compared with one is encoded as
    a 32-bit integer; the driver refuses a value outside its range. *)
Definition fits_int4 (z : Z) : bool :=
  (- 2 ^ 31 <=? z) && (z <=? 2 ^ 31 - 1).

Definition scanGame {CG} (id : UUID) (r : GameRow) : Game CG :=
  mkGame id (status r) (result r) (fen r) (side_to_move r) (ply_count r)
         (last_move_uci r) (last_move_at r) (state_version r)
         (created_at r) (updated_at r) None.

(** [WHERE status IN ('waiting','ongoing') AND NOT EXISTS (SELECT 1 FROM
    game_players WHERE game_id = games.id AND client_id = $1)]. *)
Definition claimable (db : DB) (clientID : UUID) (id : UUID) (r : GameRow)
  : bool :=
  (String.eqb (status r) "waiting" || String.eqb (status r) "ongoing")
  && negb (bool_decide (is_Some (game_players db !! (id, clientID)))).

(** The rows of [games] in scan order. *)
Definition scan (db : DB) (order : list UUID) : list (UUID * GameRow) :=
  omap (fun id => (fun r => (id, r)) <$> games db !! id) order.

(** [ORDER BY created_at ASC LIMIT 1]: a row with the least [created_at];
    among equal ones, the one the scan met first. *)
Fixpoint oldest (rows : list (UUID * GameRow)) : option (UUID * GameRow) :=
  match rows with
  | [] => None
  | r :: rest =>
      match oldest rest with
      | None => Some r
      | Some r' =>
          if created_at (snd r) <=? created_at (snd r') then Some r
          else Some r'
      end
  end.

(** [queryClaimNextGame]: [FOR UPDATE SKIP LOCKED] passes over the rows
    that another transaction holds. *)
Definition queryClaimNextGame (db : DB) (e : Env) (clientID : UUID)
  : option (UUID * GameRow) :=
  oldest (filter (fun kr => claimable db clientID (fst kr) (snd kr) = true
                            ∧ fst kr ∉ locked e)
                 (scan db (scan_order e))).

(** [ORDER BY ply ASC] as a stable insertion sort. *)
Fixpoint insert_by_ply (r : MoveRow) (l : list MoveRow) : list MoveRow :=
  match l with
  | [] => [r]
  | x :: rest =>
      if m_ply r <? m_ply x then r :: x :: rest
      else x :: insert_by_ply r rest
  end.

Definition sort_by_ply (l : list MoveRow) : list MoveRow :=
  foldr (fun r acc => insert_by_ply r acc) [] (reverse l).

Definition to_item (r : MoveRow) : MoveHistoryItem :=
  mkMoveHistoryItem (m_ply r) (m_uci r) (m_from_sq r) (m_to_sq r)
    (m_promotion r) (m_client_id r) (m_fen_before r) (m_fen_after r)
    (m_created_at r).

(** [fetchMoveHistory]: [queryMoveHistory] and the scan of its rows. *)
Definition fetchMoveHistory (db : DB) (gameID : UUID)
  : list MoveHistoryItem :=
  to_item <$> sort_by_ply
    (filter (fun r => m_game_id r = gameID) (moves db)).

(** [queryInsertMove] against the schema: the primary key [moves.id], the
    foreign key [moves.game_id -> games.id] and the [INT] column [ply]. *)
Definition exec_InsertMove (db : DB) (r : MoveRow) : option DB :=
  if bool_decide (m_id r ∈ (m_id <$> moves db)) then None
  else if negb (bool_decide (is_Some (games db !! m_game_id r))) then None
  else if negb (fits_int4 (m_ply r)) then None
  else Some (set_moves db (moves db ++ [r])).

(** [queryUpdateGame]: the number of rows affected and the new state; an
    error where an [int] argument does not fit its [INT] column. *)
Definition exec_UpdateGame {CG} (db : DB) (newGame : Game CG)
           (gameID : UUID) (expectedVersion : Z) : option (nat * DB) :=
  if negb (fits_int4 (PlyCount newGame) && fits_int4 (StateVersion newGame)
           && fits_int4 expectedVersion)
  then None
  else
    match games db !! gameID with
    | Some r =>
        if decide (state_version r = expectedVersion) then
          Some (1%nat,
                set_games db
                  (<[gameID :=
                       mkGameRow (Status_ newGame) (Result_ newGame)
                         (FEN newGame) (SideToMove newGame)
                         (PlyCount newGame) (LastMoveUCI newGame)
                         (timestamptz <$> LastMoveAt newGame)
                         (StateVersion newGame) (created_at r)
                         (timestamptz (UpdatedAt newGame))]> (games db)))
        else Some (0%nat, db)
    | None => Some (0%nat, db)
    end.

(** [queryMarkMoved]. *)
Definition exec_MarkMoved (db : DB) (gameID clientID : UUID) : DB :=
  match game_players db !! (gameID, clientID) with
  | Some p =>
      set_game_players db
        (<[(gameID, clientID) := mkPlayerRow true (gp_created_at p)]>
           (game_players db))
  | None => db
  end.

(** [queryActivateGame]. *)
Definition exec_ActivateGame (db : DB) (e : Env) (id : UUID) : DB :=
  match games db !! id with
  | Some r =>
      if String.eqb (status r) "waiting" then
        set_games db
          (<[id := mkGameRow "ongoing" (result r) (fen r) (side_to_move r)
                     (ply_count r) (last_move_uci r) (last_move_at r)
                     (state_version r) (created_at r) (db_now e)]>
             (games db))
      else db
  | None => db
  end.

(** [queryInsert] with the arguments of [CreateWaitingBatch];
    [ON CONFLICT (id) DO NOTHING]. *)
Definition exec_InsertWaiting (db : DB) (id : UUID) (t : Time) : DB :=
  match games db !! id with
  | Some _ => db
  | None =>
      set_games db
        (<[id := mkGameRow StatusWaiting None initialFEN "white" 0 None None
                   0 (timestamptz t) (timestamptz t)]> (games db))
  end.

(** [queryListOngoing]: the rows whose status is ongoing, in scan
    order. *)
Definition queryListOngoing (db : DB) (e : Env) : list (UUID * GameRow) :=
  filter (fun kr => status (snd kr) = "ongoing"%string)
         (scan db (scan_order e)).

(** [queryHasActive]: [SELECT EXISTS(SELECT 1 FROM games WHERE status IN
    ('waiting','ongoing'))]. *)
Definition queryHasActive (db : DB) : bool :=
  bool_decide (map_Exists (fun _ r => status r = "waiting"%string
                                      ∨ status r = "ongoing"%string)
                          (games db)).

(** [queryInsert] with the fields of a game: [ON CONFLICT (id) DO
    NOTHING]; an error where a counter does not fit its [INT] column. *)
Definition exec_Insert {CG} (db : DB) (G : Game CG) : option DB :=
  if negb (fits_int4 (PlyCount G) && fits_int4 (StateVersion G)) then None
  else
    match games db !! ID G with
    | Some _ => Some db
    | None =>
        Some (set_games db
                (<[ID G := mkGameRow (Status_ G) (Result_ G) (FEN G)
                             (SideToMove G) (PlyCount G) (LastMoveUCI G)
                             (timestamptz <$> LastMoveAt G) (StateVersion G)
                             (timestamptz (CreatedAt G))
                             (timestamptz (UpdatedAt G))]> (games db)))
    end.

Section Ops.
Context {CG : Type}.

Definition GetByID (h : Heap CG) (db : DB) (id : UUID)
  : Heap CG * DB * outcome ptr :=
  match games db !! id with
  | None => (h, db, Fail ErrNotFound)
  | Some r =>
      let '(h1, g) := alloc h (scanGame id r) in
      (h1, db, Ok g)
  end.

Fixpoint batch_loop (e : Env) (n i : nat) (db : DB) : DB :=
  match n with
  | O => db
  | S n' =>
      batch_loop e n' (S i) (exec_InsertWaiting db (new_uuid e i) (now e))
  end.

Definition CreateWaitingBatch (e : Env) (h : Heap CG) (db : DB)
           (count : Z) : Heap CG * DB * outcome unit :=
  (h, batch_loop e (Z.to_nat count) 0 db, Ok tt).

(** A transaction: every exit before [tx.Commit] leaves [db] as it
    was. *)
Definition ClaimNextGame (e : Env) (h : Heap CG) (db : DB)
           (clientID : UUID)
  : Heap CG * DB * outcome (ptr * list MoveHistoryItem) :=
  match queryClaimNextGame db e clientID with
  | None => (h, db, Fail ErrNoGamesAvailable)
  | Some (id, r) =>
      let '(h1, g) := alloc h (scanGame id r) in
      if bool_decide (is_Some (game_players db !! (id, clientID)))
      then (h1, db, Fail ErrNoGamesAvailable)
      else
        let tx1 :=
          set_game_players db
            (<[(id, clientID) := mkPlayerRow false (db_now e)]>
               (game_players db)) in
        let tx2 := exec_ActivateGame tx1 e id in
        let h2 :=
          if String.eqb (status r) StatusWaiting
          then <[g := with_Status (scanGame id r) StatusOngoing]> h1
          else h1 in
        let history := fetchMoveHistory tx2 id in
        (h2, tx2, Ok (g, history))
  end.

Definition GetGameWithHistory (h : Heap CG) (db : DB) (id : UUID)
  : Heap CG * DB * outcome (ptr * list MoveHistoryItem) :=
  match GetByID h db id with
  | (h1, db1, Ok g) => (h1, db1, Ok (g, fetchMoveHistory db1 id))
  | (h1, db1, Fail err) => (h1, db1, Fail err)
  | (h1, db1, Panic) => (h1, db1, Panic)
  end.

Definition PersistMove (h : Heap CG) (db : DB) (gameID clientID : UUID)
           (newGame : ptr) (rec : MoveRecord) (ply : Z)
  : Heap CG * DB * outcome (list MoveHistoryItem) :=
  match game_players db !! (gameID, clientID) with
  | None => (h, db, Fail ErrNotAssigned)
  | Some p =>
      if has_moved p then (h, db, Fail ErrAlreadyMoved)
      else
        match GoString.split_uci (rec_UCI rec) with
        | None => (h, db, Panic)
        | Some (fromSq, toSq, promotion) =>
            match exec_InsertMove db
                    (mkMoveRow (rec_ID rec) gameID ply (rec_UCI rec)
                       fromSq toSq promotion clientID (rec_FENBefore rec)
                       (rec_FENAfter rec) (timestamptz (rec_CreatedAt rec)))
              with
            | None => (h, db, Fail ErrDriver)
            | Some tx1 =>
                match h !! newGame with
                | None => (h, db, Panic)
                | Some NG =>
                    let expectedVersion := GoInt.sub (StateVersion NG) 1 in
                    match exec_UpdateGame tx1 NG gameID expectedVersion with
                    | None => (h, db, Fail ErrDriver)
                    | Some (O, _) => (h, db, Fail ErrVersionConflict)
                    | Some (_, tx2) =>
                        let tx3 := exec_MarkMoved tx2 gameID clientID in
                        (h, tx3, Ok (fetchMoveHistory tx3 gameID))
                    end
                end
            end
        end
  end.

(** The loop of [ListOngoing] over the rows of the query: one game
    object per row. *)
Fixpoint scan_rows (h : Heap CG) (rows : list (UUID * GameRow))
         (out : list ptr) : Heap CG * list ptr :=
  match rows with
  | [] => (h, out)
  | kr :: rest =>
      let '(h1, g) := alloc h (scanGame (fst kr) (snd kr)) in
      scan_rows h1 rest (out ++ [g])
  end.

Definition ListOngoing (e : Env) (h : Heap CG) (db : DB)
  : Heap CG * DB * outcome (list ptr) :=
  let '(h1, out) := scan_rows h (queryListOngoing db e) [] in
  (h1, db, Ok out).

(** [SaveIfVersion]: [querySaveIfVersion] is the statement of
    [queryUpdateGame], with the game's own identifier. *)
Definition SaveIfVersion (h : Heap CG) (db : DB) (g : ptr)
           (expectedVersion : Z) : Heap CG * DB * outcome unit :=
  match h !! g with
  | None => (h, db, Panic)
  | Some G =>
      match exec_UpdateGame db G (ID G) expectedVersion with
      | None => (h, db, Fail ErrDriver)
      | Some (O, _) => (h, db, Fail ErrVersionConflict)
      | Some (_, db1) => (h, db1, Ok tt)
      end
  end.

Definition Insert (h : Heap CG) (db : DB) (g : ptr)
  : Heap CG * DB * outcome unit :=
  match h !! g with
  | None => (h, db, Panic)
  | Some G =>
      match exec_Insert db G with
      | None => (h, db, Fail ErrDriver)
      | Some db1 => (h, db1, Ok tt)
      end
  end.

Definition HasActiveGames (h : Heap CG) (db : DB)
  : Heap CG * DB * outcome bool :=
  (h, db, Ok (queryHasActive db)).

End Ops.

End postgres.

(** ** Package ports: the store interface and the rate limiter *)

Module ports.
Import game.

(** [ports.GameStore], for a store with state [S] whose calls take an
    environment [E]; each method maps the heap and the store state to the
    new ones and the result. *)
Class GameStore (CG S E : Type) : Type := {
  GetByID : E -> Heap CG -> S -> UUID -> Heap CG * S * outcome ptr;
  CreateWaitingBatch :
    E -> Heap CG -> S -> Z -> Heap CG * S * outcome unit;
  ClaimNextGame :
    E -> Heap CG -> S -> UUID ->
    Heap CG * S * outcome (ptr * list MoveHistoryItem);
  PersistMove :
    E -> Heap CG -> S -> UUID -> UUID -> ptr -> MoveRecord -> Z ->
    Heap CG * S * outcome (list MoveHistoryItem)
}.

(** [ports.RateLimiter]: [Allow(ip, token)]. *)
Definition RateLimiter : Type := string -> string -> bool.

(** [memory.AlwaysAllow]. *)
Definition AlwaysAllow : RateLimiter := fun _ _ => true.

(** The store calls a use case makes, in order. *)
Inductive Call : Type :=
| CallGetByID (id : UUID)
| CallCreateWaitingBatch (count : Z)
| CallClaimNextGame (clientID : UUID)
| CallPersistMove (gameID clientID : UUID) (newGame : ptr)
                  (rec : MoveRecord) (ply : Z).

(** A store that forwards every call to [St] and appends it to a log. *)
#[local] Instance Recorder {CG S E} (St : GameStore CG S E)
  : GameStore CG (S * list Call) E := {
  GetByID e h s id :=
    let '(h', s', r) := GetByID e h (fst s) id in
    (h', (s', snd s ++ [CallGetByID id]), r);
  CreateWaitingBatch e h s count :=
    let '(h', s', r) := CreateWaitingBatch e h (fst s) count in
    (h', (s', snd s ++ [CallCreateWaitingBatch count]), r);
  ClaimNextGame e h s clientID :=
    let '(h', s', r) := ClaimNextGame e h (fst s) clientID in
    (h', (s', snd s ++ [CallClaimNextGame clientID]), r);
  PersistMove e h s gameID clientID newGame rec ply :=
    let '(h', s', r) :=
      PersistMove e h (fst s) gameID clientID newGame rec ply in
    (h', (s', snd s ++ [CallPersistMove gameID clientID newGame rec ply]), r)
}.

(** The methods of [ports.GameStore] that matchmaking and move
    submission do not call: the read path of the legacy assignment, the
    plain compare-and-swap and the seeding check. *)
Class GameStoreRest (CG S E : Type) : Type := {
  ListOngoing : E -> Heap CG -> S -> Heap CG * S * outcome (list ptr);
  SaveIfVersion :
    E -> Heap CG -> S -> ptr -> Z -> Heap CG * S * outcome unit;
  HasActiveGames : E -> Heap CG -> S -> Heap CG * S * outcome bool
}.

End ports.

(** The two stores implement the interface. *)
#[local] Instance memory_GameStore {CG} `{!chess.Engine CG}
  : ports.GameStore CG memory.Store memory.Env := {
  ports.GetByID _ := memory.GetByID;
  ports.CreateWaitingBatch := memory.CreateWaitingBatch;
  ports.ClaimNextGame := memory.ClaimNextGame;
  ports.PersistMove _ := memory.PersistMove
}.

#[local] Instance postgres_GameStore {CG}
  : ports.GameStore CG postgres.DB postgres.Env := {
  ports.GetByID _ := postgres.GetByID;
  ports.CreateWaitingBatch := postgres.CreateWaitingBatch;
  ports.ClaimNextGame := postgres.ClaimNextGame;
  ports.PersistMove _ := postgres.PersistMove
}.

#[local] Instance memory_GameStoreRest {CG}
  : ports.GameStoreRest CG memory.Store memory.Env := {
  ports.ListOngoing := memory.ListOngoing;
  ports.SaveIfVersion _ := memory.SaveIfVersion;
  ports.HasActiveGames := memory.HasActiveGames
}.

#[local] Instance postgres_GameStoreRest {CG}
  : ports.GameStoreRest CG postgres.DB postgres.Env := {
  ports.ListOngoing := postgres.ListOngoing;
  ports.SaveIfVersion _ := postgres.SaveIfVersion;
  ports.HasActiveGames _ := postgres.HasActiveGames
}.

(** ** Package usecase: matchmaking and move submission *)

Module usecase.
Import game.

Record SubmitMoveRequest : Type := mkSubmitMoveRequest {
  req_UCI : string;
  ExpectedVersion : Z;
  ClientNonce : option string
}.

Record SubmitMoveResult : Type := mkSubmitMoveResult {
  res_Move : MoveRecord;
  res_Game : ptr;
  res_History : list MoveHistoryItem;
  ShouldFetchNext : bool
}.

Record NextGameResult : Type := mkNextGameResult {
  next_Game : ptr;
  next_History : list MoveHistoryItem
}.

Section UseCases.
Context {CG S E : Type} {eng : chess.Engine CG}.
Context (store : ports.GameStore CG S E) (rl : ports.RateLimiter).

(** [(n *NextGame).GetNext]; [e1], [e2] and [e3] are the environments of
    the first claim, of the batch creation and of the second claim. *)
Definition GetNext (batchSize : Z) (e1 e2 e3 : E) (h : Heap CG) (s : S)
           (ip token : string) (clientID : UUID)
  : Heap CG * S * outcome NextGameResult :=
  if negb (rl ip token) then (h, s, Fail ErrRateLimited)
  else
    match ports.ClaimNextGame e1 h s clientID with
    | (h1, s1, Ok (g, hist)) => (h1, s1, Ok (mkNextGameResult g hist))
    | (h1, s1, Panic) => (h1, s1, Panic)
    | (h1, s1, Fail err) =>
        if negb (bool_decide (err = ErrNoGamesAvailable))
        then (h1, s1, Fail err)
        else
          match ports.CreateWaitingBatch e2 h1 s1 batchSize with
          | (h2, s2, Fail createErr) => (h2, s2, Fail createErr)
          | (h2, s2, Panic) => (h2, s2, Panic)
          | (h2, s2, Ok _) =>
              match ports.ClaimNextGame e3 h2 s2 clientID with
              | (h3, s3, Ok (g, hist)) =>
                  (h3, s3, Ok (mkNextGameResult g hist))
              | (h3, s3, Fail err) => (h3, s3, Fail err)
              | (h3, s3, Panic) => (h3, s3, Panic)
              end
          end
    end.

(** [(m *MoveSubmitter).SubmitMove]; [e1] and [e2] are the environments
    of [GetByID] and [PersistMove], [now] is [time.Now()] and [recID]
    the [uuid.New()] of [ApplyMove]. *)
Definition SubmitMove (e1 e2 : E) (now : Time) (recID : UUID)
           (h : Heap CG) (s : S) (ip token : string)
           (gameID clientID : UUID) (req : SubmitMoveRequest)
  : Heap CG * S * outcome SubmitMoveResult :=
  if negb (rl ip token) then (h, s, Fail ErrRateLimited)
  else
    match ports.GetByID e1 h s gameID with
    | (h1, s1, Fail err) => (h1, s1, Fail err)
    | (h1, s1, Panic) => (h1, s1, Panic)
    | (h1, s1, Ok g) =>
        match h1 !! g with
        | None => (h1, s1, Panic)
        | Some G =>
            if decide (StateVersion G ≠ ExpectedVersion req)
            then (h1, s1, Fail ErrVersionConflict)
            else
              match ApplyMove h1 g (req_UCI req) now recID with
              | (h2, Fail err) => (h2, s1, Fail err)
              | (h2, Panic) => (h2, s1, Panic)
              | (h2, Ok (newGame, rec)) =>
                  match h2 !! newGame with
                  | None => (h2, s1, Panic)
                  | Some NG =>
                      let ply := GoInt.sub (PlyCount NG) 1 in
                      match ports.PersistMove e2 h2 s1 gameID clientID
                              newGame rec ply with
                      | (h3, s3, Fail err) => (h3, s3, Fail err)
                      | (h3, s3, Panic) => (h3, s3, Panic)
                      | (h3, s3, Ok history) =>
                          match h3 !! newGame with
                          | None => (h3, s3, Panic)
                          | Some NG' =>
                              (h3, s3,
                               Ok (mkSubmitMoveResult rec newGame history
                                     (negb (String.eqb (Status_ NG')
                                              StatusOngoing))))
                          end
                      end
                  end
              end
        end
    end.

End UseCases.

(** [AssignResult] and what [Assign] returns: its own sentinel
    [usecase.ErrNoGamesAvailable] ("no ongoing games available") is not
    the store's [ports.ErrNoGamesAvailable]. *)
Record AssignResult : Type := mkAssignResult {
  assign_Game : ptr;
  AssignmentID : UUID;
  AssignedAt : Time
}.

Inductive AssignOutcome : Type :=
| Assigned (r : AssignResult)
| AssignFail (e : Err)
| AssignNoOngoingGames
| AssignPanic.

Section ReadPaths.
Context {CG S E : Type}.
Context (store : ports.GameStore CG S E) (rest : ports.GameStoreRest CG S E).
Context (rl : ports.RateLimiter).

(** [(a *Assigner).Assign]; [now] is [time.Now()] and [id] the
    [uuid.New()] of the assignment. *)
Definition Assign (e : E) (now : Time) (id : UUID) (h : Heap CG) (s : S)
           (ip token : string) : Heap CG * S * AssignOutcome :=
  if negb (rl ip token) then (h, s, AssignFail ErrRateLimited)
  else
    match ports.ListOngoing e h s with
    | (h1, s1, Fail err) => (h1, s1, AssignFail err)
    | (h1, s1, Panic) => (h1, s1, AssignPanic)
    | (h1, s1, Ok games) =>
        match games with
        | [] => (h1, s1, AssignNoOngoingGames)
        | g0 :: _ => (h1, s1, Assigned (mkAssignResult g0 id now))
        end
    end.

(** [(g *GameGetter).GetGame]. *)
Definition GetGame (e : E) (h : Heap CG) (s : S) (ip token : string)
           (id : UUID) : Heap CG * S * outcome ptr :=
  if negb (rl ip token) then (h, s, Fail ErrRateLimited)
  else ports.GetByID e h s id.

End ReadPaths.

End usecase.

(** ** Package config *)

Module config.

Record Config : Type := mkConfig {
  Port : string;
  DatabaseURL : string;
  GameCreateBatchSize : Z
}.

Section Load.
(** [os.Getenv] (the empty string for an unset variable) and
    [strconv.Atoi] ([None] where it returns an error). *)
Context (Getenv : string -> string) (Atoi : string -> option Z).

Definition Load : Config :=
  let port := Getenv "PORT" in
  let port := if String.eqb port "" then "8080"%string else port in
  let batchSize := 20 in
  let v := Getenv "GAME_CREATE_BATCH_SIZE" in
  let batchSize :=
    if negb (String.eqb v "") then
      match Atoi v with
      | Some n => if 0 <? n then n else batchSize
      | None => batchSize
      end
    else batchSize in
  mkConfig port (Getenv "DATABASE_URL") batchSize.

End Load.

End config.

(** ** Package main: seeding at start-up *)

Module main.
Import game.

Section Seed.
Context {CG S E : Type}.
Context (store : ports.GameStore CG S E) (rest : ports.GameStoreRest CG S E).

(** [seedIfEmpty]: an error of either call is logged and the function
    returns; [e1] and [e2] are the environments of the two calls. *)
Definition seedIfEmpty (e1 e2 : E) (h : Heap CG) (s : S) (batchSize : Z)
  : Heap CG * S * outcome unit :=
  match ports.HasActiveGames e1 h s with
  | (h1, s1, Panic) => (h1, s1, Panic)
  | (h1, s1, Fail _) => (h1, s1, Ok tt)
  | (h1, s1, Ok has) =>
      if (has : bool) then (h1, s1, Ok tt)
      else
        match ports.CreateWaitingBatch e2 h1 s1 batchSize with
        | (h2, s2, Panic) => (h2, s2, Panic)
        | (h2, s2, Fail _) => (h2, s2, Ok tt)
        | (h2, s2, Ok _) => (h2, s2, Ok tt)
        end
  end.

End Seed.

End main.

(** ** Package http (internal/transport/http)

    A handler reads the request through [echo.Context] and answers
    through it.  The request is a record of what the handler reads; the
    answer is the list of the calls that write: [c.Response().Header().Set]
    and [c.JSON], in order.  The status the client sees is the one of the
    first [c.JSON], which commits the response. *)

Module transporthttp.
Import game.

Definition errBase : string := "https://errors.random-chess.local".

(** The values of type [error] that reach [writeErr]: a sentinel of the
    packages [game], [ports] and [usecase], the sentinel
    [usecase.ErrNoGamesAvailable] of the legacy assignment, or an error of
    [c.Bind]. *)
Inductive error : Type :=
| Sentinel (e : Err)
| ErrNoOngoingGames
| ErrBind.

Record Problem : Type := mkProblem {
  problem_Type : string;
  problem_Title : string;
  problem_Status : Z;
  problem_Detail : string
}.

Record moveHistoryJSON : Type := mkMoveHistoryJSON {
  mh_Ply : Z;
  mh_UCI : string;
  mh_From : string;
  mh_To : string;
  mh_Promotion : option string;
  mh_ClientID : string;
  mh_FENBefore : string;
  mh_FENAfter : string;
  mh_CreatedAt : Time
}.

Record gameJSON : Type := mkGameJSON {
  json_GameID : string;
  json_Status : string;
  json_Result : option string;
  json_FEN : string;
  json_SideToMove : string;
  json_PlyCount : Z;
  json_LastMoveUCI : option string;
  json_LastMoveAt : option Time;
  json_StateVersion : Z;
  json_CreatedAt : Time;
  json_UpdatedAt : Time;
  json_MoveHistory : list moveHistoryJSON
}.

Record IllegalMoveProblem : Type := mkIllegalMoveProblem {
  illegal_Problem : Problem;
  illegal_Code : string;
  illegal_Game : option gameJSON
}.

(** The bodies that the handlers pass to [c.JSON]. *)
Inductive Body : Type :=
| ProblemBody (p : Problem)
| IllegalMoveBody (p : IllegalMoveProblem)
| HealthBody (ok : bool)
| AssignedBody (game : gameJSON) (assignment_id : string)
               (assigned_at : Time)
| NextBody (game : gameJSON)
| AcceptedBody (accepted : bool) (move_id uci fen_before fen_after : string)
               (created_at : Time) (game : gameJSON)
               (should_fetch_next : option bool).

Inductive Effect : Type :=
| SetHeader (key value : string)
| WriteJSON (code : Z) (body : Body).

(** The status of the response: the code of the first [c.JSON]. *)
Fixpoint status_of (w : list Effect) : option Z :=
  match w with
  | [] => None
  | WriteJSON code _ :: _ => Some code
  | SetHeader _ _ :: rest => status_of rest
  end.

(** The body that [handleSubmitMove] binds. *)
Record SubmitBody : Type := mkSubmitBody {
  body_UCI : string;
  body_From : string;
  body_To : string;
  body_Promotion : option string;
  body_ExpectedVersion : Z;
  body_ClientNonce : option string
}.

(** What a handler reads: [c.RealIP()], the headers [X-Client-Token] and
    [X-Client-Id] (empty when absent), [c.Param("game_id")], what
    [c.Bind] makes of the body ([None] where it returns an error) and
    what [c.JSON] returns ([None], that is nil, once the body is
    written). *)
Record Request : Type := mkRequest {
  RealIP : string;
  X_Client_Token : string;
  X_Client_Id : string;
  param_game_id : string;
  Bind : option SubmitBody;
  JSON_error : option error
}.

(** What a handler returns: an [error] (nil or not), unless it
    panics. *)
Inductive Returned : Type :=
| Return (err : option error)
| Panicked.

(** [writeErr]: the calls it makes on the context; it returns what
    [c.JSON] returns. *)
Definition writeErr (err : error) : list Effect :=
  match err with
  | Sentinel ErrNotFound =>
      [WriteJSON 404
         (ProblemBody (mkProblem (String.append errBase "/not-found")
                         "Not Found" 404 "Resource not found."))]
  | Sentinel ErrVersionConflict =>
      [WriteJSON 409
         (ProblemBody
            (mkProblem (String.append errBase "/conflict") "Conflict" 409
               "Game state changed; refresh and retry with new expected_version."))]
  | Sentinel ErrRateLimited =>
      [SetHeader "Retry-After" "2";
       WriteJSON 429
         (ProblemBody
            (mkProblem (String.append errBase "/rate-limited")
               "Too Many Requests" 429
               "Rate limit exceeded. Try again later."))]
  | Sentinel ErrGameNotOngoing =>
      [WriteJSON 422
         (IllegalMoveBody
            (mkIllegalMoveProblem
               (mkProblem (String.append errBase "/illegal-move")
                  "Unprocessable Entity" 422 "Game is not ongoing.")
               "game_not_ongoing" None))]
  | Sentinel ErrInvalidUCI =>
      [WriteJSON 422
         (IllegalMoveBody
            (mkIllegalMoveProblem
               (mkProblem (String.append errBase "/illegal-move")
                  "Unprocessable Entity" 422
                  "Move string is not valid UCI notation.")
               "invalid_uci" None))]
  | Sentinel ErrIllegalMove =>
      [WriteJSON 422
         (IllegalMoveBody
            (mkIllegalMoveProblem
               (mkProblem (String.append errBase "/illegal-move")
                  "Unprocessable Entity" 422
                  "Move is not legal in the current position.")
               "illegal_move" None))]
  | _ =>
      [WriteJSON 500
         (ProblemBody (mkProblem (String.append errBase "/internal")
                         "Internal Server Error" 500 "Unexpected error."))]
  end.

(** The move string that [handleSubmitMove] resolves from the fields of
    the request body: [from] and [to], with the promotion piece when there
    is one, are preferred to the [uci] field. *)
Definition handleSubmitMove_uci (uci from to : string)
           (promotion : option string) : string :=
  if negb (String.eqb from "") && negb (String.eqb to "") then
    let u := String.append from to in
    match promotion with
    | Some p => String.append u p
    | None => u
    end
  else uci.

Section Handlers.
Context {CG S E : Type} {eng : chess.Engine CG}.
Context (store : ports.GameStore CG S E) (rest : ports.GameStoreRest CG S E).
Context (rl : ports.RateLimiter) (batchSize : Z).
(** [uuid.Parse] ([None] where it returns an error) and
    [(uuid.UUID).String]; [uuid.Nil] is the identifier 0. *)
Context (uuid_Parse : string -> option UUID) (uuid_String : UUID -> string).

Definition uuid_Nil : UUID := 0%N.

Definition toMoveHistoryJSON (items : list MoveHistoryItem)
  : list moveHistoryJSON :=
  (fun item =>
     mkMoveHistoryJSON (Ply item) (UCI item) (FromSq item) (ToSq item)
       (Promotion item) (uuid_String (ClientID item)) (FENBefore item)
       (FENAfter item) (item_CreatedAt item)) <$> items.

(** [toGameJSON] reads the game through its pointer. *)
Definition toGameJSON (h : Heap CG) (g : ptr)
           (history : list MoveHistoryItem) : option gameJSON :=
  match h !! g with
  | None => None
  | Some G =>
      Some (mkGameJSON (uuid_String (ID G)) (Status_ G) (Result_ G) (FEN G)
              (SideToMove G) (PlyCount G) (LastMoveUCI G) (LastMoveAt G)
              (StateVersion G) (CreatedAt G) (UpdatedAt G)
              (toMoveHistoryJSON history))
  end.

(** [parseClientID]: the identifier, the calls made on the context and
    the error returned, which in the two failing cases is what [c.JSON]
    returns. *)
Definition parseClientID (r : Request)
  : UUID * list Effect * option error :=
  let raw := X_Client_Id r in
  if String.eqb raw "" then
    (uuid_Nil,
     [WriteJSON 400
        (ProblemBody
           (mkProblem (String.append errBase "/missing-client-id")
              "Bad Request" 400 "X-Client-Id header is required (UUID)."))],
     JSON_error r)
  else
    match uuid_Parse raw with
    | None =>
        (uuid_Nil,
         [WriteJSON 400
            (ProblemBody
               (mkProblem (String.append errBase "/invalid-client-id")
                  "Bad Request" 400 "X-Client-Id must be a valid UUID."))],
         JSON_error r)
    | Some id => (id, [], None)
    end.

Definition handleHealthz (r : Request) : list Effect * Returned :=
  ([WriteJSON 200 (HealthBody true)], Return (JSON_error r)).

(** [handleGetAssigned]; [e] is the environment of [ListOngoing], [now]
    and [id] the time and identifier that [Assign] draws. *)
Definition handleGetAssigned (e : E) (now : Time) (id : UUID)
           (h : Heap CG) (s : S) (r : Request)
  : Heap CG * S * list Effect * Returned :=
  let ip := RealIP r in
  let token := X_Client_Token r in
  match usecase.Assign rest rl e now id h s ip token with
  | (h1, s1, usecase.AssignPanic) => (h1, s1, [], Panicked)
  | (h1, s1, usecase.AssignFail err) =>
      (h1, s1, writeErr (Sentinel err), Return (JSON_error r))
  | (h1, s1, usecase.AssignNoOngoingGames) =>
      (h1, s1, writeErr ErrNoOngoingGames, Return (JSON_error r))
  | (h1, s1, usecase.Assigned res) =>
      match toGameJSON h1 (usecase.assign_Game res) [] with
      | None => (h1, s1, [SetHeader "Cache-Control" "no-store"], Panicked)
      | Some gj =>
          (h1, s1,
           [SetHeader "Cache-Control" "no-store";
            WriteJSON 200
              (AssignedBody gj (uuid_String (usecase.AssignmentID res))
                 (usecase.AssignedAt res))],
           Return (JSON_error r))
      end
  end.

(** [handleGetNext]; [e1], [e2] and [e3] are the environments of
    [GetNext]. *)
Definition handleGetNext (e1 e2 e3 : E) (h : Heap CG) (s : S) (r : Request)
  : Heap CG * S * list Effect * Returned :=
  let '(clientID, w, err) := parseClientID r in
  match err with
  | Some e => (h, s, w, Return (Some e))
  | None =>
      let ip := RealIP r in
      let token := X_Client_Token r in
      match usecase.GetNext store rl batchSize e1 e2 e3 h s ip token
              clientID with
      | (h1, s1, Panic) => (h1, s1, w, Panicked)
      | (h1, s1, Fail e) =>
          (h1, s1, w ++ writeErr (Sentinel e), Return (JSON_error r))
      | (h1, s1, Ok res) =>
          match toGameJSON h1 (usecase.next_Game res)
                  (usecase.next_History res) with
          | None =>
              (h1, s1, w ++ [SetHeader "Cache-Control" "no-store"], Panicked)
          | Some gj =>
              (h1, s1,
               w ++ [SetHeader "Cache-Control" "no-store";
                     WriteJSON 200 (NextBody gj)],
               Return (JSON_error r))
          end
      end
  end.

(** [handleSubmitMove]; [e1] and [e2] are the environments of
    [SubmitMove], [now] and [recID] the time and identifier it draws. *)
Definition handleSubmitMove (e1 e2 : E) (now : Time) (recID : UUID)
           (h : Heap CG) (s : S) (r : Request)
  : Heap CG * S * list Effect * Returned :=
  let ip := RealIP r in
  let token := X_Client_Token r in
  let '(clientID, w, err) := parseClientID r in
  match err with
  | Some e => (h, s, w, Return (Some e))
  | None =>
      match uuid_Parse (param_game_id r) with
      | None =>
          (h, s, w ++ writeErr (Sentinel ErrNotFound),
           Return (JSON_error r))
      | Some id =>
          match Bind r with
          | None => (h, s, w ++ writeErr ErrBind, Return (JSON_error r))
          | Some body =>
              let uci :=
                handleSubmitMove_uci (body_UCI body) (body_From body)
                  (body_To body) (body_Promotion body) in
              if String.eqb uci "" then
                (h, s, w ++ writeErr (Sentinel ErrInvalidUCI),
                 Return (JSON_error r))
              else
                let req :=
                  usecase.mkSubmitMoveRequest uci (body_ExpectedVersion body)
                    (body_ClientNonce body) in
                match usecase.SubmitMove store rl e1 e2 now recID h s ip
                        token id clientID req with
                | (h1, s1, Panic) => (h1, s1, w, Panicked)
                | (h1, s1, Fail e) =>
                    (h1, s1, w ++ writeErr (Sentinel e),
                     Return (JSON_error r))
                | (h1, s1, Ok res) =>
                    let nextHint :=
                      if usecase.ShouldFetchNext res then Some true
                      else None in
                    match toGameJSON h1 (usecase.res_Game res)
                            (usecase.res_History res) with
                    | None =>
                        (h1, s1,
                         w ++ [SetHeader "Cache-Control" "no-store"],
                         Panicked)
                    | Some gj =>
                        let m := usecase.res_Move res in
                        (h1, s1,
                         w ++ [SetHeader "Cache-Control" "no-store";
                               WriteJSON 200
                                 (AcceptedBody true (uuid_String (rec_ID m))
                                    (rec_UCI m) (rec_FENBefore m)
                                    (rec_FENAfter m) (rec_CreatedAt m) gj
                                    nextHint)],
                         Return (JSON_error r))
                    end
                end
          end
      end
  end.

End Handlers.

End transporthttp.

(** ** A miniature rule engine for closed examples

    A game is its position string, the number of moves played and whether
    the last move mated.  Every move but ["e2e5"] is playable; ["h5f7"]
    mates; the empty string is not a position.  A position string lists
    the moves played, and it is White's turn after an even number of
    them. *)

Module toy.

Definition CG : Type := string * nat * bool.

(** The moves played so far in a position: one blank before each. *)
Fixpoint played (p : string) : nat :=
  match p with
  | EmptyString => O
  | String c rest => ((if Ascii.eqb c " " then 1 else 0) + played rest)%nat
  end.

#[global] Instance engine : chess.Engine CG := {
  chess.FenOpt := string;
  chess.Position := string;
  chess.Move := unit;
  chess.FEN s := if String.eqb s "" then None else Some s;
  chess.NewGame o :=
    match o with
    | None => ("start"%string, O, false)
    | Some s => (s, O, false)
    end;
  chess.MoveStr cg uci :=
    if String.eqb uci "e2e5" then None
    else Some (String.append (fst (fst cg)) (String.append " " uci),
               S (snd (fst cg)), String.eqb uci "h5f7");
  chess.Moves cg := repeat tt (snd (fst cg));
  chess.GamePosition cg := fst (fst cg);
  chess.PositionString p := p;
  chess.Turn p := if Nat.even (played p) then chess.White else chess.Black;
  chess.GameOutcome cg := if snd cg then chess.WhiteWon else chess.NoOutcome;
  chess.GameMethod cg := if snd cg then chess.Checkmate else chess.NoMethod
}.

(** A game object as [NewGame] makes it, with the given status and
    creation time. *)
Definition fresh (id : UUID) (st : game.Status) (t : Time) : game.Game CG :=
  game.mkGame id st None "start" "white" 0 None None 0 t t
              (Some ("start"%string, O, false)).

End toy.

(** ** The words of the specification *)

Module spec.
Import game.

Definition is_file (c : ascii) : Prop :=
  In c ["a"; "b"; "c"; "d"; "e"; "f"; "g"; "h"]%char.
Definition is_rank (c : ascii) : Prop :=
  In c ["1"; "2"; "3"; "4"; "5"; "6"; "7"; "8"]%char.
Definition is_promotion (c : ascii) : Prop :=
  In c ["q"; "r"; "b"; "n"]%char.

(** Well-formed coordinate notation: length 4 or 5; characters 1 and 3
    files, characters 2 and 4 ranks; an optional fifth character that is a
    promotion piece. *)
Definition wellformed_uci (s : string) : Prop :=
  (String.length s = 4%nat ∨ String.length s = 5%nat)
  ∧ (∃ c, String.get 0 s = Some c ∧ is_file c)
  ∧ (∃ c, String.get 1 s = Some c ∧ is_rank c)
  ∧ (∃ c, String.get 2 s = Some c ∧ is_file c)
  ∧ (∃ c, String.get 3 s = Some c ∧ is_rank c)
  ∧ (∀ c, String.get 4 s = Some c → is_promotion c).

(** Status waiting or ongoing. *)
Definition non_terminal (st : Status) : Prop :=
  st = StatusWaiting ∨ st = StatusOngoing.

(** A move is legal in a position string when the library parses the
    position and plays the move on it. *)
Definition legal {CG} `{!chess.Engine CG} (fen uci : string) : Prop :=
  ∃ f cg, chess.FEN fen = Some f
          ∧ chess.MoveStr (chess.NewGame (Some f)) uci = Some cg.

Definition wellformed_position {CG} `{!chess.Engine CG} (fen : string)
  : Prop :=
  is_Some (chess.FEN fen).

(** A game is eligible for a client when it is waiting or ongoing and the
    client has no assignment to it: in the in-memory store ... *)
Definition eligible_memory {CG} (h : Heap CG) (s : memory.Store)
           (clientID : UUID) (G : Game CG) : Prop :=
  (∃ k p, memory.games s !! k = Some p ∧ h !! p = Some G)
  ∧ non_terminal (Status_ G)
  ∧ memory.member (memory.assigned s) (ID G) clientID = false.

(** ... and in the transactional store. *)
Definition eligible_postgres (db : postgres.DB) (clientID : UUID)
           (id : UUID) (r : postgres.GameRow) : Prop :=
  postgres.games db !! id = Some r
  ∧ non_terminal (postgres.status r)
  ∧ postgres.game_players db !! (id, clientID) = None.

(** The in-memory store is well formed when every game is stored under
    its own identifier and its pointer is valid. *)
Definition wf_memory {CG} (h : Heap CG) (s : memory.Store) : Prop :=
  ∀ k p, memory.games s !! k = Some p → ∃ G, h !! p = Some G ∧ ID G = k.

(** An enumeration of the keys of a map, as [range] or a table scan
    produces one. *)
Definition enumerates {V} (order : list UUID) (m : gmap UUID V) : Prop :=
  ∀ k, is_Some (m !! k) → k ∈ order.

(** One step of a replay: parse the position, play the move, print the
    resulting position. *)
Definition replay_step {CG} `{!chess.Engine CG} (fen uci : string)
  : option string :=
  match chess.FEN fen with
  | None => None
  | Some f =>
      match chess.MoveStr (chess.NewGame (Some f)) uci with
      | None => None
      | Some cg => Some (chess.PositionString (chess.GamePosition cg))
      end
  end.

(** The replay of a list of moves from a position. *)
Fixpoint replay {CG} `{!chess.Engine CG} (fen : string)
         (ucis : list string) : option string :=
  match ucis with
  | [] => Some fen
  | u :: rest =>
      match replay_step fen u with
      | None => None
      | Some fen' => replay fen' rest
      end
  end.

(** Each item's position-before is the previous item's position-after,
    the first one's is [fen0]. *)
Fixpoint chained (fen0 : string) (hist : list MoveHistoryItem) : Prop :=
  match hist with
  | [] => True
  | it :: rest => FENBefore it = fen0 ∧ chained (FENAfter it) rest
  end.

(** The last item's position-after, [fen0] for an empty history. *)
Definition last_position (fen0 : string) (hist : list MoveHistoryItem)
  : string :=
  match last hist with
  | Some it => FENAfter it
  | None => fen0
  end.

(** The history leads from [fen0] to [fenN]: chained, and every item's
    position-after is the replay step of its move on its
    position-before. *)
Fixpoint replays {CG} `{!chess.Engine CG} (fen0 : string)
         (hist : list MoveHistoryItem) (fenN : string) : Prop :=
  match hist with
  | [] => fenN = fen0
  | it :: rest =>
      FENBefore it = fen0
      ∧ replay_step fen0 (UCI it) = Some (FENAfter it)
      ∧ replays (FENAfter it) rest fenN
  end.

(** The state of game [gid] after [n] accepted moves, in a well-formed
    store: counters (as 64-bit integers), history and position. *)
Definition tracks {CG} `{!chess.Engine CG} (fen0 : string) (ply0 : Z)
           (gid : UUID) (n : nat) (h : Heap CG) (s : memory.Store) : Prop :=
  wf_memory h s
  ∧ ∃ p G,
      memory.games s !! gid = Some p ∧ h !! p = Some G
      ∧ StateVersion G = GoInt.wrap (Z.of_nat n)
      ∧ PlyCount G = GoInt.wrap (ply0 + Z.of_nat n)
      ∧ List.length (memory.history_of s gid) = n
      ∧ (∀ i it, memory.history_of s gid !! i = Some it →
                 Ply it = GoInt.wrap (ply0 + Z.of_nat i))
      ∧ replays fen0 (memory.history_of s gid) (FEN G).

(** The rows of [moves] of one game, in insertion order. *)
Definition moves_of (db : postgres.DB) (gid : UUID) : list postgres.MoveRow :=
  filter (fun r => postgres.m_game_id r = gid) (postgres.moves db).

(** The state of game [gid] after [n] accepted moves in the transactional
    store. *)
Definition tracks_postgres {CG} `{!chess.Engine CG} (fen0 : string) (ply0 : Z)
           (gid : UUID) (n : nat) (db : postgres.DB) : Prop :=
  ∃ row,
    postgres.games db !! gid = Some row
    ∧ postgres.state_version row = GoInt.wrap (Z.of_nat n)
    ∧ postgres.ply_count row = GoInt.wrap (ply0 + Z.of_nat n)
    ∧ List.length (moves_of db gid) = n
    ∧ (∀ i m, moves_of db gid !! i = Some m →
              postgres.m_ply m = GoInt.wrap (ply0 + Z.of_nat i))
    ∧ replays fen0 (postgres.to_item <$> moves_of db gid) (postgres.fen row).

(** A board square: a file followed by a rank. *)
Definition is_square (s : string) : Prop :=
  ∃ f r, s = String f (String r EmptyString) ∧ is_file f ∧ is_rank r.

(** The store holds a game that is waiting or ongoing: in the in-memory
    store ... *)
Definition active_memory {CG} (h : Heap CG) (s : memory.Store) : Prop :=
  ∃ k p G, memory.games s !! k = Some p ∧ h !! p = Some G
           ∧ non_terminal (Status_ G).

(** ... and in the transactional store. *)
Definition active_postgres (db : postgres.DB) : Prop :=
  ∃ id r, postgres.games db !! id = Some r
          ∧ non_terminal (postgres.status r).

(** A request is playable on a game with the given status, position and
    version when it names that version and its move is well formed and
    legal in the position of a game that is waiting or ongoing. *)
Definition playable {CG} `{!chess.Engine CG} (st : Status) (fen : string)
           (version : Z) (req : usecase.SubmitMoveRequest) : Prop :=
  version = usecase.ExpectedVersion req
  ∧ non_terminal st
  ∧ wellformed_uci (usecase.req_UCI req)
  ∧ legal fen (usecase.req_UCI req).

(** A game object new under identifier [k], with status [st], created
    at time [t]: no result, no move yet, version 0. *)
Definition new_game {CG} (G : Game CG) (k : UUID) (st : Status) (t : Time)
  : Prop :=
  ID G = k ∧ Status_ G = st ∧ Result_ G = None ∧ LastMoveUCI G = None
  ∧ LastMoveAt G = None ∧ StateVersion G = 0 ∧ CreatedAt G = t
  ∧ UpdatedAt G = t.

(** The in-memory store holds such a game under [k]. *)
Definition holds_new {CG} (h : Heap CG) (s : memory.Store) (k : UUID)
           (st : Status) (t : Time) : Prop :=
  ∃ p G, memory.games s !! k = Some p ∧ h !! p = Some G
         ∧ new_game G k st t.

(** The row that [CreateWaitingBatch] inserts at time [t], of which the
    columns keep the microsecond. *)
Definition waiting_row (t : Time) : postgres.GameRow :=
  postgres.mkGameRow StatusWaiting None postgres.initialFEN "white" 0 None
    None 0 (postgres.timestamptz t) (postgres.timestamptz t).

(** [range] over a map, or the scan of a table, meets every key once
    and nothing else. *)
Definition ranges {V} (order : list UUID) (m : gmap UUID V) : Prop :=
  NoDup order ∧ ∀ k, k ∈ order ↔ is_Some (m !! k).

End spec.

(** ** The service

    The requests that change state, as the HTTP handlers pass them to the
    use cases ([handleGetNext], [handleSubmitMove]), over either store. *)

Module service.
Import game.

Inductive Request (E : Type) : Type :=
| GetNextReq (ip token : string) (clientID : UUID) (e1 e2 e3 : E)
| SubmitMoveReq (ip token : string) (gameID clientID : UUID)
                (req : usecase.SubmitMoveRequest) (now : Time)
                (recID : UUID).

Arguments GetNextReq {E} ip token clientID e1 e2 e3.
Arguments SubmitMoveReq {E} ip token gameID clientID req now recID.

Inductive Response : Type :=
| NextGameResp (r : outcome usecase.NextGameResult)
| SubmitMoveResp (r : outcome usecase.SubmitMoveResult).

(** [GetByID] and [PersistMove] take nothing from their environment, in
    either store. *)
Definition no_env : memory.Env := memory.mkEnv [] (fun _ => 0%N) 0.
Definition no_env_pg : postgres.Env :=
  postgres.mkEnv [] ∅ 0 (fun _ => 0%N) 0.

(** A request is an accepted move for game [gid] when it is a move
    submission for [gid] that succeeded. *)
Definition accepted {E} (gid : UUID) (r : Request E) (resp : Response)
  : bool :=
  match r, resp with
  | SubmitMoveReq _ _ gameID _ _ _ _, SubmitMoveResp (Ok _) =>
      bool_decide (gameID = gid)
  | _, _ => false
  end.

Section Service.
Context {CG S E : Type} {eng : chess.Engine CG}.
Context (store : ports.GameStore CG S E) (rl : ports.RateLimiter).
Context (batchSize : Z) (e0 : E).

Definition serve (h : Heap CG) (s : S) (r : Request E)
  : Heap CG * S * Response :=
  match r with
  | GetNextReq ip token clientID e1 e2 e3 =>
      let '(h', s', res) :=
        usecase.GetNext store rl batchSize e1 e2 e3 h s ip token clientID in
      (h', s', NextGameResp res)
  | SubmitMoveReq ip token gameID clientID req now recID =>
      let '(h', s', res) :=
        usecase.SubmitMove store rl e0 e0 now recID h s ip token gameID
          clientID req in
      (h', s', SubmitMoveResp res)
  end.

(** Serve the requests in order; count the accepted moves for [gid]. *)
Fixpoint run (gid : UUID) (reqs : list (Request E)) (h : Heap CG) (s : S)
  : Heap CG * S * nat :=
  match reqs with
  | [] => (h, s, O)
  | r :: rest =>
      let '(h1, s1, resp) := serve h s r in
      let '(h2, s2, n) := run gid rest h1 s1 in
      (h2, s2, ((if accepted gid r resp then 1 else 0) + n)%nat)
  end.

End Service.

(** [uuid.New()] does not return the identifier of an existing game: the
    batch that a request creates in the in-memory store does not reuse
    [gid].  (The transactional store ignores a new row whose identifier is
    taken.) *)
Definition no_collision (gid : UUID) (r : Request memory.Env) : Prop :=
  match r with
  | GetNextReq _ _ _ _ e2 _ => ∀ i, memory.new_uuid e2 i ≠ gid
  | SubmitMoveReq _ _ _ _ _ _ _ => True
  end.

End service.

(** ** Closed examples *)

Module examples.
Import game.

(** Two ongoing games, game 1 created at time 10 and game 2 at time 20,
    and nobody assigned yet. *)
Definition heap2 : Heap toy.CG :=
  [toy.fresh 1 StatusOngoing 10; toy.fresh 2 StatusOngoing 20].

Definition store2 : memory.Store :=
  memory.mkStore (<[1%N := 0%nat]> (<[2%N := 1%nat]> ∅)) ∅ ∅ ∅.

(** The map yields game 2 before game 1. *)
Definition newer_first : memory.Env :=
  memory.mkEnv [2%N; 1%N] (fun _ => 0%N) 0.

(** The same two games as rows of the transactional store, scanned in
    the same order, with no row locked. *)
Definition row (st : string) (t : Time) : postgres.GameRow :=
  postgres.mkGameRow st None "start" "white" 0 None None 0 t t.

Definition db2 : postgres.DB :=
  postgres.mkDB (<[1%N := row StatusOngoing 10]>
                   (<[2%N := row StatusOngoing 20]> ∅)) ∅ [].

Definition scan_newer_first : postgres.Env :=
  postgres.mkEnv [2%N; 1%N] ∅ 0 (fun _ => 0%N) 0.

Definition client : UUID := 7%N.

(** One ongoing game, identifier 1, with [client] assigned to it. *)
Definition heap1 : Heap toy.CG := [toy.fresh 1 StatusOngoing 10].

Definition store1 : memory.Store :=
  memory.mkStore (<[1%N := 0%nat]> ∅) (<[1%N := {[client]}]> ∅) ∅ ∅.

Definition db1 : postgres.DB :=
  postgres.mkDB (<[1%N := row StatusOngoing 10]> ∅)
    (<[(1%N, client) := postgres.mkPlayerRow false 10]> ∅) [].

(** The successor of that game after ["e2e4"], as [ApplyMove] builds it
    at time 100, and the move record with identifier 55. *)
Definition after_e2e4 : Game toy.CG :=
  mkGame 1 StatusOngoing None "start e2e4" "black" 1 (Some "e2e4"%string)
         (Some 100) 1 10 100 (Some ("start e2e4"%string, 1%nat, false)).

Definition rec_e2e4 : MoveRecord :=
  mkMoveRecord 55 "e2e4" "start" "start e2e4" 100.

(** A second client, assigned to game 1 as well. *)
Definition client2 : UUID := 8%N.

Definition store1_two : memory.Store :=
  memory.mkStore (<[1%N := 0%nat]> ∅) (<[1%N := {[client; client2]}]> ∅) ∅ ∅.

Definition db1_two : postgres.DB :=
  postgres.mkDB (<[1%N := row StatusOngoing 10]> ∅)
    (<[(1%N, client) := postgres.mkPlayerRow false 10]>
       (<[(1%N, client2) := postgres.mkPlayerRow false 10]> ∅)) [].

Definition rec_e2e4' : MoveRecord :=
  mkMoveRecord 56 "e2e4" "start" "start e2e4" 101.

(** Environments: the in-memory one iterates over games 100, 101, 102
    and 1 and draws the identifiers 100, 101, ... for new games. *)
Definition env : memory.Env :=
  memory.mkEnv [100%N; 101%N; 102%N; 1%N] (fun i => (100 + N.of_nat i)%N) 50.

Definition env12 : memory.Env :=
  memory.mkEnv [1%N; 2%N] (fun i => (100 + N.of_nat i)%N) 50.

Definition scan12 : postgres.Env :=
  postgres.mkEnv [1%N; 2%N] ∅ 60 (fun i => (100 + N.of_nat i)%N) 50.

(** A session: [client] asks for a game, plays ["e2e4"] in game 1 and
    tries ["e7e5"] in it as well. *)
Definition session : list (service.Request memory.Env) :=
  [service.GetNextReq "ip" "tok" client env12 env env12;
   service.SubmitMoveReq "ip" "tok" 1 client
     (usecase.mkSubmitMoveRequest "e2e4" 0 None) 100 55;
   service.SubmitMoveReq "ip" "tok" 1 client
     (usecase.mkSubmitMoveRequest "e7e5" 1 None) 101 56].

Definition store_fresh : memory.Store :=
  memory.mkStore (<[1%N := 0%nat]> ∅) ∅ ∅ ∅.

(** The same session against the transactional store, with game 1 waiting
    in an otherwise empty database. *)
Definition db_fresh : postgres.DB :=
  postgres.mkDB (<[1%N := row StatusWaiting 10]> ∅) ∅ [].

Definition session_pg : list (service.Request postgres.Env) :=
  [service.GetNextReq "ip" "tok" client scan12 scan12 scan12;
   service.SubmitMoveReq "ip" "tok" 1 client
     (usecase.mkSubmitMoveRequest "e2e4" 0 None) 100 55;
   service.SubmitMoveReq "ip" "tok" 1 client
     (usecase.mkSubmitMoveRequest "e7e5" 1 None) 101 56].

(** A reading of the identifiers in requests: ["1"] names game 1 and
    ["7"] the client 7; nothing else parses. *)
Definition parse (raw : string) : option UUID :=
  if String.eqb raw "1" then Some 1%N
  else if String.eqb raw "7" then Some client
  else None.

Definition show (id : UUID) : string :=
  if N.eqb id 1 then "1" else if N.eqb id 7 then "7" else "?".

(** A request on game 1 that moves from e2 to e4, with the given
    [X-Client-Id]. *)
Definition request (client_id : string) : transporthttp.Request :=
  transporthttp.mkRequest "ip" "tok" client_id "1"
    (Some (transporthttp.mkSubmitBody "" "e2" "e4" None 0 None)) None.

End examples.

(** * Properties *)

(** ** Go integers *)

Lemma wrap_in_range (z : Z) : GoInt.in_range z -> GoInt.wrap z = z.
Proof.
  unfold GoInt.in_range, GoInt.wrap, GoInt.min_int, GoInt.max_int.
  intros H. rewrite Z.mod_small; lia.
Qed.

Lemma add_one_exact (z : Z) :
  GoInt.in_range z -> z ≠ GoInt.max_int -> GoInt.add z 1 = z + 1.
Proof.
  intros H Hne. unfold GoInt.add. apply wrap_in_range.
  unfold GoInt.in_range, GoInt.min_int, GoInt.max_int in *. lia.
Qed.

Lemma sub_one_exact (z : Z) :
  GoInt.in_range z -> z ≠ GoInt.min_int -> GoInt.sub z 1 = z - 1.
Proof.
  intros H Hne. unfold GoInt.sub. apply wrap_in_range.
  unfold GoInt.in_range, GoInt.min_int, GoInt.max_int in *. lia.
Qed.

Lemma sub_one_ne (z : Z) : GoInt.sub z 1 ≠ z.
Proof.
  unfold GoInt.sub, GoInt.wrap. intros H.
  assert ((z - 1 + 2 ^ 63) mod 2 ^ 64 = z + 2 ^ 63) as H' by lia.
  pose proof (Z.mod_pos_bound (z - 1 + 2 ^ 63) (2 ^ 64) ltac:(lia)) as Hb.
  destruct (decide (z + 2 ^ 63 = 0)) as [H0 | H0].
  - replace (z - 1 + 2 ^ 63) with (-1) in H' by lia.
    rewrite H0 in H'. vm_compute in H'. discriminate.
  - rewrite Z.mod_small in H' by lia. lia.
Qed.

(** ** The syntax check *)

Lemma file_range (c : ascii) :
  Ascii.ltb c "a" || Ascii.ltb "h" c = false <-> spec.is_file c.
Proof.
  unfold spec.is_file.
  destruct c as [[] [] [] [] [] [] [] []]; vm_compute; split; intros H;
    try reflexivity; try discriminate; try tauto;
    repeat (destruct H as [H | H]; try discriminate H); try contradiction.
Qed.

Lemma rank_range (c : ascii) :
  Ascii.ltb c "1" || Ascii.ltb "8" c = false <-> spec.is_rank c.
Proof.
  unfold spec.is_rank.
  destruct c as [[] [] [] [] [] [] [] []]; vm_compute; split; intros H;
    try reflexivity; try discriminate; try tauto;
    repeat (destruct H as [H | H]; try discriminate H); try contradiction.
Qed.

Lemma promotion_set (c : ascii) :
  Ascii.eqb c "q" || Ascii.eqb c "r" || Ascii.eqb c "b" || Ascii.eqb c "n" = true
  <-> spec.is_promotion c.
Proof.
  unfold spec.is_promotion.
  destruct c as [[] [] [] [] [] [] [] []]; vm_compute; split; intros H;
    try reflexivity; try discriminate; try tauto;
    repeat (destruct H as [H | H]; try discriminate H); try contradiction.
Qed.

(** [isValidUCISyntax] accepts exactly the well-formed move strings. *)
Lemma isValidUCISyntax_spec (s : string) :
  game.isValidUCISyntax s = true <-> spec.wellformed_uci s.
Proof.
  unfold spec.wellformed_uci.
  destruct s as [|c0 [|c1 [|c2 [|c3 [|c4 [|c5 s]]]]]];
    try (split; [discriminate|];
         intros (Hl & (c & Hc & _) & (c' & Hc' & _) & (c'' & Hc'' & _)
                 & (c''' & Hc''' & _) & _);
         simpl in *; first [discriminate | destruct Hl; discriminate]).
  - (* four bytes *)
    unfold game.isValidUCISyntax; simpl.
    pose proof (file_range c0) as F0. pose proof (rank_range c1) as R1.
    pose proof (file_range c2) as F2. pose proof (rank_range c3) as R3.
    destruct (Ascii.ltb c0 "a" || Ascii.ltb "h" c0);
      [split; [discriminate|]; intros (_ & (c & [= <-] & Hf) & _);
       apply F0 in Hf; discriminate|].
    destruct (Ascii.ltb c1 "1" || Ascii.ltb "8" c1);
      [split; [discriminate|]; intros (_ & _ & (c & [= <-] & Hf) & _);
       apply R1 in Hf; discriminate|].
    destruct (Ascii.ltb c2 "a" || Ascii.ltb "h" c2);
      [split; [discriminate|]; intros (_ & _ & _ & (c & [= <-] & Hf) & _);
       apply F2 in Hf; discriminate|].
    destruct (Ascii.ltb c3 "1" || Ascii.ltb "8" c3);
      [split; [discriminate|];
       intros (_ & _ & _ & _ & (c & [= <-] & Hf) & _);
       apply R3 in Hf; discriminate|].
    split; [intros _|reflexivity].
    split; [by left|].
    split; [exists c0; split; [done|by apply F0]|].
    split; [exists c1; split; [done|by apply R1]|].
    split; [exists c2; split; [done|by apply F2]|].
    split; [exists c3; split; [done|by apply R3]|].
    intros c [=].
  - (* five bytes *)
    unfold game.isValidUCISyntax; simpl.
    pose proof (file_range c0) as F0. pose proof (rank_range c1) as R1.
    pose proof (file_range c2) as F2. pose proof (rank_range c3) as R3.
    pose proof (promotion_set c4) as P4.
    destruct (Ascii.ltb c0 "a" || Ascii.ltb "h" c0);
      [split; [discriminate|]; intros (_ & (c & [= <-] & Hf) & _);
       apply F0 in Hf; discriminate|].
    destruct (Ascii.ltb c1 "1" || Ascii.ltb "8" c1);
      [split; [discriminate|]; intros (_ & _ & (c & [= <-] & Hf) & _);
       apply R1 in Hf; discriminate|].
    destruct (Ascii.ltb c2 "a" || Ascii.ltb "h" c2);
      [split; [discriminate|]; intros (_ & _ & _ & (c & [= <-] & Hf) & _);
       apply F2 in Hf; discriminate|].
    destruct (Ascii.ltb c3 "1" || Ascii.ltb "8" c3);
      [split; [discriminate|];
       intros (_ & _ & _ & _ & (c & [= <-] & Hf) & _);
       apply R3 in Hf; discriminate|].
    destruct (Ascii.eqb c4 "q" || Ascii.eqb c4 "r" || Ascii.eqb c4 "b"
              || Ascii.eqb c4 "n").
    + split; [intros _|reflexivity].
      split; [by right|].
      split; [exists c0; split; [done|by apply F0]|].
      split; [exists c1; split; [done|by apply R1]|].
      split; [exists c2; split; [done|by apply F2]|].
      split; [exists c3; split; [done|by apply R3]|].
      intros c [= <-]. by apply P4.
    + split; [discriminate|].
      intros (_ & _ & _ & _ & _ & Hp).
      specialize (Hp c4 eq_refl). apply P4 in Hp. discriminate.
Qed.

(** ** The rule engine *)

Lemma non_terminal_test (st : game.Status) :
  negb (String.eqb st game.StatusOngoing)
  && negb (String.eqb st game.StatusWaiting) = false
  <-> spec.non_terminal st.
Proof.
  unfold spec.non_terminal.
  destruct (String.eqb_spec st game.StatusOngoing) as [Ho | Ho];
    destruct (String.eqb_spec st game.StatusWaiting) as [Hw | Hw];
    simpl; split; intros H; try done; try tauto.
Qed.

Lemma outcomeToStatus_cases (o : chess.Outcome) (m : chess.Method) :
  (o = chess.WhiteWon -> m = chess.Checkmate ->
   game.outcomeToStatus o m = (game.StatusCheckmate, Some game.ResultWhite))
  ∧ (o = chess.BlackWon -> m = chess.Checkmate ->
     game.outcomeToStatus o m = (game.StatusCheckmate, Some game.ResultBlack))
  ∧ (o = chess.Draw -> m = chess.Stalemate ->
     game.outcomeToStatus o m = (game.StatusStalemate, Some game.ResultDraw))
  ∧ (o = chess.Draw -> m ≠ chess.Stalemate ->
     game.outcomeToStatus o m = (game.StatusDraw, Some game.ResultDraw))
  ∧ (o = chess.NoOutcome ->
     game.outcomeToStatus o m = (game.StatusOngoing, None)).
Proof.
  repeat split; intros -> ; try intros Hm; simpl; try subst m; try done.
  by destruct (decide (m = chess.Stalemate)).
Qed.

Section RuleEngineFacts.
Context {CG : Type} {eng : chess.Engine CG}.
Import game.

(** The successor object that [ApplyMove] builds from the receiver [G]
    and the library's game [cg] after the move. *)
Lemma ApplyMove_inv (h : Heap CG) (g : ptr) (uci : string) (now : Time)
      (recID : UUID) (h' : Heap CG) (p : ptr) (rec : MoveRecord) :
  ApplyMove h g uci now recID = (h', Ok (p, rec)) ->
  ∃ G f cg,
    h !! g = Some G
    ∧ spec.non_terminal (Status_ G)
    ∧ isValidUCISyntax uci = true
    ∧ chess.FEN (FEN G) = Some f
    ∧ chess.MoveStr (chess.NewGame (Some f)) uci = Some cg
    ∧ p = List.length h
    ∧ h' = h ++ [mkGame (ID G)
                   (fst (outcomeToStatus (chess.GameOutcome cg)
                           (chess.GameMethod cg)))
                   (snd (outcomeToStatus (chess.GameOutcome cg)
                           (chess.GameMethod cg)))
                   (chess.PositionString (chess.GamePosition cg))
                   (colorName (chess.Turn (chess.GamePosition cg)))
                   (GoInt.add (PlyCount G) 1) (Some uci) (Some now)
                   (GoInt.add (StateVersion G) 1) (CreatedAt G) now
                   (Some cg)]
    ∧ rec = mkMoveRecord recID uci (FEN G)
              (chess.PositionString (chess.GamePosition cg)) now.
Proof.
  unfold ApplyMove. destruct (h !! g) as [G|] eqn:HG; [|discriminate].
  destruct (negb (String.eqb (Status_ G) StatusOngoing)
            && negb (String.eqb (Status_ G) StatusWaiting)) eqn:Hst;
    [discriminate|].
  destruct (isValidUCISyntax uci) eqn:Hu; simpl; [|discriminate].
  destruct (chess.FEN (FEN G)) as [f|] eqn:Hf; [|discriminate].
  destruct (chess.MoveStr (chess.NewGame (Some f)) uci) as [cg|] eqn:Hm;
    [|discriminate].
  intros [= <- <- <-]. exists G, f, cg.
  repeat split; try done. by apply non_terminal_test.
Qed.

(** Whatever [ApplyMove] returns, the objects that were on the heap are
    still there, unchanged. *)
Lemma ApplyMove_heap (h : Heap CG) (g : ptr) (uci : string) (now : Time)
      (recID : UUID) :
  ∃ l, fst (ApplyMove h g uci now recID) = h ++ l.
Proof.
  unfold ApplyMove. destruct (h !! g) as [G|]; [|by exists []; rewrite app_nil_r].
  repeat (match goal with
          | |- context [if ?b then _ else _] => destruct b
          | |- context [match ?o with Some _ => _ | None => _ end] =>
              destruct o
          end; simpl);
    try (by exists []; rewrite app_nil_r).
  by eexists.
Qed.

(** A game as [NewGame] creates it: ongoing, without result, at version 0,
    at a fresh address. *)
Lemma NewGame_created (h : Heap CG) (id : UUID) (now : Time) :
  ∃ G, NewGame h id now = (h ++ [G], List.length h)
       ∧ ID G = id ∧ Status_ G = StatusOngoing ∧ Result_ G = None
       ∧ StateVersion G = 0 ∧ 0 <= PlyCount G
       ∧ CreatedAt G = now.
Proof.
  unfold NewGame, fromChessGame, alloc. eexists. split; [done|].
  simpl. repeat split; try done. lia.
Qed.

(** C6. [ApplyMove] rejects with [ErrGameNotOngoing] exactly when the
    status is neither waiting nor ongoing; otherwise with [ErrInvalidUCI]
    exactly when the move string is not well-formed coordinate notation;
    otherwise, for a position string the library parses, with
    [ErrIllegalMove] exactly when the move is not legal in the stored
    position. *)
Theorem ApplyMove_rejections (h : Heap CG) (g : ptr) (G : Game CG)
        (uci : string) (now : Time) (recID : UUID) :
  h !! g = Some G ->
  (snd (ApplyMove h g uci now recID) = Fail ErrGameNotOngoing
   <-> ¬ spec.non_terminal (Status_ G))
  ∧ (spec.non_terminal (Status_ G) ->
     (snd (ApplyMove h g uci now recID) = Fail ErrInvalidUCI
      <-> ¬ spec.wellformed_uci uci))
  ∧ (spec.non_terminal (Status_ G) -> spec.wellformed_uci uci ->
     spec.wellformed_position (FEN G) ->
     (snd (ApplyMove h g uci now recID) = Fail ErrIllegalMove
      <-> ¬ spec.legal (FEN G) uci)).
Proof.
  intros HG. unfold ApplyMove. rewrite HG.
  pose proof (non_terminal_test (Status_ G)) as Hnt.
  pose proof (isValidUCISyntax_spec uci) as Hwf.
  destruct (negb (String.eqb (Status_ G) StatusOngoing)
            && negb (String.eqb (Status_ G) StatusWaiting)) eqn:Hst.
  - assert (¬ spec.non_terminal (Status_ G)) as Hno
        by (intros Hn; apply Hnt in Hn; discriminate).
    repeat split; try done; intros; contradiction.
  - assert (spec.non_terminal (Status_ G)) as Hyes by (by apply Hnt).
    destruct (isValidUCISyntax uci) eqn:Hu; simpl.
    + assert (spec.wellformed_uci uci) as Hw by (by apply Hwf).
      split; [|split].
      * split; [|contradiction].
        destruct (chess.FEN (FEN G)); [|discriminate].
        destruct (chess.MoveStr _ uci); discriminate.
      * intros _. split; [|contradiction].
        destruct (chess.FEN (FEN G)); [|discriminate].
        destruct (chess.MoveStr _ uci); discriminate.
      * intros _ _ [f Hf]. rewrite Hf.
        destruct (chess.MoveStr (chess.NewGame (Some f)) uci) as [cg|] eqn:Hm;
          simpl.
        -- split; [discriminate|]. intros Hl. exfalso. apply Hl.
           by exists f, cg.
        -- split; [|done]. intros _ (f' & cg' & Hf' & Hm').
           rewrite Hf in Hf'. injection Hf' as <-. congruence.
    + assert (¬ spec.wellformed_uci uci) as Hw
          by (intros Hw; apply Hwf in Hw; discriminate).
      split; [|split].
      * split; [discriminate|contradiction].
      * done.
      * intros; contradiction.
Qed.

(** C7. An accepted move yields a new object at a fresh address: the
    position of the library's game after the move; as side to move
    ["white"] when it is White's turn in that position and ["black"]
    when it is not; [PlyCount] and [StateVersion] one more than the
    receiver's (for counters below the largest [int]); status and result
    from the outcome of the resulting game (checkmate with the winner,
    stalemate, any other draw, otherwise ongoing with no result); every
    object already on the heap, the receiver among them, is as it was. *)
Theorem ApplyMove_successor (h h' : Heap CG) (g p : ptr) (G : Game CG)
        (uci : string) (now : Time) (recID : UUID) (rec : MoveRecord) :
  h !! g = Some G ->
  GoInt.in_range (PlyCount G) -> PlyCount G ≠ GoInt.max_int ->
  GoInt.in_range (StateVersion G) -> StateVersion G ≠ GoInt.max_int ->
  ApplyMove h g uci now recID = (h', Ok (p, rec)) ->
  ∃ f cg NG,
    chess.FEN (FEN G) = Some f
    ∧ chess.MoveStr (chess.NewGame (Some f)) uci = Some cg
    ∧ h !! p = None ∧ h' !! p = Some NG ∧ p ≠ g
    ∧ ID NG = ID G
    ∧ FEN NG = chess.PositionString (chess.GamePosition cg)
    ∧ (chess.Turn (chess.GamePosition cg) = chess.White ->
       SideToMove NG = "white"%string)
    ∧ (chess.Turn (chess.GamePosition cg) ≠ chess.White ->
       SideToMove NG = "black"%string)
    ∧ PlyCount NG = PlyCount G + 1
    ∧ StateVersion NG = StateVersion G + 1
    ∧ (chess.GameMethod cg = chess.Checkmate ->
       (chess.GameOutcome cg = chess.WhiteWon ->
        Status_ NG = StatusCheckmate ∧ Result_ NG = Some ResultWhite)
       ∧ (chess.GameOutcome cg = chess.BlackWon ->
          Status_ NG = StatusCheckmate ∧ Result_ NG = Some ResultBlack))
    ∧ (chess.GameOutcome cg = chess.Draw ->
       (chess.GameMethod cg = chess.Stalemate ->
        Status_ NG = StatusStalemate ∧ Result_ NG = Some ResultDraw)
       ∧ (chess.GameMethod cg ≠ chess.Stalemate ->
          Status_ NG = StatusDraw ∧ Result_ NG = Some ResultDraw))
    ∧ (chess.GameOutcome cg = chess.NoOutcome ->
       Status_ NG = StatusOngoing ∧ Result_ NG = None)
    ∧ h' !! g = Some G
    ∧ (∀ q X, h !! q = Some X -> h' !! q = Some X).
Proof.
  intros HG Hp1 Hp2 Hv1 Hv2 Happ.
  apply ApplyMove_inv in Happ
    as (G' & f & cg & HG' & Hnt & Hu & Hf & Hm & -> & -> & ->).
  rewrite HG in HG'. injection HG' as <-.
  pose proof (outcomeToStatus_cases (chess.GameOutcome cg)
                (chess.GameMethod cg)) as (Hw & Hb & Hs & Hd & Hn).
  eexists f, cg, _.
  split; [done|]. split; [done|].
  split; [by apply lookup_ge_None_2|].
  split; [by apply list_lookup_middle|].
  split; [apply lookup_lt_Some in HG; lia|].
  split; [done|]. split; [done|].
  split; [intros Ht; simpl; unfold colorName; by rewrite decide_True|].
  split; [intros Ht; simpl; unfold colorName; by rewrite decide_False|].
  split; [by apply add_one_exact|]. split; [by apply add_one_exact|].
  split; [intros Hmeth; split; intros Ho; simpl;
          [rewrite Hw by done | rewrite Hb by done]; done|].
  split; [intros Ho; split; intros Hmeth; simpl;
          [rewrite Hs by done | rewrite Hd by done]; done|].
  split; [intros Ho; simpl; rewrite Hn by done; done|].
  split; [by apply lookup_app_l_Some|].
  intros q X Hq. by apply lookup_app_l_Some.
Qed.

End RuleEngineFacts.

(** ** The in-memory store *)

Section MemoryFacts.
Context {CG : Type} {eng : chess.Engine CG}.
Import game.

Lemma member_add_member (m : gmap UUID (gset UUID)) (k c : UUID) :
  memory.member (memory.add_member m k c) k c = true.
Proof.
  unfold memory.member, memory.add_member. rewrite lookup_insert_eq.
  apply bool_decide_eq_true. set_solver.
Qed.

Lemma memory_PersistMove_NotAssigned (h : Heap CG) (s : memory.Store)
      (gameID clientID : UUID) (newGame : ptr) (rec : MoveRecord) (ply : Z) :
  memory.member (memory.assigned s) gameID clientID = false ->
  memory.PersistMove h s gameID clientID newGame rec ply
  = (h, s, Fail ErrNotAssigned).
Proof.
  unfold memory.PersistMove, memory.member.
  destruct (memory.assigned s !! gameID) as [aset|]; [|done].
  by intros ->.
Qed.

Lemma memory_PersistMove_AlreadyMoved (h : Heap CG) (s : memory.Store)
      (gameID clientID : UUID) (newGame : ptr) (rec : MoveRecord) (ply : Z) :
  memory.member (memory.assigned s) gameID clientID = true ->
  memory.member (memory.moved s) gameID clientID = true ->
  memory.PersistMove h s gameID clientID newGame rec ply
  = (h, s, Fail ErrAlreadyMoved).
Proof.
  unfold memory.PersistMove, memory.member at 1.
  destruct (memory.assigned s !! gameID) as [aset|]; [|done].
  by intros -> ->.
Qed.

(** Past the assignment checks the compare-and-swap decides. *)
Lemma memory_PersistMove_conflict (h : Heap CG) (s : memory.Store)
      (gameID clientID : UUID) (newGame cur : ptr) (C NG : Game CG)
      (rec : MoveRecord) (ply : Z) :
  memory.member (memory.assigned s) gameID clientID = true ->
  memory.member (memory.moved s) gameID clientID = false ->
  memory.games s !! gameID = Some cur ->
  h !! cur = Some C -> h !! newGame = Some NG ->
  StateVersion C ≠ GoInt.sub (StateVersion NG) 1 ->
  memory.PersistMove h s gameID clientID newGame rec ply
  = (h, s, Fail ErrVersionConflict).
Proof.
  unfold memory.PersistMove, memory.member at 1.
  destruct (memory.assigned s !! gameID) as [aset|]; [|done].
  intros -> -> -> -> -> Hne. simpl.
  by destruct (decide (StateVersion C ≠ GoInt.sub (StateVersion NG) 1)).
Qed.

(** A returned error leaves heap and store as they were. *)
Lemma memory_PersistMove_fail (h h' : Heap CG) (s s' : memory.Store)
      (gameID clientID : UUID) (newGame : ptr) (rec : MoveRecord) (ply : Z)
      (e : Err) :
  memory.PersistMove h s gameID clientID newGame rec ply = (h', s', Fail e) ->
  h' = h ∧ s' = s
  ∧ (e = ErrNotAssigned ∨ e = ErrAlreadyMoved ∨ e = ErrNotFound
     ∨ e = ErrVersionConflict).
Proof.
  unfold memory.PersistMove. intros Hp.
  repeat case_match; simplify_eq; tauto.
Qed.

(** A successful call did all of it. *)
Lemma memory_PersistMove_ok (h h' : Heap CG) (s s' : memory.Store)
      (gameID clientID : UUID) (newGame : ptr) (rec : MoveRecord) (ply : Z)
      (hist : list MoveHistoryItem) :
  memory.PersistMove h s gameID clientID newGame rec ply = (h', s', Ok hist) ->
  ∃ cur C NG fromSq toSq promotion,
    h' = h
    ∧ memory.member (memory.assigned s) gameID clientID = true
    ∧ memory.member (memory.moved s) gameID clientID = false
    ∧ memory.games s !! gameID = Some cur
    ∧ h !! cur = Some C ∧ h !! newGame = Some NG
    ∧ StateVersion C = GoInt.sub (StateVersion NG) 1
    ∧ GoString.split_uci (rec_UCI rec) = Some (fromSq, toSq, promotion)
    ∧ hist = memory.history_of s gameID
             ++ [mkMoveHistoryItem ply (rec_UCI rec) fromSq toSq promotion
                   clientID (rec_FENBefore rec) (rec_FENAfter rec)
                   (rec_CreatedAt rec)]
    ∧ s' = memory.mkStore
             (<[gameID := newGame]> (memory.games s))
             (memory.assigned s)
             (memory.add_member (memory.moved s) gameID clientID)
             (<[gameID := hist]> (memory.history s)).
Proof.
  unfold memory.PersistMove. intros Hp.
  destruct (memory.assigned s !! gameID) as [aset|] eqn:Ha; [|done].
  destruct (bool_decide (clientID ∈ aset)) eqn:Hin; simpl in Hp; [|done].
  destruct (memory.member (memory.moved s) gameID clientID) eqn:Hmv; [done|].
  destruct (memory.games s !! gameID) as [cur|] eqn:Hg; [|done].
  destruct (h !! cur) as [C|] eqn:HC; [|done].
  destruct (h !! newGame) as [NG|] eqn:HNG; [|done].

  destruct (decide (StateVersion C ≠ GoInt.sub (StateVersion NG) 1))
    as [Hne | Heq]; [done|].
  destruct (GoString.split_uci (rec_UCI rec)) as [[[fromSq toSq] promotion]|]
    eqn:Hsp; [|done].
  injection Hp as <- <- <-.
  exists cur, C, NG, fromSq, toSq, promotion.
  repeat split; try done.
  - unfold memory.member. by rewrite Ha.
  - by destruct (decide (StateVersion C = GoInt.sub (StateVersion NG) 1)).
  - unfold memory.history_of. simpl. by rewrite lookup_insert_eq.
  - unfold memory.history_of, memory.set_history, memory.set_moved,
      memory.set_games. simpl. by rewrite lookup_insert_eq.
Qed.

(** The store changes only past the compare-and-swap. *)
Lemma memory_PersistMove_changed (h h' : Heap CG) (s s' : memory.Store)
      (gameID clientID : UUID) (newGame : ptr) (rec : MoveRecord) (ply : Z)
      (r : outcome (list MoveHistoryItem)) :
  memory.PersistMove h s gameID clientID newGame rec ply = (h', s', r) ->
  s' ≠ s ->
  ∃ cur C NG,
    memory.games s !! gameID = Some cur ∧ h !! cur = Some C
    ∧ h !! newGame = Some NG
    ∧ StateVersion C = GoInt.sub (StateVersion NG) 1.
Proof.
  unfold memory.PersistMove. intros Hp Hne.
  destruct (memory.assigned s !! gameID) as [aset|]; [|by simplify_eq].
  destruct (negb (bool_decide (clientID ∈ aset)));
    simpl in Hp; [by simplify_eq|].
  destruct (memory.member (memory.moved s) gameID clientID);
    simpl in Hp; [by simplify_eq|].
  destruct (memory.games s !! gameID) as [cur|] eqn:Hg; [|by simplify_eq].
  destruct (h !! cur) as [C|] eqn:HC; [|by simplify_eq].
  destruct (h !! newGame) as [NG|] eqn:HNG; [|by simplify_eq].
  destruct (decide (StateVersion C ≠ GoInt.sub (StateVersion NG) 1))
    as [Hv | Hv]; simpl in Hp; [by simplify_eq|].
  exists cur, C, NG. split; [done|]. split; [done|]. split; [done|].
  destruct (decide (StateVersion C = GoInt.sub (StateVersion NG) 1))
    as [Heq | Hn]; [done|by destruct Hv].
Qed.

End MemoryFacts.

(** ** The transactional store *)

Section PostgresFacts.
Context {CG : Type}.
Import game.

Lemma postgres_PersistMove_NotAssigned (h : Heap CG) (db : postgres.DB)
      (gameID clientID : UUID) (newGame : ptr) (rec : MoveRecord) (ply : Z) :
  postgres.game_players db !! (gameID, clientID) = None ->
  postgres.PersistMove h db gameID clientID newGame rec ply
  = (h, db, Fail ErrNotAssigned).
Proof. unfold postgres.PersistMove. by intros ->. Qed.

Lemma postgres_PersistMove_AlreadyMoved (h : Heap CG) (db : postgres.DB)
      (gameID clientID : UUID) (newGame : ptr) (rec : MoveRecord) (ply : Z)
      (p : postgres.PlayerRow) :
  postgres.game_players db !! (gameID, clientID) = Some p ->
  postgres.has_moved p = true ->
  postgres.PersistMove h db gameID clientID newGame rec ply
  = (h, db, Fail ErrAlreadyMoved).
Proof. unfold postgres.PersistMove. by intros -> ->. Qed.

(** Without a commit the transaction leaves no trace. *)
Lemma postgres_PersistMove_rollback (h h' : Heap CG) (db db' : postgres.DB)
      (gameID clientID : UUID) (newGame : ptr) (rec : MoveRecord) (ply : Z)
      (r : outcome (list MoveHistoryItem)) :
  postgres.PersistMove h db gameID clientID newGame rec ply = (h', db', r) ->
  h' = h ∧ ((∀ hist, r ≠ Ok hist) -> db' = db).
Proof.
  unfold postgres.PersistMove. intros Hp.
  repeat case_match; simplify_eq; split; try done.
  intros Hno. exfalso. by eapply Hno.
Qed.

Lemma postgres_PersistMove_ok (h h' : Heap CG) (db db' : postgres.DB)
      (gameID clientID : UUID) (newGame : ptr) (rec : MoveRecord) (ply : Z)
      (hist : list MoveHistoryItem) :
  postgres.PersistMove h db gameID clientID newGame rec ply
  = (h', db', Ok hist) ->
  ∃ p r NG fromSq toSq promotion,
    h' = h
    ∧ postgres.game_players db !! (gameID, clientID) = Some p
    ∧ postgres.has_moved p = false
    ∧ postgres.games db !! gameID = Some r
    ∧ h !! newGame = Some NG
    ∧ postgres.state_version r = GoInt.sub (StateVersion NG) 1
    ∧ GoString.split_uci (rec_UCI rec) = Some (fromSq, toSq, promotion)
    ∧ (rec_ID rec ∉ (postgres.m_id <$> postgres.moves db))
    ∧ db' = postgres.mkDB
              (<[gameID :=
                   postgres.mkGameRow (Status_ NG) (Result_ NG) (FEN NG)
                     (SideToMove NG) (PlyCount NG) (LastMoveUCI NG)
                     (postgres.timestamptz <$> LastMoveAt NG)
                     (StateVersion NG) (postgres.created_at r)
                     (postgres.timestamptz (UpdatedAt NG))]>
                 (postgres.games db))
              (<[(gameID, clientID) :=
                   postgres.mkPlayerRow true (postgres.gp_created_at p)]>
                 (postgres.game_players db))
              (postgres.moves db
               ++ [postgres.mkMoveRow (rec_ID rec) gameID ply (rec_UCI rec)
                     fromSq toSq promotion clientID (rec_FENBefore rec)
                     (rec_FENAfter rec)
                     (postgres.timestamptz (rec_CreatedAt rec))])
    ∧ hist = postgres.fetchMoveHistory db' gameID.
Proof.
  unfold postgres.PersistMove. intros Hp.
  destruct (postgres.game_players db !! (gameID, clientID)) as [p|] eqn:Hgp;
    [|done].
  destruct (postgres.has_moved p) eqn:Hm; [done|].
  destruct (GoString.split_uci (rec_UCI rec)) as [[[fromSq toSq] promotion]|]
    eqn:Hsp; [|done].
  unfold postgres.exec_InsertMove in Hp. simpl in Hp.
  destruct (bool_decide (rec_ID rec ∈ postgres.m_id <$> postgres.moves db))
    eqn:Hid; [done|].
  destruct (postgres.games db !! gameID) as [r|] eqn:Hg; simpl in Hp; [|done].
  destruct (postgres.fits_int4 ply); simpl in Hp; [|done].
  destruct (h !! newGame) as [NG|] eqn:HNG; [|done].
  unfold postgres.exec_UpdateGame in Hp. simpl in Hp.
  destruct (postgres.fits_int4 (PlyCount NG)
            && postgres.fits_int4 (StateVersion NG)
            && postgres.fits_int4 (GoInt.sub (StateVersion NG) 1));
    simpl in Hp; [|done].
  rewrite Hg in Hp.
  destruct (decide (postgres.state_version r
                    = GoInt.sub (StateVersion NG) 1)) as [Hv|Hv]; [|done].
  unfold postgres.exec_MarkMoved in Hp. simpl in Hp. rewrite Hgp in Hp.
  injection Hp as <- <- <-.
  exists p, r, NG, fromSq, toSq, promotion.
  repeat split; try done.
  by apply bool_decide_eq_false in Hid.
Qed.

(** Past the assignment checks and the insert of the move, the update
    predicate decides. *)
Lemma postgres_PersistMove_conflict (h : Heap CG) (db : postgres.DB)
      (gameID clientID : UUID) (newGame : ptr) (rec : MoveRecord) (ply : Z)
      (p : postgres.PlayerRow) (r : postgres.GameRow) (NG : Game CG) :
  postgres.game_players db !! (gameID, clientID) = Some p ->
  postgres.has_moved p = false ->
  postgres.games db !! gameID = Some r ->
  h !! newGame = Some NG ->
  (4 <= String.length (rec_UCI rec))%nat ->
  rec_ID rec ∉ (postgres.m_id <$> postgres.moves db) ->
  postgres.fits_int4 ply = true ->
  postgres.fits_int4 (PlyCount NG) = true ->
  postgres.fits_int4 (StateVersion NG) = true ->
  postgres.fits_int4 (GoInt.sub (StateVersion NG) 1) = true ->
  postgres.state_version r ≠ GoInt.sub (StateVersion NG) 1 ->
  postgres.PersistMove h db gameID clientID newGame rec ply
  = (h, db, Fail ErrVersionConflict).
Proof.
  intros Hgp Hm Hg HNG Hlen Hid Hf1 Hf2 Hf3 Hf4 Hv.
  unfold postgres.PersistMove. rewrite Hgp, Hm.
  unfold GoString.split_uci.
  destruct (String.length (rec_UCI rec) <? 4)%nat eqn:Hl;
    [apply Nat.ltb_lt in Hl; lia|].
  unfold postgres.exec_InsertMove. simpl.
  rewrite bool_decide_eq_false_2 by done.
  rewrite Hg. simpl. rewrite Hf1. simpl. rewrite HNG.
  unfold postgres.exec_UpdateGame. simpl. rewrite Hf2, Hf3, Hf4. simpl.
  rewrite Hg.
  by destruct (decide (postgres.state_version r
                       = GoInt.sub (StateVersion NG) 1)).
Qed.

End PostgresFacts.

(** ** The move-commit primitive *)

Section MoveCommit.
Context {CG : Type} {eng : chess.Engine CG}.
Import game.

(** C1. [PersistMove] is atomic in both stores.  A call that returns an
    error leaves the store as it was (in the in-memory store the error is
    one of not-assigned, already-moved, not-found, version-conflict); a
    call that succeeds has appended the history item, replaced the game and
    set the client's moved flag, all three.  (A transaction that ends in a
    panic is rolled back as well; the in-memory store gives no promise
    there.) *)
Theorem PersistMove_atomic (h : Heap CG) (s : memory.Store)
        (db : postgres.DB) (gameID clientID : UUID) (newGame : ptr)
        (rec : MoveRecord) (ply : Z) :
  match memory.PersistMove h s gameID clientID newGame rec ply with
  | (h', s', Fail e) =>
      h' = h ∧ s' = s
      ∧ (e = ErrNotAssigned ∨ e = ErrAlreadyMoved ∨ e = ErrNotFound
         ∨ e = ErrVersionConflict)
  | (h', s', Ok hist) =>
      h' = h
      ∧ (∃ item,
           memory.history_of s' gameID = memory.history_of s gameID ++ [item]
           ∧ Ply item = ply ∧ UCI item = rec_UCI rec
           ∧ ClientID item = clientID
           ∧ FENBefore item = rec_FENBefore rec
           ∧ FENAfter item = rec_FENAfter rec)
      ∧ memory.games s' !! gameID = Some newGame
      ∧ memory.member (memory.moved s) gameID clientID = false
      ∧ memory.member (memory.moved s') gameID clientID = true
      ∧ memory.assigned s' = memory.assigned s
      ∧ hist = memory.history_of s' gameID
  | (_, _, Panic) => True
  end
  ∧ match postgres.PersistMove h db gameID clientID newGame rec ply with
    | (h', db', Fail e) => h' = h ∧ db' = db
    | (h', db', Panic) => h' = h ∧ db' = db
    | (h', db', Ok hist) =>
        h' = h
        ∧ (∃ row,
             postgres.moves db' = postgres.moves db ++ [row]
             ∧ postgres.m_game_id row = gameID ∧ postgres.m_ply row = ply
             ∧ postgres.m_uci row = rec_UCI rec
             ∧ postgres.m_client_id row = clientID
             ∧ postgres.m_fen_before row = rec_FENBefore rec
             ∧ postgres.m_fen_after row = rec_FENAfter rec)
        ∧ (∃ NG r,
             h !! newGame = Some NG
             ∧ postgres.games db' !! gameID = Some r
             ∧ postgres.fen r = FEN NG
             ∧ postgres.status r = Status_ NG
             ∧ postgres.state_version r = StateVersion NG)
        ∧ (∃ p p',
             postgres.game_players db !! (gameID, clientID) = Some p
             ∧ postgres.has_moved p = false
             ∧ postgres.game_players db' !! (gameID, clientID) = Some p'
             ∧ postgres.has_moved p' = true)
        ∧ hist = postgres.fetchMoveHistory db' gameID
    end.
Proof.
  split.
  - destruct (memory.PersistMove h s gameID clientID newGame rec ply)
      as [[h' s'] [hist | e |]] eqn:Hp; [| |done].
    + apply memory_PersistMove_ok in Hp
        as (cur & C & NG & fromSq & toSq & promotion & -> & Ha & Hm & Hg
            & HC & HNG & Hv & Hsp & Hh & ->).
      split; [done|]. split.
      { eexists. split.
        - unfold memory.history_of at 1. simpl. rewrite lookup_insert_eq.
          simpl. exact Hh.
        - done. }
      split; [simpl; by rewrite lookup_insert_eq|].
      split; [done|]. split; [simpl; apply member_add_member|].
      split; [done|].
      unfold memory.history_of. simpl. by rewrite lookup_insert_eq.
    + by apply memory_PersistMove_fail in Hp.
  - destruct (postgres.PersistMove h db gameID clientID newGame rec ply)
      as [[h' db'] [hist | e |]] eqn:Hp.
    + apply postgres_PersistMove_ok in Hp
        as (p & r & NG & fromSq & toSq & promotion & -> & Hgp & Hm & Hg
            & HNG & Hv & Hsp & Hid & -> & ->).
      split; [done|]. split; [eexists; split; [done|done]|].
      split.
      { exists NG. eexists. split; [done|]. simpl.
        rewrite lookup_insert_eq. done. }
      split; [|done].
      exists p. eexists. split; [done|]. split; [done|]. simpl.
      rewrite lookup_insert_eq. done.
    + apply postgres_PersistMove_rollback in Hp as [-> Hdb].
      split; [done|]. by apply Hdb.
    + apply postgres_PersistMove_rollback in Hp as [-> Hdb].
      split; [done|]. by apply Hdb.
Qed.


(** C4. [PersistMove] replaces the game only when the stored version is
    the successor's version minus one, and past the assignment checks it
    answers [ErrVersionConflict] otherwise.  Hence of two submissions for
    one game whose successors carry the same version at most one
    succeeds, and after the one that did, the other (by a client that is
    assigned and has not moved) gets [ErrVersionConflict]. *)
Theorem PersistMove_compare_and_swap (h : Heap CG) (gameID : UUID) :
  (* in-memory store *)
  (∀ s clientID newGame rec ply h' s' hist,
     memory.PersistMove h s gameID clientID newGame rec ply
     = (h', s', Ok hist) ->
     ∃ cur C NG,
       memory.games s !! gameID = Some cur ∧ h !! cur = Some C
       ∧ h !! newGame = Some NG
       ∧ StateVersion C = GoInt.sub (StateVersion NG) 1
       ∧ (GoInt.in_range (StateVersion NG) ->
          StateVersion NG ≠ GoInt.min_int ->
          StateVersion C = StateVersion NG - 1))
  ∧ (∀ s clientID newGame rec ply cur C NG,
       memory.member (memory.assigned s) gameID clientID = true ->
       memory.member (memory.moved s) gameID clientID = false ->
       memory.games s !! gameID = Some cur ->
       h !! cur = Some C -> h !! newGame = Some NG ->
       StateVersion C ≠ GoInt.sub (StateVersion NG) 1 ->
       memory.PersistMove h s gameID clientID newGame rec ply
       = (h, s, Fail ErrVersionConflict))
  ∧ (∀ s c1 c2 ng1 ng2 rec1 rec2 ply1 ply2 NG1 NG2 h1 s1 hist1,
       h !! ng1 = Some NG1 -> h !! ng2 = Some NG2 ->
       StateVersion NG1 = StateVersion NG2 ->
       memory.PersistMove h s gameID c1 ng1 rec1 ply1 = (h1, s1, Ok hist1) ->
       (∀ hist2,
          snd (memory.PersistMove h1 s1 gameID c2 ng2 rec2 ply2) ≠ Ok hist2)
       ∧ (memory.member (memory.assigned s1) gameID c2 = true ->
          memory.member (memory.moved s1) gameID c2 = false ->
          memory.PersistMove h1 s1 gameID c2 ng2 rec2 ply2
          = (h1, s1, Fail ErrVersionConflict)))
  (* transactional store *)
  ∧ (∀ db clientID newGame rec ply h' db' hist,
       postgres.PersistMove h db gameID clientID newGame rec ply
       = (h', db', Ok hist) ->
       ∃ r NG,
         postgres.games db !! gameID = Some r ∧ h !! newGame = Some NG
         ∧ postgres.state_version r = GoInt.sub (StateVersion NG) 1
         ∧ (GoInt.in_range (StateVersion NG) ->
            StateVersion NG ≠ GoInt.min_int ->
            postgres.state_version r = StateVersion NG - 1))
  ∧ (∀ db clientID newGame rec ply p r NG,
       postgres.game_players db !! (gameID, clientID) = Some p ->
       postgres.has_moved p = false ->
       postgres.games db !! gameID = Some r ->
       h !! newGame = Some NG ->
       (4 <= String.length (rec_UCI rec))%nat ->
       rec_ID rec ∉ (postgres.m_id <$> postgres.moves db) ->
       postgres.fits_int4 ply = true ->
       postgres.fits_int4 (PlyCount NG) = true ->
       postgres.fits_int4 (StateVersion NG) = true ->
       postgres.fits_int4 (GoInt.sub (StateVersion NG) 1) = true ->
       postgres.state_version r ≠ GoInt.sub (StateVersion NG) 1 ->
       postgres.PersistMove h db gameID clientID newGame rec ply
       = (h, db, Fail ErrVersionConflict))
  ∧ (∀ db c1 c2 ng1 ng2 rec1 rec2 ply1 ply2 NG1 NG2 h1 db1 hist1,
       h !! ng1 = Some NG1 -> h !! ng2 = Some NG2 ->
       StateVersion NG1 = StateVersion NG2 ->
       postgres.PersistMove h db gameID c1 ng1 rec1 ply1
       = (h1, db1, Ok hist1) ->
       (∀ hist2,
          snd (postgres.PersistMove h1 db1 gameID c2 ng2 rec2 ply2)
          ≠ Ok hist2)
       ∧ (∀ p2,
            postgres.game_players db1 !! (gameID, c2) = Some p2 ->
            postgres.has_moved p2 = false ->
            (4 <= String.length (rec_UCI rec2))%nat ->
            rec_ID rec2 ∉ (postgres.m_id <$> postgres.moves db1) ->
            postgres.fits_int4 ply2 = true ->
            postgres.fits_int4 (PlyCount NG2) = true ->
            postgres.fits_int4 (StateVersion NG2) = true ->
            postgres.fits_int4 (GoInt.sub (StateVersion NG2) 1) = true ->
            postgres.PersistMove h1 db1 gameID c2 ng2 rec2 ply2
            = (h1, db1, Fail ErrVersionConflict)))
  (* nothing is written unless the predicate holds *)
  ∧ (∀ s clientID newGame rec ply h' s' r,
       memory.PersistMove h s gameID clientID newGame rec ply = (h', s', r) ->
       s' ≠ s ->
       ∃ cur C NG,
         memory.games s !! gameID = Some cur ∧ h !! cur = Some C
         ∧ h !! newGame = Some NG
         ∧ StateVersion C = GoInt.sub (StateVersion NG) 1)
  ∧ (∀ db clientID newGame rec ply h' db' r,
       postgres.PersistMove h db gameID clientID newGame rec ply
       = (h', db', r) ->
       db' ≠ db ->
       ∃ row NG,
         postgres.games db !! gameID = Some row ∧ h !! newGame = Some NG
         ∧ postgres.state_version row = GoInt.sub (StateVersion NG) 1).
Proof.
  split.
  { intros s clientID newGame rec ply h' s' hist Hp.
    apply memory_PersistMove_ok in Hp
      as (cur & C & NG & fromSq & toSq & promotion & -> & Ha & Hm & Hg
          & HC & HNG & Hv & Hsp & Hh & ->).
    exists cur, C, NG. repeat split; try done.
    intros Hr Hmin. rewrite Hv. by apply sub_one_exact. }
  split; [intros; by eapply memory_PersistMove_conflict|].
  split.
  { intros s c1 c2 ng1 ng2 rec1 rec2 ply1 ply2 NG1 NG2 h1 s1 hist1
           H1 H2 Hsame Hp.
    apply memory_PersistMove_ok in Hp
      as (cur & C & NG & fromSq & toSq & promotion & -> & Ha & Hm & Hg
          & HC & HNG & Hv & Hsp & Hh & ->).
    rewrite H1 in HNG. injection HNG as <-.
    assert (StateVersion NG1 ≠ GoInt.sub (StateVersion NG2) 1) as Hne
        by (rewrite <- Hsame; intros Heq; by apply (sub_one_ne (StateVersion NG1))).
    split.
    - intros hist2 Hok.
      destruct (memory.PersistMove h _ gameID c2 ng2 rec2 ply2)
        as [[h2 s2] r2] eqn:Hp2.
      simpl in Hok. subst r2.
      apply memory_PersistMove_ok in Hp2
        as (cur' & C' & NG' & ? & ? & ? & -> & _ & _ & Hg' & HC' & HNG'
            & Hv' & _).
      simpl in Hg'. rewrite lookup_insert_eq in Hg'. injection Hg' as <-.
      rewrite H1 in HC'. injection HC' as <-.
      rewrite H2 in HNG'. injection HNG' as <-. done.
    - intros Ha2 Hm2.
      apply (memory_PersistMove_conflict h _ gameID c2 ng2 ng1 NG1 NG2);
        try done.
      simpl. by rewrite lookup_insert_eq. }
  split.
  { intros db clientID newGame rec ply h' db' hist Hp.
    apply postgres_PersistMove_ok in Hp
      as (p & r & NG & fromSq & toSq & promotion & -> & Hgp & Hm & Hg
          & HNG & Hv & Hsp & Hid & -> & ->).
    exists r, NG. repeat split; try done.
    intros Hr Hmin. rewrite Hv. by apply sub_one_exact. }
  split; [intros; by eapply postgres_PersistMove_conflict|].
  split; [|split].
  2: { intros; by eapply memory_PersistMove_changed. }
  2: { intros db clientID newGame rec ply h' db' r Hp Hne.
       destruct r as [hist | e |].
       - apply postgres_PersistMove_ok in Hp
           as (p & row & NG & fromSq & toSq & promotion & -> & Hgp & Hm & Hg
               & HNG & Hv & Hsp & Hid & -> & ->).
         by exists row, NG.
       - apply postgres_PersistMove_rollback in Hp as [_ Hdb].
         exfalso. apply Hne. by apply Hdb.
       - apply postgres_PersistMove_rollback in Hp as [_ Hdb].
         exfalso. apply Hne. by apply Hdb. }
  intros db c1 c2 ng1 ng2 rec1 rec2 ply1 ply2 NG1 NG2 h1 db1 hist1
         H1 H2 Hsame Hp.
  apply postgres_PersistMove_ok in Hp
    as (p & r & NG & fromSq & toSq & promotion & -> & Hgp & Hm & Hg
        & HNG & Hv & Hsp & Hid & -> & ->).
  rewrite H1 in HNG. injection HNG as <-.
  assert (StateVersion NG1 ≠ GoInt.sub (StateVersion NG2) 1) as Hne
      by (rewrite <- Hsame; intros Heq; by apply (sub_one_ne (StateVersion NG1))).
  split.
  - intros hist2 Hok.
    destruct (postgres.PersistMove h _ gameID c2 ng2 rec2 ply2)
      as [[h2 db2] r2] eqn:Hp2.
    simpl in Hok. subst r2.
    apply postgres_PersistMove_ok in Hp2
      as (p' & r' & NG' & ? & ? & ? & -> & _ & _ & Hg' & HNG' & Hv' & _).
    simpl in Hg'. rewrite lookup_insert_eq in Hg'. injection Hg' as <-.
    rewrite H2 in HNG'. injection HNG' as <-. done.
  - intros p2 Hgp2 Hm2 Hlen Hid2 Hf1 Hf2 Hf3 Hf4.
    eapply (postgres_PersistMove_conflict h _ gameID c2 ng2 rec2 ply2 p2 _ NG2);
      try done.
    + simpl. by rewrite lookup_insert_eq.
    + done.
Qed.

End MoveCommit.

(** ** The matchmaking primitive *)

Lemma active_test (st : game.Status) :
  negb (String.eqb st game.StatusWaiting)
  && negb (String.eqb st game.StatusOngoing) = false
  <-> spec.non_terminal st.
Proof.
  unfold spec.non_terminal.
  destruct (String.eqb_spec st game.StatusOngoing) as [Ho | Ho];
    destruct (String.eqb_spec st game.StatusWaiting) as [Hw | Hw];
    simpl; split; intros H; try done; try tauto.
Qed.

Section ClaimMemory.
Context {CG : Type} {eng : chess.Engine CG}.
Import game.

(** What the selection loop returns is a stored game that is eligible for
    the client. *)
Lemma choose_sound (h : Heap CG) (s : memory.Store) (clientID : UUID)
      (order : list UUID) (p : ptr) :
  memory.choose h s clientID order = Ok (Some p) ->
  ∃ k G, k ∈ order ∧ memory.games s !! k = Some p ∧ h !! p = Some G
         ∧ spec.non_terminal (Status_ G)
         ∧ memory.member (memory.assigned s) (ID G) clientID = false.
Proof.
  induction order as [|k rest IH]; simpl; [discriminate|].
  destruct (memory.games s !! k) as [g|] eqn:Hg.
  - destruct (h !! g) as [G|] eqn:HG; [|discriminate].
    destruct (negb (String.eqb (Status_ G) StatusWaiting)
              && negb (String.eqb (Status_ G) StatusOngoing)) eqn:Hst.
    + intros Hc. destruct (IH Hc) as (k' & G' & Hin & Hrest).
      exists k', G'. split; [by right|done].
    + destruct (memory.member (memory.assigned s) (ID G) clientID) eqn:Hm.
      * intros Hc. destruct (IH Hc) as (k' & G' & Hin & Hrest).
        exists k', G'. split; [by right|done].
      * intros [= <-]. exists k, G. split; [by left|].
        repeat split; try done. by apply active_test.
  - intros Hc. destruct (IH Hc) as (k' & G' & Hin & Hrest).
    exists k', G'. split; [by right|done].
Qed.

(** In a well-formed store the loop finds a game whenever the order it
    follows meets an eligible one. *)
Lemma choose_complete (h : Heap CG) (s : memory.Store) (clientID : UUID)
      (order : list UUID) (k : UUID) (p : ptr) (G : Game CG) :
  spec.wf_memory h s ->
  k ∈ order -> memory.games s !! k = Some p -> h !! p = Some G ->
  spec.non_terminal (Status_ G) ->
  memory.member (memory.assigned s) (ID G) clientID = false ->
  ∃ q, memory.choose h s clientID order = Ok (Some q).
Proof.
  intros Hwf Hin Hg HG Hnt Hm.
  induction order as [|k' rest IH]; [by apply elem_of_nil in Hin|].
  simpl. destruct (memory.games s !! k') as [g'|] eqn:Hg'.
  - destruct (Hwf _ _ Hg') as (G' & HG' & _). rewrite HG'.
    destruct (negb (String.eqb (Status_ G') StatusWaiting)
              && negb (String.eqb (Status_ G') StatusOngoing)) eqn:Hst.
    + apply elem_of_cons in Hin as [-> | Hin]; [|by apply IH].
      rewrite Hg in Hg'. injection Hg' as <-.
      rewrite HG in HG'. injection HG' as <-.
      apply active_test in Hnt. congruence.
    + destruct (memory.member (memory.assigned s) (ID G') clientID) eqn:Hm'.
      * apply elem_of_cons in Hin as [-> | Hin]; [|by apply IH].
        rewrite Hg in Hg'. injection Hg' as <-.
        rewrite HG in HG'. injection HG' as <-. congruence.
      * by eexists.
  - apply elem_of_cons in Hin as [-> | Hin]; [congruence|by apply IH].
Qed.

(** A successful in-memory claim: the game returned, the assignment
    recorded and what else changed. *)
Lemma memory_ClaimNextGame_ok (e : memory.Env) (h h' : Heap CG)
      (s s' : memory.Store) (clientID : UUID) (p : ptr)
      (hist : list MoveHistoryItem) :
  memory.ClaimNextGame e h s clientID = (h', s', Ok (p, hist)) ->
  ∃ k p0 G,
    k ∈ memory.iter_order e ∧ memory.games s !! k = Some p0
    ∧ h !! p0 = Some G
    ∧ spec.non_terminal (Status_ G)
    ∧ memory.member (memory.assigned s) (ID G) clientID = false
    ∧ memory.assigned s'
      = memory.add_member (memory.assigned s) (ID G) clientID
    ∧ memory.moved s' = memory.moved s
    ∧ memory.history s' = memory.history s
    ∧ hist = memory.history_of s (ID G)
    ∧ ((Status_ G = StatusWaiting
        ∧ h' = h ++ [with_Status G StatusOngoing] ∧ p = List.length h
        ∧ memory.games s' = <[ID G := p]> (memory.games s))
       ∨ (Status_ G = StatusOngoing
          ∧ h' = h ∧ p = p0 ∧ memory.games s' = memory.games s)).
Proof.
  unfold memory.ClaimNextGame.
  destruct (memory.choose h s clientID (memory.iter_order e))
    as [[chosen|] | |] eqn:Hc; try discriminate.
  destruct (choose_sound _ _ _ _ _ Hc) as (k & G & Hin & Hg & HG & Hnt & Hm).
  rewrite HG.
  destruct (String.eqb_spec (Status_ G) StatusWaiting) as [Hw | Hw].
  - intros [= <- <- <- <-]. exists k, chosen, G.
    repeat split; try done. by left.
  - intros [= <- <- <- <-]. exists k, chosen, G.
    repeat split; try done. right.
    destruct Hnt as [? | ?]; [contradiction|done].
Qed.

Lemma member_add_member_ne (m : gmap UUID (gset UUID)) (k c k' c' : UUID) :
  k' ≠ k ->
  memory.member (memory.add_member m k c) k' c' = memory.member m k' c'.
Proof.
  intros Hne. unfold memory.member, memory.add_member.
  by rewrite lookup_insert_ne.
Qed.

(** A claim keeps the store well formed and leaves the other games
    eligible. *)
Lemma memory_ClaimNextGame_frame (e : memory.Env) (h h' : Heap CG)
      (s s' : memory.Store) (clientID : UUID) (p : ptr)
      (hist : list MoveHistoryItem) :
  spec.wf_memory h s ->
  memory.ClaimNextGame e h s clientID = (h', s', Ok (p, hist)) ->
  ∃ G,
    h' !! p = Some G
    ∧ spec.non_terminal (Status_ G)
    ∧ memory.member (memory.assigned s) (ID G) clientID = false
    ∧ memory.member (memory.assigned s') (ID G) clientID = true
    ∧ spec.wf_memory h' s'
    ∧ (∀ k, is_Some (memory.games s' !! k) -> is_Some (memory.games s !! k))
    ∧ (∀ G', spec.eligible_memory h s clientID G' -> ID G' ≠ ID G ->
             spec.eligible_memory h' s' clientID G').
Proof.
  intros Hwf Hc.
  apply memory_ClaimNextGame_ok in Hc
    as (k & p0 & G & Hin & Hg & HG & Hnt & Hm & Ha & Hmv & Hhi & Hh & Hcase).
  destruct (Hwf _ _ Hg) as (G0 & HG0 & Hk).
  rewrite HG in HG0. injection HG0 as <-.
  destruct Hcase as [(Hst & -> & -> & Hgs) | (Hst & -> & -> & Hgs)].
  - exists (with_Status G StatusOngoing).
    split; [by apply list_lookup_middle|].
    split; [by right|]. split; [done|].
    split; [rewrite Ha; apply member_add_member|].
    split; [|split].
    + intros k' p'. rewrite Hgs. simpl.
      destruct (decide (ID G = k')) as [<- | Hne].
      * rewrite lookup_insert_eq. intros [= <-].
        exists (with_Status G StatusOngoing).
        split; [by apply list_lookup_middle|done].
      * rewrite lookup_insert_ne by done. intros Hk'.
        destruct (Hwf _ _ Hk') as (G' & HG' & Hid).
        exists G'. split; [by apply lookup_app_l_Some|done].
    + intros k'. rewrite Hgs.
      destruct (decide (ID G = k')) as [<- | Hne].
      * intros _. rewrite Hk. by eexists.
      * by rewrite lookup_insert_ne.
    + intros G' ((k' & p' & Hg' & HG') & Hnt' & Hm') Hne.
      destruct (Hwf _ _ Hg') as (G'' & HG'' & Hid).
      rewrite HG' in HG''. injection HG'' as <-. simpl in Hne.
      split; [|split; [done|]].
      * exists k', p'. rewrite Hgs.
        rewrite lookup_insert_ne by congruence.
        split; [done|by apply lookup_app_l_Some].
      * rewrite Ha. by rewrite member_add_member_ne.
  - exists G. split; [done|]. split; [done|]. split; [done|].
    split; [rewrite Ha; apply member_add_member|].
    split; [|split].
    + intros k' p'. rewrite Hgs. apply Hwf.
    + intros k'. by rewrite Hgs.
    + intros G' ((k' & p' & Hg' & HG') & Hnt' & Hm') Hne.
      split; [|split; [done|]].
      * exists k', p'. by rewrite Hgs.
      * rewrite Ha. by rewrite member_add_member_ne.
Qed.


End ClaimMemory.

Lemma claimable_test (db : postgres.DB) (clientID id : UUID)
      (r : postgres.GameRow) :
  postgres.claimable db clientID id r = true
  <-> spec.non_terminal (postgres.status r)
      ∧ postgres.game_players db !! (id, clientID) = None.
Proof.
  unfold postgres.claimable, spec.non_terminal.
  rewrite andb_true_iff, orb_true_iff, negb_true_iff, bool_decide_eq_false.
  rewrite !String.eqb_eq, <- eq_None_not_Some. done.
Qed.

Lemma elem_of_scan (db : postgres.DB) (order : list UUID) (id : UUID)
      (r : postgres.GameRow) :
  (id, r) ∈ postgres.scan db order
  <-> id ∈ order ∧ postgres.games db !! id = Some r.
Proof.
  unfold postgres.scan. rewrite list_elem_of_omap. split.
  - intros (k & Hin & Hk).
    destruct (postgres.games db !! k) as [r'|] eqn:Hg; simpl in Hk;
      [|discriminate].
    injection Hk as <- <-. done.
  - intros [Hin Hg]. exists id. split; [done|]. by rewrite Hg.
Qed.

(** [oldest] returns a row of the list with the least creation time. *)
Lemma oldest_least (rows : list (UUID * postgres.GameRow))
      (kr : UUID * postgres.GameRow) :
  postgres.oldest rows = Some kr ->
  kr ∈ rows
  ∧ ∀ kr', kr' ∈ rows ->
           postgres.created_at (snd kr) <= postgres.created_at (snd kr').
Proof.
  revert kr. induction rows as [|x rest IH]; intros kr; simpl; [discriminate|].
  destruct (postgres.oldest rest) as [y|] eqn:Ho.
  - destruct (IH y eq_refl) as [Hin Hle].
    destruct (postgres.created_at (snd x) <=? postgres.created_at (snd y))
      eqn:Hcmp; intros [= <-].
    + apply Z.leb_le in Hcmp. split; [by left|].
      intros kr' [-> | Hin']%elem_of_cons; [lia|].
      specialize (Hle kr' Hin'). lia.
    + apply Z.leb_gt in Hcmp. split; [by right|].
      intros kr' [-> | Hin']%elem_of_cons; [lia|by apply Hle].
  - intros [= <-]. split; [by left|].
    destruct rest as [|z rest']; [|simpl in Ho; destruct (postgres.oldest rest');
                                    [destruct (_ <=? _)|]; discriminate].
    intros kr' [-> | Hin']%elem_of_cons; [lia|by apply elem_of_nil in Hin'].
Qed.

Lemma oldest_some (rows : list (UUID * postgres.GameRow)) :
  rows ≠ [] -> is_Some (postgres.oldest rows).
Proof.
  destruct rows as [|x rest]; [done|]. intros _. simpl.
  destruct (postgres.oldest rest); [destruct (_ <=? _)|]; by eexists.
Qed.

(** The selection query returns an eligible row that no concurrent
    transaction holds, and none of those is older. *)
Lemma queryClaimNextGame_sound (db : postgres.DB) (e : postgres.Env)
      (clientID id : UUID) (r : postgres.GameRow) :
  postgres.queryClaimNextGame db e clientID = Some (id, r) ->
  id ∈ postgres.scan_order e
  ∧ spec.eligible_postgres db clientID id r
  ∧ (id ∉ postgres.locked e)
  ∧ ∀ id' r', id' ∈ postgres.scan_order e ->
              spec.eligible_postgres db clientID id' r' ->
              id' ∉ postgres.locked e ->
              postgres.created_at r <= postgres.created_at r'.
Proof.
  unfold postgres.queryClaimNextGame, spec.eligible_postgres. intros Hq.
  apply oldest_least in Hq as [Hin Hle].
  apply list_elem_of_filter in Hin as [[Hc Hl] Hin]. simpl in *.
  apply elem_of_scan in Hin as [Hin Hg].
  apply claimable_test in Hc as [Hnt Hgp].
  repeat split; try done.
  intros id' r' Hin' (Hg' & Hnt' & Hgp') Hl'.
  apply (Hle (id', r')). apply list_elem_of_filter. simpl. split.
  - split; [by apply claimable_test|done].
  - by apply elem_of_scan.
Qed.

Lemma queryClaimNextGame_complete (db : postgres.DB) (e : postgres.Env)
      (clientID id : UUID) (r : postgres.GameRow) :
  id ∈ postgres.scan_order e ->
  spec.eligible_postgres db clientID id r ->
  id ∉ postgres.locked e ->
  is_Some (postgres.queryClaimNextGame db e clientID).
Proof.
  intros Hin (Hg & Hnt & Hgp) Hl. unfold postgres.queryClaimNextGame.
  apply oldest_some. intros Hnil.
  assert ((id, r) ∈ filter
            (fun kr => postgres.claimable db clientID (fst kr) (snd kr) = true
                       ∧ fst kr ∉ postgres.locked e)
            (postgres.scan db (postgres.scan_order e))) as Hmem.
  { apply list_elem_of_filter. simpl. split.
    - split; [by apply claimable_test|done].
    - by apply elem_of_scan. }
  rewrite Hnil in Hmem. by apply elem_of_nil in Hmem.
Qed.

Section ClaimPostgres.
Context {CG : Type}.
Import game.

(** A successful transactional claim. *)
Lemma postgres_ClaimNextGame_ok (e : postgres.Env) (h h' : Heap CG)
      (db db' : postgres.DB) (clientID : UUID) (g : ptr)
      (hist : list MoveHistoryItem) :
  postgres.ClaimNextGame e h db clientID = (h', db', Ok (g, hist)) ->
  ∃ id r,
    postgres.queryClaimNextGame db e clientID = Some (id, r)
    ∧ g = List.length h
    ∧ h' = h ++ [if String.eqb (postgres.status r) StatusWaiting
                 then with_Status (postgres.scanGame id r) StatusOngoing
                 else postgres.scanGame id r]
    ∧ postgres.game_players db !! (id, clientID) = None
    ∧ postgres.game_players db'
      = <[(id, clientID) := postgres.mkPlayerRow false (postgres.db_now e)]>
          (postgres.game_players db)
    ∧ postgres.moves db' = postgres.moves db
    ∧ (∀ id', id' ≠ id -> postgres.games db' !! id' = postgres.games db !! id')
    ∧ hist = postgres.fetchMoveHistory db id.
Proof.
  unfold postgres.ClaimNextGame.
  destruct (postgres.queryClaimNextGame db e clientID) as [[id r]|] eqn:Hq;
    [|discriminate].
  simpl.
  destruct (bool_decide (is_Some (postgres.game_players db !! (id, clientID))))
    eqn:Hgp; [discriminate|].
  apply bool_decide_eq_false in Hgp. apply eq_None_not_Some in Hgp.
  intros [= <- <- <- <-]. exists id, r.
  split; [done|]. split; [done|]. split.
  { destruct (String.eqb (postgres.status r) StatusWaiting); [|done].
    rewrite insert_app_r_alt by done. by rewrite Nat.sub_diag. }
  split; [done|].
  unfold postgres.exec_ActivateGame, postgres.fetchMoveHistory. simpl.
  destruct (postgres.games db !! id) as [r'|]; [|done].
  destruct (String.eqb (postgres.status r') "waiting"); [|done].
  simpl. repeat split; try done.
  intros id' Hne. by rewrite lookup_insert_ne.
Qed.

Lemma postgres_ClaimNextGame_frame (e : postgres.Env) (h h' : Heap CG)
      (db db' : postgres.DB) (clientID : UUID) (g : ptr)
      (hist : list MoveHistoryItem) :
  postgres.ClaimNextGame e h db clientID = (h', db', Ok (g, hist)) ->
  ∃ id r G,
    h' !! g = Some G ∧ ID G = id
    ∧ CreatedAt G = postgres.created_at r
    ∧ postgres.queryClaimNextGame db e clientID = Some (id, r)
    ∧ spec.eligible_postgres db clientID id r
    ∧ is_Some (postgres.game_players db' !! (id, clientID))
    ∧ (∀ id' r', spec.eligible_postgres db clientID id' r' -> id' ≠ id ->
                 spec.eligible_postgres db' clientID id' r').
Proof.
  intros Hc.
  apply postgres_ClaimNextGame_ok in Hc
    as (id & r & Hq & -> & -> & Hgp & Hgp' & Hmv & Hframe & ->).
  destruct (queryClaimNextGame_sound _ _ _ _ _ Hq) as (Hin & Hel & Hl & Hle).
  exists id, r. eexists.
  split; [by apply list_lookup_middle|].
  split; [by destruct (String.eqb (postgres.status r) StatusWaiting)|].
  split; [by destruct (String.eqb (postgres.status r) StatusWaiting)|].
  split; [done|]. split; [done|].
  split; [rewrite Hgp', lookup_insert_eq; by eexists|].
  intros id' r' (Hg' & Hnt' & Hgp'') Hne.
  split; [by rewrite Hframe|]. split; [done|].
  rewrite Hgp'. rewrite lookup_insert_ne by congruence. done.
Qed.

Lemma postgres_ClaimNextGame_succeeds (e : postgres.Env) (h : Heap CG)
      (db : postgres.DB) (clientID id : UUID) (r : postgres.GameRow) :
  id ∈ postgres.scan_order e ->
  spec.eligible_postgres db clientID id r ->
  id ∉ postgres.locked e ->
  ∃ h' db' g hist,
    postgres.ClaimNextGame e h db clientID = (h', db', Ok (g, hist)).
Proof.
  intros Hin Hel Hl.
  destruct (queryClaimNextGame_complete db e clientID id r Hin Hel Hl)
    as [[id0 r0] Hq].
  destruct (queryClaimNextGame_sound _ _ _ _ _ Hq)
    as (_ & (_ & _ & Hgp) & _).
  unfold postgres.ClaimNextGame. rewrite Hq. simpl.
  rewrite bool_decide_eq_false_2 by (rewrite Hgp; by intros [? ?]).
  by repeat eexists.
Qed.

End ClaimPostgres.

Section Matchmaking.
Context {CG : Type} {eng : chess.Engine CG}.
Import game.


End Matchmaking.

Section ClaimOrder.
Context {CG : Type}.
Import game.

(** The transactional claim returns an eligible game, and no eligible
    game that is free of locks is older; it succeeds when there is one. *)
Lemma postgres_claims_oldest (e : postgres.Env) (h h' : Heap CG)
      (db db' : postgres.DB) (clientID : UUID) (g : ptr)
      (hist : list MoveHistoryItem) :
  postgres.ClaimNextGame e h db clientID = (h', db', Ok (g, hist)) ->
  ∃ G r, h' !! g = Some G
         ∧ spec.eligible_postgres db clientID (ID G) r
         ∧ CreatedAt G = postgres.created_at r
         ∧ ∀ id' r', id' ∈ postgres.scan_order e ->
                     spec.eligible_postgres db clientID id' r' ->
                     id' ∉ postgres.locked e ->
                     CreatedAt G <= postgres.created_at r'.
Proof.
  intros Hc.
  apply postgres_ClaimNextGame_frame in Hc
    as (id & r & G & HG & Hid & Hcr & Hq & Hel & Hgp' & Hkeep).
  destruct (queryClaimNextGame_sound _ _ _ _ _ Hq) as (_ & _ & _ & Hle).
  exists G, r. rewrite Hid, Hcr. done.
Qed.

End ClaimOrder.

(** C2, on the in-memory store.  With game 1 (created at 10) and game 2
    (created at 20) both eligible and the map yielding game 2 first, the
    in-memory claim returns game 2; the transactional claim over the same
    rows in the same scan order returns game 1. *)
Theorem memory_claim_returns_newer_game :
  spec.eligible_memory examples.heap2 examples.store2 examples.client
    (toy.fresh 1 game.StatusOngoing 10)
  ∧ spec.eligible_memory examples.heap2 examples.store2 examples.client
      (toy.fresh 2 game.StatusOngoing 20)
  ∧ spec.enumerates (memory.iter_order examples.newer_first)
      (memory.games examples.store2)
  ∧ (∃ s' hist,
       memory.ClaimNextGame examples.newer_first examples.heap2
         examples.store2 examples.client
       = (examples.heap2, s', Ok (1%nat, hist))
       ∧ examples.heap2 !! 1%nat = Some (toy.fresh 2 game.StatusOngoing 20))
  ∧ (∃ h' db' hist G,
       postgres.ClaimNextGame examples.scan_newer_first examples.heap2
         examples.db2 examples.client
       = (h', db', Ok (2%nat, hist))
       ∧ h' !! 2%nat = Some G ∧ game.ID G = 1%N ∧ game.CreatedAt G = 10).
Proof.
  split; [|split; [|split; [|split]]].
  - split; [|split; [by right|done]].
    exists 1%N, 0%nat. done.
  - split; [|split; [by right|done]].
    exists 2%N, 1%nat. done.
  - intros k [p Hk]. unfold examples.store2 in Hk. simpl in Hk.
    destruct (decide (k = 1%N)) as [-> | H1]; [set_solver|].
    rewrite lookup_insert_ne in Hk by done.
    destruct (decide (k = 2%N)) as [-> | H2]; [set_solver|].
    rewrite lookup_insert_ne in Hk by done. done.
  - eexists _, _. split; [vm_compute; reflexivity|done].
  - eexists _, _, _, _. split; [vm_compute; reflexivity|].
    split; [reflexivity|]. split; reflexivity.
Qed.

(** ** The use cases *)

Section Matchmaker.
Context {CG S E : Type} {eng : chess.Engine CG}.
Context (St : ports.GameStore CG S E) (rl : ports.RateLimiter).
Import game.

(** C9. Past the rate limiter, [GetNext] first claims.  A game claimed is
    returned, and an error other than [ErrNoGamesAvailable] is propagated,
    after that one store call.  On [ErrNoGamesAvailable], and only then, it
    calls [CreateWaitingBatch] with the configured batch size; when that
    succeeds it claims once more and returns what the second claim gives,
    [ErrNoGamesAvailable] included, after exactly these three calls.  (An
    error of [CreateWaitingBatch] itself is returned without a second
    claim.) *)
Theorem GetNext_protocol (batchSize : Z) (e1 e2 e3 : E) (h : Heap CG)
        (s : S) (ip token : string) (clientID : UUID) :
  rl ip token = true ->
  let run :=
    usecase.GetNext (ports.Recorder St) rl batchSize e1 e2 e3 h (s, [])
      ip token clientID in
  (∀ h1 s1 g hist,
     ports.ClaimNextGame e1 h s clientID = (h1, s1, Ok (g, hist)) ->
     run = (h1, (s1, [ports.CallClaimNextGame clientID]),
            Ok (usecase.mkNextGameResult g hist)))
  ∧ (∀ h1 s1 err,
       ports.ClaimNextGame e1 h s clientID = (h1, s1, Fail err) ->
       err ≠ ErrNoGamesAvailable ->
       run = (h1, (s1, [ports.CallClaimNextGame clientID]), Fail err))
  ∧ (∀ h1 s1 h2 s2 u,
       ports.ClaimNextGame e1 h s clientID
       = (h1, s1, Fail ErrNoGamesAvailable) ->
       ports.CreateWaitingBatch e2 h1 s1 batchSize = (h2, s2, Ok u) ->
       (∀ h3 s3 g hist,
          ports.ClaimNextGame e3 h2 s2 clientID = (h3, s3, Ok (g, hist)) ->
          run = (h3, (s3, [ports.CallClaimNextGame clientID;
                           ports.CallCreateWaitingBatch batchSize;
                           ports.CallClaimNextGame clientID]),
                 Ok (usecase.mkNextGameResult g hist)))
       ∧ (∀ h3 s3 err,
            ports.ClaimNextGame e3 h2 s2 clientID = (h3, s3, Fail err) ->
            run = (h3, (s3, [ports.CallClaimNextGame clientID;
                             ports.CallCreateWaitingBatch batchSize;
                             ports.CallClaimNextGame clientID]),
                   Fail err)))
  ∧ (∀ n, ports.CallCreateWaitingBatch n ∈ snd (snd (fst run))
          <-> n = batchSize
              ∧ snd (ports.ClaimNextGame e1 h s clientID)
                = Fail ErrNoGamesAvailable)
  ∧ (∀ h1 s1 h2 s2 createErr,
       ports.ClaimNextGame e1 h s clientID
       = (h1, s1, Fail ErrNoGamesAvailable) ->
       ports.CreateWaitingBatch e2 h1 s1 batchSize
       = (h2, s2, Fail createErr) ->
       run = (h2, (s2, [ports.CallClaimNextGame clientID;
                        ports.CallCreateWaitingBatch batchSize]),
              Fail createErr)).
Proof.
  intros Hrl run. subst run. unfold usecase.GetNext. rewrite Hrl. simpl.
  split; [|split; [|split; [|split]]].
  5: { intros h1 s1 h2 s2 createErr -> Hb. simpl. by rewrite Hb. }
  - intros h1 s1 g hist ->. done.
  - intros h1 s1 err -> Hne.
    by rewrite bool_decide_eq_false_2.
  - intros h1 s1 h2 s2 u -> Hb. simpl. rewrite Hb. simpl.
    split.
    + intros h3 s3 g hist ->. done.
    + intros h3 s3 err ->. done.
  - intros n.
    destruct (ports.ClaimNextGame e1 h s clientID)
      as [[h1 s1] [[g hist] | err |]] eqn:Hc; simpl.
    + split; [|by intros [_ ?]].
      intros Hin. apply list_elem_of_singleton in Hin. discriminate.
    + destruct (decide (err = ErrNoGamesAvailable)) as [-> | Hne].
      * simpl.
        destruct (ports.CreateWaitingBatch e2 h1 s1 batchSize)
          as [[h2 s2] [u | ce |]] eqn:Hb; simpl.
        -- destruct (ports.ClaimNextGame e3 h2 s2 clientID)
             as [[h3 s3] [[g hist] | err |]] eqn:Hc2; simpl;
             (split; [|intros [-> _]; set_solver]);
             intros Hin; repeat (apply elem_of_cons in Hin as [Hin | Hin];
                                 try discriminate Hin);
             try (by apply elem_of_nil in Hin);
             by injection Hin as ->.
        -- split; [|intros [-> _]; set_solver].
           intros Hin; repeat (apply elem_of_cons in Hin as [Hin | Hin];
                               try discriminate Hin);
             try (by apply elem_of_nil in Hin);
             by injection Hin as ->.
        -- split; [|intros [-> _]; set_solver].
           intros Hin; repeat (apply elem_of_cons in Hin as [Hin | Hin];
                               try discriminate Hin);
             try (by apply elem_of_nil in Hin);
             by injection Hin as ->.
      * rewrite bool_decide_eq_false_2 by done. simpl.
        split; [|intros [_ [= ->]]; done].
        intros Hin. apply list_elem_of_singleton in Hin. discriminate.
    + split; [|by intros [_ ?]].
      intros Hin. apply list_elem_of_singleton in Hin. discriminate.
Qed.

End Matchmaker.

Section StaleVersion.
Context {CG S E : Type}.
Context (St : ports.GameStore CG S E) (rl : ports.RateLimiter).
Import game.

(** C10. When the version of the game that [GetByID] returned differs
    from the expected version of the request, [SubmitMove] answers
    [ErrVersionConflict]: whatever the rule engine and whatever the move
    string (well formed or not, legal or not), with [GetByID] as its only
    store call and no object allocated after it.  [GetByID] itself leaves
    the in-memory store and heap, and the tables of the transactional
    store, as they were. *)
Theorem SubmitMove_stale_version (e1 e2 : E) (h h1 : Heap CG) (s s1 : S)
        (ip token : string) (gameID clientID : UUID) (expected : Z)
        (g : ptr) (G : Game CG) :
  rl ip token = true ->
  ports.GetByID e1 h s gameID = (h1, s1, Ok g) ->
  h1 !! g = Some G ->
  StateVersion G ≠ expected ->
  (∀ (eng : chess.Engine CG) (uci : string) (nonce : option string)
     (now : Time) (recID : UUID),
     usecase.SubmitMove (ports.Recorder St) rl e1 e2 now recID h (s, [])
       ip token gameID clientID
       (usecase.mkSubmitMoveRequest uci expected nonce)
     = (h1, (s1, [ports.CallGetByID gameID]), Fail ErrVersionConflict))
  ∧ (∀ (hm : Heap CG) sm id,
       fst (memory.GetByID hm sm id) = (hm, sm))
  ∧ (∀ (hp : Heap CG) db id,
       snd (fst (postgres.GetByID hp db id)) = db
       ∧ ∃ l, fst (fst (postgres.GetByID hp db id)) = hp ++ l).
Proof.
  intros Hrl Hget HG Hne. split; [|split].
  - intros eng uci nonce now recID.
    unfold usecase.SubmitMove. rewrite Hrl. simpl. rewrite Hget. simpl.
    rewrite HG. by destruct (decide (StateVersion G ≠ expected)).
  - intros hm sm id. unfold memory.GetByID.
    by destruct (memory.games sm !! id).
  - intros hp db id. unfold postgres.GetByID.
    destruct (postgres.games db !! id); simpl.
    + split; [done|]. by eexists.
    + split; [done|]. exists []. by rewrite app_nil_r.
Qed.

End StaleVersion.

(** ** Accepted moves, versions and history *)

Lemma wrap_add_l (a b : Z) : GoInt.wrap (GoInt.wrap a + b) = GoInt.wrap (a + b).
Proof.
  unfold GoInt.wrap.
  replace ((a + 2 ^ 63) mod 2 ^ 64 - 2 ^ 63 + b + 2 ^ 63)
    with ((a + 2 ^ 63) mod 2 ^ 64 + b) by lia.
  rewrite Z.add_mod_idemp_l by lia.
  by replace (a + 2 ^ 63 + b) with (a + b + 2 ^ 63) by lia.
Qed.

Lemma valid_uci_splits (uci : string) :
  game.isValidUCISyntax uci = true -> is_Some (GoString.split_uci uci).
Proof.
  unfold game.isValidUCISyntax, GoString.split_uci.
  destruct (String.length uci <? 4)%nat; [discriminate|].
  intros _. by eexists.
Qed.

Section Replay.
Context {CG : Type} {eng : chess.Engine CG}.
Import game.

Lemma replays_app (fen0 fen : string) (hist : list MoveHistoryItem)
      (it : MoveHistoryItem) :
  spec.replays fen0 hist fen ->
  FENBefore it = fen ->
  spec.replay_step fen (UCI it) = Some (FENAfter it) ->
  spec.replays fen0 (hist ++ [it]) (FENAfter it).
Proof.
  revert fen0. induction hist as [|x rest IH]; intros fen0; simpl.
  - intros -> Hb Hs. done.
  - intros (Hb & Hs & Hr) Hb' Hs'. split; [done|]. split; [done|].
    by apply IH.
Qed.

Lemma replays_chained (fen0 fen : string) (hist : list MoveHistoryItem) :
  spec.replays fen0 hist fen -> spec.chained fen0 hist.
Proof.
  revert fen0. induction hist as [|x rest IH]; intros fen0; simpl; [done|].
  intros (Hb & Hs & Hr). split; [done|by apply IH].
Qed.

Lemma replays_last (fen0 fen : string) (hist : list MoveHistoryItem) :
  spec.replays fen0 hist fen -> fen = spec.last_position fen0 hist.
Proof.
  unfold spec.last_position. revert fen0.
  induction hist as [|x rest IH]; intros fen0; simpl; [done|].
  intros (Hb & Hs & Hr). specialize (IH _ Hr).
  destruct rest as [|y rest']; [done|]. simpl in *.
  destruct (last (y :: rest')) eqn:Hl; [done|].
  by apply last_None in Hl.
Qed.

Lemma replays_replay (fen0 fen : string) (hist : list MoveHistoryItem) :
  spec.replays fen0 hist fen -> spec.replay fen0 (UCI <$> hist) = Some fen.
Proof.
  revert fen0. induction hist as [|x rest IH]; intros fen0; simpl.
  - by intros ->.
  - intros (Hb & Hs & Hr). rewrite Hs. by apply IH.
Qed.

End Replay.

Section Tracking.
Context {CG : Type} {eng : chess.Engine CG}.
Import game.

Lemma wf_memory_heap_ext (h l : Heap CG) (s : memory.Store) :
  spec.wf_memory h s -> spec.wf_memory (h ++ l) s.
Proof.
  intros Hwf k p Hk. destruct (Hwf k p Hk) as (G & HG & Hid).
  exists G. split; [by apply lookup_app_l_Some|done].
Qed.

Lemma tracks_heap_ext (fen0 : string) (ply0 : Z) (gid : UUID) (n : nat)
      (h l : Heap CG) (s : memory.Store) :
  spec.tracks fen0 ply0 gid n h s -> spec.tracks fen0 ply0 gid n (h ++ l) s.
Proof.
  intros (Hwf & p & G & Hg & HG & Hrest).
  split; [by apply wf_memory_heap_ext|].
  exists p, G. split; [done|]. split; [by apply lookup_app_l_Some|done].
Qed.

(** A claim that does not return a game changes nothing. *)
Lemma memory_ClaimNextGame_not_ok (e : memory.Env) (h h' : Heap CG)
      (s s' : memory.Store) (clientID : UUID)
      (r : outcome (ptr * list MoveHistoryItem)) :
  memory.ClaimNextGame e h s clientID = (h', s', r) ->
  (∀ x, r ≠ Ok x) -> h' = h ∧ s' = s.
Proof.
  unfold memory.ClaimNextGame. intros Hc Hno.
  repeat case_match; simplify_eq; try done; exfalso; by eapply Hno.
Qed.

(** The batch loop: it allocates, stores the new games under their new
    identifiers and touches nothing else. *)
Lemma batch_loop_spec (e : memory.Env) (n i : nat) (h : Heap CG)
      (s : memory.Store) :
  ∃ l s',
    memory.batch_loop e n i h s = (h ++ l, s', Ok tt)
    ∧ memory.assigned s' = memory.assigned s
    ∧ memory.moved s' = memory.moved s
    ∧ memory.history s' = memory.history s
    ∧ (∀ k, (∀ j, memory.new_uuid e j ≠ k) ->
            memory.games s' !! k = memory.games s !! k)
    ∧ (spec.wf_memory h s -> spec.wf_memory (h ++ l) s').
Proof.
  revert i h s. induction n as [|n IH]; intros i h s; simpl.
  - exists [], s. rewrite app_nil_r. repeat split; try done.
  - unfold NewGame, fromChessGame, alloc. simpl.
    rewrite list_lookup_middle by done.
    set (obj := mkGame _ _ _ _ _ _ _ _ _ _ _ _).
    set (s1 := memory.set_games s _).
    destruct (IH (S i) ((h ++ [obj]) ++ [with_Status obj StatusWaiting]) s1)
      as (l & s' & Hloop & Ha & Hm & Hh & Hg & Hwf).
    exists ([obj; with_Status obj StatusWaiting] ++ l), s'.
    split.
    { rewrite Hloop. f_equal. f_equal. by rewrite <- !app_assoc. }
    split; [done|]. split; [done|]. split; [done|].
    split.
    + intros k Hk. rewrite (Hg k Hk). subst s1. simpl.
      rewrite lookup_insert_ne; [done|apply Hk].
    + intros Hwf0.
      replace (h ++ [obj; with_Status obj StatusWaiting] ++ l)
        with (((h ++ [obj]) ++ [with_Status obj StatusWaiting]) ++ l)
        by (by rewrite <- !app_assoc).
      apply Hwf. intros k p. subst s1. simpl.
      destruct (decide (memory.new_uuid e i = k)) as [<- | Hne].
      * rewrite lookup_insert_eq. intros [= <-].
        exists (with_Status obj StatusWaiting).
        split; [by apply list_lookup_middle|done].
      * rewrite lookup_insert_ne by done. intros Hk.
        destruct (Hwf0 k p Hk) as (G & HG & Hid). exists G.
        split; [|done].
        apply lookup_app_l_Some. by apply lookup_app_l_Some.
Qed.

Lemma claim_tracks (fen0 : string) (ply0 : Z) (gid : UUID) (n : nat)
      (e : memory.Env) (h h' : Heap CG) (s s' : memory.Store)
      (clientID : UUID) (r : outcome (ptr * list MoveHistoryItem)) :
  spec.tracks fen0 ply0 gid n h s ->
  memory.ClaimNextGame e h s clientID = (h', s', r) ->
  spec.tracks fen0 ply0 gid n h' s'.
Proof.
  intros Ht Hc.
  destruct r as [[p hist] | err |];
    [|apply memory_ClaimNextGame_not_ok in Hc as [-> ->]; done ..].
  destruct Ht as (Hwf & pt & Gt & Hgt & HGt & Hv & Hp & Hlen & Hply & Hrep).
  destruct (memory_ClaimNextGame_frame _ _ _ _ _ _ _ _ Hwf Hc)
    as (_ & _ & _ & _ & _ & Hwf' & _).
  apply memory_ClaimNextGame_ok in Hc
    as (k & p0 & G & Hin & Hg & HG & Hnt & Hm & Ha & Hmv & Hhi & Hh & Hcase).
  destruct (Hwf _ _ Hg) as (G0 & HG0 & Hk).
  rewrite HG in HG0. injection HG0 as <-.
  assert (memory.history_of s' gid = memory.history_of s gid) as Hhist
      by (unfold memory.history_of; by rewrite Hhi).
  split; [done|]. rewrite Hhist.
  destruct Hcase as [(Hst & -> & -> & Hgs) | (Hst & -> & -> & Hgs)].
  - destruct (decide (ID G = gid)) as [Heq | Hne].
    + subst gid. rewrite Hk in Hgt. rewrite Hg in Hgt. injection Hgt as <-.
      rewrite HG in HGt. injection HGt as <-.
      exists (List.length h), (with_Status G StatusOngoing).
      split; [rewrite Hgs, Hk; by rewrite lookup_insert_eq|].
      split; [by apply list_lookup_middle|done].
    + exists pt, Gt.
      split; [rewrite Hgs; by rewrite lookup_insert_ne|].
      split; [by apply lookup_app_l_Some|done].
  - exists pt, Gt. split; [by rewrite Hgs|done].
Qed.

Lemma batch_tracks (fen0 : string) (ply0 : Z) (gid : UUID) (n : nat)
      (e : memory.Env) (h h' : Heap CG) (s s' : memory.Store) (count : Z)
      (r : outcome unit) :
  spec.tracks fen0 ply0 gid n h s ->
  (∀ i, memory.new_uuid e i ≠ gid) ->
  memory.CreateWaitingBatch e h s count = (h', s', r) ->
  spec.tracks fen0 ply0 gid n h' s'.
Proof.
  intros (Hwf & pt & Gt & Hgt & HGt & Hv & Hp & Hlen & Hply & Hrep) Hfresh.
  unfold memory.CreateWaitingBatch.
  destruct (batch_loop_spec e (Z.to_nat count) 0 h s)
    as (l & s1 & Hloop & Ha & Hm & Hh & Hg & Hwf').
  rewrite Hloop. intros [= <- <- <-].
  assert (memory.history_of s1 gid = memory.history_of s gid) as Hhist
      by (unfold memory.history_of; by rewrite Hh).
  split; [by apply Hwf'|]. rewrite Hhist.
  exists pt, Gt. split; [by rewrite Hg|].
  split; [by apply lookup_app_l_Some|done].
Qed.

Lemma GetNext_tracks (fen0 : string) (ply0 : Z) (gid : UUID) (n : nat)
      (rl : ports.RateLimiter) (batchSize : Z) (e1 e2 e3 : memory.Env)
      (h h' : Heap CG) (s s' : memory.Store) (ip token : string)
      (clientID : UUID) (r : outcome usecase.NextGameResult) :
  spec.tracks fen0 ply0 gid n h s ->
  (∀ i, memory.new_uuid e2 i ≠ gid) ->
  usecase.GetNext memory_GameStore rl batchSize e1 e2 e3 h s ip token clientID
  = (h', s', r) ->
  spec.tracks fen0 ply0 gid n h' s'.
Proof.
  intros Ht Hfresh. unfold usecase.GetNext. simpl.
  destruct (rl ip token); simpl; [|by intros [= <- <- <-]].
  destruct (memory.ClaimNextGame e1 h s clientID) as [[h1 s1] r1] eqn:Hc1.
  pose proof (claim_tracks _ _ _ _ _ _ _ _ _ _ _ Ht Hc1) as Ht1.
  destruct r1 as [[g hist] | err |]; [by intros [= <- <- <-]| |
                                       by intros [= <- <- <-]].
  destruct (bool_decide (err = ErrNoGamesAvailable)); simpl;
    [|by intros [= <- <- <-]].
  destruct (memory.CreateWaitingBatch e2 h1 s1 batchSize)
    as [[h2 s2] r2] eqn:Hb.
  pose proof (batch_tracks _ _ _ _ _ _ _ _ _ _ _ Ht1 Hfresh Hb) as Ht2.
  destruct r2 as [u | ce |]; [|by intros [= <- <- <-] ..].
  destruct (memory.ClaimNextGame e3 h2 s2 clientID) as [[h3 s3] r3] eqn:Hc3.
  pose proof (claim_tracks _ _ _ _ _ _ _ _ _ _ _ Ht2 Hc3) as Ht3.
  destruct r3 as [[g hist] | err' |]; by intros [= <- <- <-].
Qed.

(** A panic of the in-memory [PersistMove] either changed nothing or came
    from a move string shorter than four bytes. *)
Lemma memory_PersistMove_panic (h h' : Heap CG) (s s' : memory.Store)
      (gameID clientID : UUID) (newGame : ptr) (rec : MoveRecord) (ply : Z) :
  memory.PersistMove h s gameID clientID newGame rec ply = (h', s', Panic) ->
  (h' = h ∧ s' = s) ∨ GoString.split_uci (rec_UCI rec) = None.
Proof.
  unfold memory.PersistMove. intros Hp.
  repeat case_match; simplify_eq; tauto.
Qed.

(** A move submission advances the tracked game by one move when it is
    accepted for it, and leaves it as it is otherwise. *)
Lemma SubmitMove_tracks (fen0 : string) (ply0 : Z) (gid : UUID) (n : nat)
      (rl : ports.RateLimiter) (e1 e2 : memory.Env) (now : Time)
      (recID : UUID) (h h' : Heap CG) (s s' : memory.Store)
      (ip token : string) (gameID clientID : UUID)
      (req : usecase.SubmitMoveRequest)
      (r : outcome usecase.SubmitMoveResult) :
  spec.tracks fen0 ply0 gid n h s ->
  usecase.SubmitMove memory_GameStore rl e1 e2 now recID h s ip token
    gameID clientID req = (h', s', r) ->
  spec.tracks fen0 ply0 gid
    (if service.accepted (E := memory.Env) gid
          (service.SubmitMoveReq ip token gameID clientID req now recID)
          (service.SubmitMoveResp r)
     then S n else n) h' s'.
Proof.
  intros Ht. unfold usecase.SubmitMove. simpl.
  destruct (rl ip token); simpl; [|by intros [= <- <- <-]].
  unfold memory.GetByID.
  destruct (memory.games s !! gameID) as [g|] eqn:Hg;
    [|by intros [= <- <- <-]].
  destruct (h !! g) as [G|] eqn:HG; [|by intros [= <- <- <-]].
  destruct (decide (StateVersion G ≠ usecase.ExpectedVersion req));
    [by intros [= <- <- <-]|].
  destruct (ApplyMove h g (usecase.req_UCI req) now recID)
    as [h2 [[newGame rec] | err |]] eqn:Happ.
  2,3: pose proof (ApplyMove_heap h g (usecase.req_UCI req) now recID)
      as [l Hl]; rewrite Happ in Hl; simpl in Hl; subst h2;
    intros [= <- <- <-]; by apply tracks_heap_ext.
  apply ApplyMove_inv in Happ
    as (G' & f & cg & HG' & Hnt & Hu & Hf & Hm & -> & -> & ->).
  rewrite HG in HG'. injection HG' as <-.
  set (NG := mkGame _ _ _ _ _ _ _ _ _ _ _ _).
  rewrite (list_lookup_middle h [] NG (List.length h) eq_refl).
  destruct (memory.PersistMove (h ++ [NG]) s gameID clientID (List.length h)
              _ _) as [[h3 s3] [hist | err |]] eqn:Hp.
  - (* committed *)
    apply memory_PersistMove_ok in Hp
      as (cur & C & NG' & fromSq & toSq & promotion & -> & Ha & Hmv & Hg'
          & HC & HNG' & Hv & Hsp & Hh & ->).
    rewrite (list_lookup_middle h [] NG (List.length h) eq_refl).
    intros [= <- <- <-]. simpl.
    rewrite Hg in Hg'. injection Hg' as <-.
    destruct Ht as (Hwf & pt & Gt & Hgt & HGt & Hvt & Hpt & Hlen & Hply & Hrep).
    destruct (Hwf _ _ Hg) as (G0 & HG0 & Hid).
    rewrite HG in HG0. injection HG0 as <-.
    assert (spec.wf_memory (h ++ [NG])
              (memory.mkStore (<[gameID := List.length h]> (memory.games s))
                 (memory.assigned s)
                 (memory.add_member (memory.moved s) gameID clientID)
                 (<[gameID := hist]> (memory.history s)))) as Hwf'.
    { intros k p. simpl. destruct (decide (gameID = k)) as [<- | Hne].
      - rewrite lookup_insert_eq. intros [= <-]. exists NG.
        split; [by apply list_lookup_middle|done].
      - rewrite lookup_insert_ne by done. intros Hk.
        destruct (Hwf _ _ Hk) as (Gk & HGk & Hidk). exists Gk.
        split; [by apply lookup_app_l_Some|done]. }
    destruct (bool_decide (gameID = gid)) eqn:Hgid.
    + apply bool_decide_eq_true in Hgid. subst gid.
      rewrite Hg in Hgt. injection Hgt as <-.
      rewrite HG in HGt. injection HGt as <-.
      split; [done|]. exists (List.length h), NG.
      split; [simpl; by rewrite lookup_insert_eq|].
      split; [by apply list_lookup_middle|].
      assert (memory.history_of
                (memory.mkStore (<[gameID := List.length h]> (memory.games s))
                   (memory.assigned s)
                   (memory.add_member (memory.moved s) gameID clientID)
                   (<[gameID := hist]> (memory.history s))) gameID = hist)
        as Hhist by (unfold memory.history_of; simpl;
                     by rewrite lookup_insert_eq).
      rewrite Hhist.
      split.
      { subst NG. simpl. rewrite Hvt. unfold GoInt.add.
        rewrite wrap_add_l. f_equal. lia. }
      split.
      { subst NG. simpl. rewrite Hpt. unfold GoInt.add.
        rewrite wrap_add_l. f_equal. lia. }
      split; [rewrite Hh, length_app; simpl; lia|].
      split.
      { intros i it. rewrite Hh. intros Hi.
        apply lookup_app_Some in Hi as [Hi | [Hge Hi]]; [by apply Hply|].
        rewrite Hlen in *.
        destruct (i - n)%nat as [|j] eqn:Hj; [|done].
        injection Hi as <-. simpl.
        subst NG. simpl. rewrite Hpt. unfold GoInt.sub, GoInt.add.
        rewrite wrap_add_l.
        replace (GoInt.wrap (ply0 + Z.of_nat n + 1) - 1)
          with (GoInt.wrap (ply0 + Z.of_nat n + 1) + -1) by lia.
        rewrite wrap_add_l. f_equal. lia. }
      rewrite Hh.
      apply (replays_app fen0 (FEN G)); [done|done|].
      simpl. unfold spec.replay_step. rewrite Hf, Hm. done.
    + apply bool_decide_eq_false in Hgid.
      split; [done|]. exists pt, Gt.
      split; [simpl; by rewrite lookup_insert_ne|].
      split; [by apply lookup_app_l_Some|].
      assert (memory.history_of
                (memory.mkStore (<[gameID := List.length h]> (memory.games s))
                   (memory.assigned s)
                   (memory.add_member (memory.moved s) gameID clientID)
                   (<[gameID := hist]> (memory.history s))) gid
              = memory.history_of s gid)
        as Hhist by (unfold memory.history_of; simpl;
                     by rewrite lookup_insert_ne).
      rewrite Hhist. done.
  - (* rejected by the store *)
    apply memory_PersistMove_fail in Hp as (-> & -> & _).
    intros [= <- <- <-]. by apply tracks_heap_ext.
  - (* panic *)
    apply memory_PersistMove_panic in Hp as [[-> ->] | Hsp].
    + intros [= <- <- <-]. by apply tracks_heap_ext.
    + simpl in Hsp. destruct (valid_uci_splits _ Hu) as [x Hx]. congruence.
Qed.

Lemma serve_tracks (fen0 : string) (ply0 : Z) (gid : UUID) (n : nat)
      (rl : ports.RateLimiter) (batchSize : Z) (req : service.Request memory.Env)
      (h h' : Heap CG) (s s' : memory.Store) (resp : service.Response) :
  spec.tracks fen0 ply0 gid n h s ->
  service.no_collision gid req ->
  service.serve memory_GameStore rl batchSize service.no_env h s req = (h', s', resp) ->
  spec.tracks fen0 ply0 gid
    (if service.accepted gid req resp then S n else n) h' s'.
Proof.
  intros Ht Hfresh. destruct req as [ip token c e1 e2 e3 |
                                     ip token gameID c rq now recID]; simpl.
  - destruct (usecase.GetNext memory_GameStore rl batchSize e1 e2 e3 h s ip
                token c) as [[h1 s1] r] eqn:Hn.
    intros [= <- <- <-]. by eapply GetNext_tracks.
  - destruct (usecase.SubmitMove memory_GameStore rl service.no_env
                service.no_env now recID h s ip token gameID c rq)
      as [[h1 s1] r] eqn:Hs.
    intros [= <- <- <-].
    by apply (SubmitMove_tracks _ _ _ _ _ _ _ _ _ _ _ _ _ _ _ _ _ _ _ Ht Hs).
Qed.

Lemma run_tracks (fen0 : string) (ply0 : Z) (gid : UUID)
      (rl : ports.RateLimiter) (batchSize : Z) (reqs : list (service.Request memory.Env)) :
  ∀ (n : nat) (h h' : Heap CG) (s s' : memory.Store) (N : nat),
    spec.tracks fen0 ply0 gid n h s ->
    Forall (service.no_collision gid) reqs ->
    service.run memory_GameStore rl batchSize service.no_env gid reqs h s = (h', s', N) ->
    spec.tracks fen0 ply0 gid (n + N) h' s'.
Proof.
  induction reqs as [|r rest IH]; intros n h h' s s' N Ht Hall; simpl.
  - intros [= <- <- <-]. by rewrite Nat.add_0_r.
  - apply Forall_cons in Hall as [Hr Hrest].
    destruct (service.serve memory_GameStore rl batchSize service.no_env h s r) as [[h1 s1] resp] eqn:Hs.
    destruct (service.run memory_GameStore rl batchSize service.no_env gid rest h1 s1) as [[h2 s2] m] eqn:Hrun.
    intros [= <- <- <-].
    pose proof (serve_tracks _ _ _ _ _ _ _ _ _ _ _ _ Ht Hr Hs) as Ht1.
    pose proof (IH _ _ _ _ _ _ Ht1 Hrest Hrun) as Ht2.
    destruct (service.accepted gid r resp); simpl in *.
    + by replace (n + S m)%nat with (S n + m)%nat by lia.
    + done.
Qed.

(** *** The same over the transactional store *)

Lemma insert_by_ply_last (r : postgres.MoveRow) (l : list postgres.MoveRow) :
  Forall (fun x => postgres.m_ply x <= postgres.m_ply r) l ->
  postgres.insert_by_ply r l = l ++ [r].
Proof.
  induction l as [|x rest IH]; intros Hall; simpl; [done|].
  apply Forall_cons in Hall as [Hx Hrest].
  destruct (postgres.m_ply r <? postgres.m_ply x) eqn:Hlt.
  - apply Z.ltb_lt in Hlt. lia.
  - by rewrite IH.
Qed.

(** Rows whose plies ascend in insertion order come back in that order. *)
Lemma sort_by_ply_ascending (base : Z) (l : list postgres.MoveRow) :
  (∀ i m, l !! i = Some m -> postgres.m_ply m = base + Z.of_nat i) ->
  postgres.sort_by_ply l = l.
Proof.
  unfold postgres.sort_by_ply.
  induction l as [|x l IH] using rev_ind; intros Hply; [done|].
  rewrite reverse_app. simpl. rewrite IH.
  - apply insert_by_ply_last. apply Forall_forall. intros y Hy.
    apply list_elem_of_lookup in Hy as [i Hi].
    rewrite (Hply i y) by (by apply lookup_app_l_Some).
    rewrite (Hply (List.length l) x) by (by apply list_lookup_middle).
    apply lookup_lt_Some in Hi. lia.
  - intros i m Hi. apply Hply. by apply lookup_app_l_Some.
Qed.

(** A claim and a batch leave the version, ply count and position of every
    row, and the moves, as they were. *)
Lemma postgres_ClaimNextGame_rows (e : postgres.Env) (h h' : Heap CG)
      (db db' : postgres.DB) (clientID : UUID)
      (r : outcome (ptr * list MoveHistoryItem)) :
  postgres.ClaimNextGame e h db clientID = (h', db', r) ->
  postgres.moves db' = postgres.moves db
  ∧ ∀ gid row, postgres.games db !! gid = Some row ->
      ∃ row', postgres.games db' !! gid = Some row'
              ∧ postgres.state_version row' = postgres.state_version row
              ∧ postgres.ply_count row' = postgres.ply_count row
              ∧ postgres.fen row' = postgres.fen row.
Proof.
  unfold postgres.ClaimNextGame.
  destruct (postgres.queryClaimNextGame db e clientID) as [[id r0]|];
    [|intros [= <- <- <-]; split; [done|]; intros; by eexists].
  simpl.
  destruct (bool_decide (is_Some (postgres.game_players db !! (id, clientID))));
    [intros [= <- <- <-]; split; [done|]; intros; by eexists|].
  intros [= <- <- <-]. unfold postgres.exec_ActivateGame. simpl.
  destruct (postgres.games db !! id) as [r1|] eqn:Hid;
    [|split; [done|]; intros; by eexists].
  destruct (String.eqb (postgres.status r1) "waiting");
    [|split; [done|]; intros; by eexists].
  split; [done|]. intros gid row Hrow. simpl.
  destruct (decide (id = gid)) as [<- | Hne].
  - rewrite lookup_insert_eq. rewrite Hid in Hrow. injection Hrow as <-.
    by eexists.
  - rewrite lookup_insert_ne by done. by eexists.
Qed.

Lemma postgres_batch_loop_rows (e : postgres.Env) (n i : nat)
      (db : postgres.DB) :
  postgres.moves (postgres.batch_loop e n i db) = postgres.moves db
  ∧ ∀ gid row, postgres.games db !! gid = Some row ->
               postgres.games (postgres.batch_loop e n i db) !! gid = Some row.
Proof.
  revert i db. induction n as [|n IH]; intros i db; simpl; [done|].
  destruct (IH (S i) (postgres.exec_InsertWaiting db (postgres.new_uuid e i)
                        (postgres.now e))) as [Hm Hg].
  unfold postgres.exec_InsertWaiting in *.
  destruct (postgres.games db !! postgres.new_uuid e i) as [r0|] eqn:Hid;
    [done|].
  split; [by rewrite Hm|].
  intros gid row Hrow. apply Hg. simpl.
  rewrite lookup_insert_ne; [done|]. intros <-. congruence.
Qed.

Lemma tracks_postgres_rows (fen0 : string) (ply0 : Z) (gid : UUID) (n : nat)
      (db db' : postgres.DB) :
  spec.tracks_postgres fen0 ply0 gid n db ->
  postgres.moves db' = postgres.moves db ->
  (∀ row, postgres.games db !! gid = Some row ->
     ∃ row', postgres.games db' !! gid = Some row'
             ∧ postgres.state_version row' = postgres.state_version row
             ∧ postgres.ply_count row' = postgres.ply_count row
             ∧ postgres.fen row' = postgres.fen row) ->
  spec.tracks_postgres fen0 ply0 gid n db'.
Proof.
  intros (row & Hg & Hv & Hp & Hlen & Hply & Hrep) Hm Hrows.
  destruct (Hrows row Hg) as (row' & Hg' & Hv' & Hp' & Hf').
  exists row'. unfold spec.moves_of in *. rewrite Hm, Hv', Hp', Hf'. done.
Qed.

Lemma GetNext_tracks_postgres (fen0 : string) (ply0 : Z) (gid : UUID)
      (n : nat) (rl : ports.RateLimiter) (batchSize : Z)
      (e1 e2 e3 : postgres.Env) (h h' : Heap CG) (db db' : postgres.DB)
      (ip token : string) (clientID : UUID)
      (r : outcome usecase.NextGameResult) :
  spec.tracks_postgres fen0 ply0 gid n db ->
  usecase.GetNext postgres_GameStore rl batchSize e1 e2 e3 h db ip token
    clientID = (h', db', r) ->
  spec.tracks_postgres fen0 ply0 gid n db'.
Proof.
  intros Ht. unfold usecase.GetNext. simpl.
  destruct (rl ip token); simpl; [|by intros [= <- <- <-]].
  destruct (postgres.ClaimNextGame e1 h db clientID) as [[h1 db1] r1] eqn:Hc1.
  destruct (postgres_ClaimNextGame_rows _ _ _ _ _ _ _ Hc1) as [Hm1 Hr1].
  pose proof (tracks_postgres_rows _ _ _ _ _ _ Ht Hm1 (Hr1 gid)) as Ht1.
  destruct r1 as [[g hist] | err |]; [by intros [= <- <- <-]| |
                                       by intros [= <- <- <-]].
  destruct (bool_decide (err = ErrNoGamesAvailable)); simpl;
    [|by intros [= <- <- <-]].
  unfold postgres.CreateWaitingBatch.
  destruct (postgres_batch_loop_rows e2 (Z.to_nat batchSize) 0 db1)
    as [Hm2 Hr2].
  assert (spec.tracks_postgres fen0 ply0 gid n
            (postgres.batch_loop e2 (Z.to_nat batchSize) 0 db1)) as Ht2.
  { apply (tracks_postgres_rows _ _ _ _ _ _ Ht1 Hm2).
    intros row Hrow. exists row. split; [by apply Hr2|done]. }
  destruct (postgres.ClaimNextGame e3 h1 _ clientID) as [[h3 db3] r3] eqn:Hc3.
  destruct (postgres_ClaimNextGame_rows _ _ _ _ _ _ _ Hc3) as [Hm3 Hr3].
  pose proof (tracks_postgres_rows _ _ _ _ _ _ Ht2 Hm3 (Hr3 gid)) as Ht3.
  destruct r3 as [[g hist] | err' |]; by intros [= <- <- <-].
Qed.

Lemma SubmitMove_tracks_postgres (fen0 : string) (ply0 : Z) (gid : UUID)
      (n : nat) (rl : ports.RateLimiter) (e1 e2 : postgres.Env) (now : Time)
      (recID : UUID) (h h' : Heap CG) (db db' : postgres.DB)
      (ip token : string) (gameID clientID : UUID)
      (req : usecase.SubmitMoveRequest)
      (r : outcome usecase.SubmitMoveResult) :
  spec.tracks_postgres fen0 ply0 gid n db ->
  usecase.SubmitMove postgres_GameStore rl e1 e2 now recID h db ip token
    gameID clientID req = (h', db', r) ->
  spec.tracks_postgres fen0 ply0 gid
    (if service.accepted (E := postgres.Env) gid
          (service.SubmitMoveReq ip token gameID clientID req now recID)
          (service.SubmitMoveResp r)
     then S n else n) db'.
Proof.
  intros Ht. unfold usecase.SubmitMove. simpl.
  destruct (rl ip token); simpl; [|by intros [= <- <- <-]].
  unfold postgres.GetByID.
  destruct (postgres.games db !! gameID) as [row|] eqn:Hrow;
    [|by intros [= <- <- <-]].
  simpl.
  rewrite (list_lookup_middle h [] (postgres.scanGame gameID row)
             (List.length h) eq_refl).
  set (G := postgres.scanGame gameID row).
  destruct (decide (StateVersion G ≠ usecase.ExpectedVersion req));
    [by intros [= <- <- <-]|].
  destruct (ApplyMove (h ++ [G]) (List.length h) (usecase.req_UCI req) now
              recID) as [h2 [[newGame rec] | err |]] eqn:Happ;
    [|by intros [= <- <- <-] ..].
  apply ApplyMove_inv in Happ
    as (G' & f & cg & HG' & Hnt & Hu & Hf & Hm & -> & -> & ->).
  rewrite (list_lookup_middle h [] G (List.length h) eq_refl) in HG'.
  injection HG' as <-.
  set (NG := mkGame _ _ _ _ _ _ _ _ _ _ _ _).
  rewrite (list_lookup_middle (h ++ [G]) [] NG _ eq_refl).
  destruct (postgres.PersistMove ((h ++ [G]) ++ [NG]) db gameID clientID _ _ _)
    as [[h3 db3] [hist | err |]] eqn:Hp.
  - (* committed *)
    apply postgres_PersistMove_ok in Hp
      as (p & row' & NG' & fromSq & toSq & promotion & -> & Hgp & Hmv & Hg'
          & HNG' & Hv & Hsp & Hid & -> & ->).
    rewrite (list_lookup_middle (h ++ [G]) [] NG _ eq_refl) in HNG'.
    injection HNG' as <-.
    rewrite (list_lookup_middle (h ++ [G]) [] NG _ eq_refl).
    intros [= <- <- <-]. simpl.
    rewrite Hrow in Hg'. injection Hg' as <-.
    destruct Ht as (rowt & Hgt & Hvt & Hpt & Hlen & Hply & Hrep).
    unfold spec.tracks_postgres, spec.moves_of. simpl.
    rewrite filter_app.
    destruct (bool_decide (gameID = gid)) eqn:Hgid.
    + apply bool_decide_eq_true in Hgid. subst gid.
      rewrite Hrow in Hgt. injection Hgt as <-.
      rewrite filter_cons_True by done. rewrite filter_nil.
      eexists. split; [by rewrite lookup_insert_eq|]. simpl.
      split.
      { rewrite Hvt. unfold GoInt.add. rewrite wrap_add_l. f_equal. lia. }
      split.
      { rewrite Hpt. unfold GoInt.add. rewrite wrap_add_l. f_equal. lia. }
      split; [rewrite length_app; simpl; unfold spec.moves_of in Hlen; lia|].
      split.
      { intros i m Hi.
        apply lookup_app_Some in Hi as [Hi | [Hge Hi]]; [by apply Hply|].
        unfold spec.moves_of in Hlen. rewrite Hlen in *.
        destruct (i - n)%nat as [|j] eqn:Hj; [|done].
        injection Hi as <-. simpl. rewrite Hpt. unfold GoInt.sub, GoInt.add.
        rewrite wrap_add_l.
        replace (GoInt.wrap (ply0 + Z.of_nat n + 1) - 1)
          with (GoInt.wrap (ply0 + Z.of_nat n + 1) + -1) by lia.
        rewrite wrap_add_l. f_equal. lia. }
      rewrite fmap_app.
      apply (replays_app fen0 (postgres.fen row)); [done|done|].
      simpl. unfold spec.replay_step. simpl in Hf. rewrite Hf, Hm. done.
    + apply bool_decide_eq_false in Hgid.
      rewrite filter_cons_False by (simpl; congruence).
      rewrite filter_nil, app_nil_r.
      exists rowt. split; [by rewrite lookup_insert_ne|done].
  - (* rejected by the store *)
    apply postgres_PersistMove_rollback in Hp as [-> Hdb].
    rewrite (Hdb ltac:(done)). by intros [= <- <- <-].
  - (* panic *)
    apply postgres_PersistMove_rollback in Hp as [-> Hdb].
    rewrite (Hdb ltac:(done)). by intros [= <- <- <-].
Qed.

Lemma serve_tracks_postgres (fen0 : string) (ply0 : Z) (gid : UUID) (n : nat)
      (rl : ports.RateLimiter) (batchSize : Z)
      (req : service.Request postgres.Env) (h h' : Heap CG)
      (db db' : postgres.DB) (resp : service.Response) :
  spec.tracks_postgres fen0 ply0 gid n db ->
  service.serve postgres_GameStore rl batchSize service.no_env_pg h db req
  = (h', db', resp) ->
  spec.tracks_postgres fen0 ply0 gid
    (if service.accepted gid req resp then S n else n) db'.
Proof.
  intros Ht. destruct req as [ip token c e1 e2 e3 |
                              ip token gameID c rq now recID]; simpl.
  - destruct (usecase.GetNext postgres_GameStore rl batchSize e1 e2 e3 h db ip
                token c) as [[h1 db1] r] eqn:Hn.
    intros [= <- <- <-]. by eapply GetNext_tracks_postgres.
  - destruct (usecase.SubmitMove postgres_GameStore rl service.no_env_pg
                service.no_env_pg now recID h db ip token gameID c rq)
      as [[h1 db1] r] eqn:Hs.
    intros [= <- <- <-].
    by apply (SubmitMove_tracks_postgres _ _ _ _ _ _ _ _ _ _ _ _ _ _ _ _ _ _
                _ Ht Hs).
Qed.

Lemma run_tracks_postgres (fen0 : string) (ply0 : Z) (gid : UUID)
      (rl : ports.RateLimiter) (batchSize : Z)
      (reqs : list (service.Request postgres.Env)) :
  ∀ (n : nat) (h h' : Heap CG) (db db' : postgres.DB) (N : nat),
    spec.tracks_postgres fen0 ply0 gid n db ->
    service.run postgres_GameStore rl batchSize service.no_env_pg gid reqs h db
    = (h', db', N) ->
    spec.tracks_postgres fen0 ply0 gid (n + N) db'.
Proof.
  induction reqs as [|r rest IH]; intros n h h' db db' N Ht; simpl.
  - intros [= <- <- <-]. by rewrite Nat.add_0_r.
  - destruct (service.serve postgres_GameStore rl batchSize service.no_env_pg
                h db r) as [[h1 db1] resp] eqn:Hs.
    destruct (service.run postgres_GameStore rl batchSize service.no_env_pg
                gid rest h1 db1) as [[h2 db2] m] eqn:Hrun.
    intros [= <- <- <-].
    pose proof (serve_tracks_postgres _ _ _ _ _ _ _ _ _ _ _ _ Ht Hs) as Ht1.
    pose proof (IH _ _ _ _ _ _ Ht1 Hrun) as Ht2.
    destruct (service.accepted gid r resp); simpl in *.
    + by replace (n + S m)%nat with (S n + m)%nat by lia.
    + done.
Qed.

(** The in-memory store after [N] accepted moves of a game stored as
    created. *)
Lemma accepted_moves_replay_memory (rl : ports.RateLimiter) (batchSize : Z)
        (gid : UUID) (reqs : list (service.Request memory.Env)) (h h' : Heap CG)
        (s s' : memory.Store) (p : ptr) (G0 : Game CG) (N : nat) :
  spec.wf_memory h s ->
  memory.games s !! gid = Some p -> h !! p = Some G0 ->
  StateVersion G0 = 0 -> memory.history_of s gid = [] ->
  Forall (service.no_collision gid) reqs ->
  service.run memory_GameStore rl batchSize service.no_env gid reqs h s = (h', s', N) ->
  0 <= PlyCount G0 ->
  PlyCount G0 + Z.of_nat N <= GoInt.max_int ->
  ∃ p' G,
    memory.games s' !! gid = Some p' ∧ h' !! p' = Some G
    ∧ StateVersion G = Z.of_nat N
    ∧ PlyCount G = PlyCount G0 + Z.of_nat N
    ∧ List.length (memory.history_of s' gid) = N
    ∧ (∀ i it, memory.history_of s' gid !! i = Some it ->
               Ply it = PlyCount G0 + Z.of_nat i)
    ∧ spec.chained (FEN G0) (memory.history_of s' gid)
    ∧ FEN G = spec.last_position (FEN G0) (memory.history_of s' gid)
    ∧ spec.replay (FEN G0) (UCI <$> memory.history_of s' gid)
      = Some (FEN G).
Proof.
  intros Hwf Hg HG Hv Hh Hall Hrun Hr Hbound.
  assert (spec.tracks (FEN G0) (PlyCount G0) gid 0 h s) as Ht.
  { split; [done|]. exists p, G0. rewrite Hh. simpl.
    split; [done|]. split; [done|].
    split; [rewrite Hv; by vm_compute|].
    split; [rewrite Z.add_0_r; symmetry; apply wrap_in_range;
            unfold GoInt.in_range, GoInt.min_int, GoInt.max_int in *; lia|].
    split; [done|]. split; [intros i it Hi; by destruct i|done]. }
  pose proof (run_tracks _ _ _ _ _ _ _ _ _ _ _ _ Ht Hall Hrun)
    as (Hwf' & p' & G & Hg' & HG' & Hv' & Hp' & Hlen & Hply & Hrep).
  simpl in *. unfold GoInt.in_range, GoInt.min_int, GoInt.max_int in *.
  exists p', G. split; [done|]. split; [done|].
  split; [rewrite Hv'; apply wrap_in_range;
          unfold GoInt.in_range, GoInt.min_int, GoInt.max_int; lia|].
  split; [rewrite Hp'; apply wrap_in_range;
          unfold GoInt.in_range, GoInt.min_int, GoInt.max_int; lia|].
  split; [done|].
  split.
  { intros i it Hi. rewrite (Hply i it Hi). apply wrap_in_range.
    apply lookup_lt_Some in Hi. rewrite Hlen in Hi.
    unfold GoInt.in_range, GoInt.min_int, GoInt.max_int. lia. }
  split; [by eapply replays_chained|].
  split; [by apply replays_last|by apply replays_replay].
Qed.

(** The transactional store after [N] accepted moves of a game stored as
    created; the history is what [fetchMoveHistory] returns. *)
Lemma accepted_moves_replay_postgres (rl : ports.RateLimiter) (batchSize : Z)
      (gid : UUID) (reqs : list (service.Request postgres.Env))
      (h h' : Heap CG) (db db' : postgres.DB) (row : postgres.GameRow)
      (N : nat) :
  postgres.games db !! gid = Some row ->
  postgres.state_version row = 0 -> spec.moves_of db gid = [] ->
  service.run postgres_GameStore rl batchSize service.no_env_pg gid reqs h db
  = (h', db', N) ->
  0 <= postgres.ply_count row ->
  postgres.ply_count row + Z.of_nat N <= GoInt.max_int ->
  ∃ row',
    postgres.games db' !! gid = Some row'
    ∧ postgres.state_version row' = Z.of_nat N
    ∧ postgres.ply_count row' = postgres.ply_count row + Z.of_nat N
    ∧ List.length (postgres.fetchMoveHistory db' gid) = N
    ∧ (∀ i it, postgres.fetchMoveHistory db' gid !! i = Some it ->
               Ply it = postgres.ply_count row + Z.of_nat i)
    ∧ spec.chained (postgres.fen row) (postgres.fetchMoveHistory db' gid)
    ∧ postgres.fen row'
      = spec.last_position (postgres.fen row)
          (postgres.fetchMoveHistory db' gid)
    ∧ spec.replay (postgres.fen row)
        (UCI <$> postgres.fetchMoveHistory db' gid)
      = Some (postgres.fen row').
Proof.
  intros Hg Hv Hh Hrun Hr Hbound.
  assert (spec.tracks_postgres (postgres.fen row) (postgres.ply_count row)
            gid 0 db) as Ht.
  { exists row. rewrite Hh. simpl. split; [done|].
    split; [rewrite Hv; by vm_compute|].
    split; [rewrite Z.add_0_r; symmetry; apply wrap_in_range;
            unfold GoInt.in_range, GoInt.min_int, GoInt.max_int in *; lia|].
    split; [done|]. split; [intros i it Hi; by destruct i|done]. }
  pose proof (run_tracks_postgres _ _ _ _ _ _ _ _ _ _ _ _ Ht Hrun)
    as (row' & Hg' & Hv' & Hp' & Hlen & Hply & Hrep).
  simpl in *.
  assert (∀ i m, spec.moves_of db' gid !! i = Some m ->
                 postgres.m_ply m = postgres.ply_count row + Z.of_nat i)
    as Hply'.
  { intros i m Hi. rewrite (Hply i m Hi). apply wrap_in_range.
    apply lookup_lt_Some in Hi. rewrite Hlen in Hi.
    unfold GoInt.in_range, GoInt.min_int, GoInt.max_int in *. lia. }
  assert (postgres.fetchMoveHistory db' gid
          = postgres.to_item <$> spec.moves_of db' gid) as Hfetch.
  { unfold postgres.fetchMoveHistory.
    change (filter (fun r => postgres.m_game_id r = gid) (postgres.moves db'))
      with (spec.moves_of db' gid).
    by rewrite (sort_by_ply_ascending (postgres.ply_count row)). }
  rewrite Hfetch.
  exists row'. split; [done|].
  split; [rewrite Hv'; apply wrap_in_range;
          unfold GoInt.in_range, GoInt.min_int, GoInt.max_int in *; lia|].
  split; [rewrite Hp'; apply wrap_in_range;
          unfold GoInt.in_range, GoInt.min_int, GoInt.max_int in *; lia|].
  split; [by rewrite length_fmap|].
  split.
  { intros i it Hi. apply list_lookup_fmap_Some in Hi as (m & -> & Hm).
    simpl. by apply Hply'. }
  split; [by eapply replays_chained|].
  split; [by apply replays_last|by apply replays_replay].
Qed.

(** C3. Take a game stored as created (version 0, no history) and serve
    any sequence of requests (over the in-memory store: a well-formed
    store, and batches that do not reuse the game's identifier).  With [N]
    the number of accepted moves for the game, and the counters within the
    range of [int]: its version is [N]; its history has [N] items whose
    plies ascend one by one; each item's position-before is the previous
    item's position-after, starting from the initial position; the stored
    position is the last item's position-after, and it is the replay of the
    recorded moves from the initial position.  This holds over both
    stores. *)
Theorem accepted_moves_replay (rl : ports.RateLimiter) (batchSize : Z)
        (gid : UUID) :
  (∀ (reqs : list (service.Request memory.Env)) (h h' : Heap CG)
     (s s' : memory.Store) (p : ptr) (G0 : Game CG) (N : nat),
     spec.wf_memory h s ->
     memory.games s !! gid = Some p -> h !! p = Some G0 ->
     StateVersion G0 = 0 -> memory.history_of s gid = [] ->
     Forall (service.no_collision gid) reqs ->
     service.run memory_GameStore rl batchSize service.no_env gid reqs h s
     = (h', s', N) ->
     0 <= PlyCount G0 ->
     PlyCount G0 + Z.of_nat N <= GoInt.max_int ->
     ∃ p' G,
       memory.games s' !! gid = Some p' ∧ h' !! p' = Some G
       ∧ StateVersion G = Z.of_nat N
       ∧ PlyCount G = PlyCount G0 + Z.of_nat N
       ∧ List.length (memory.history_of s' gid) = N
       ∧ (∀ i it, memory.history_of s' gid !! i = Some it ->
                  Ply it = PlyCount G0 + Z.of_nat i)
       ∧ spec.chained (FEN G0) (memory.history_of s' gid)
       ∧ FEN G = spec.last_position (FEN G0) (memory.history_of s' gid)
       ∧ spec.replay (FEN G0) (UCI <$> memory.history_of s' gid)
         = Some (FEN G))
  ∧ (∀ (reqs : list (service.Request postgres.Env)) (h h' : Heap CG)
       (db db' : postgres.DB) (row : postgres.GameRow) (N : nat),
       postgres.games db !! gid = Some row ->
       postgres.state_version row = 0 -> spec.moves_of db gid = [] ->
       service.run postgres_GameStore rl batchSize service.no_env_pg gid reqs
         h db = (h', db', N) ->
       0 <= postgres.ply_count row ->
       postgres.ply_count row + Z.of_nat N <= GoInt.max_int ->
       ∃ row',
         postgres.games db' !! gid = Some row'
         ∧ postgres.state_version row' = Z.of_nat N
         ∧ postgres.ply_count row' = postgres.ply_count row + Z.of_nat N
         ∧ List.length (postgres.fetchMoveHistory db' gid) = N
         ∧ (∀ i it, postgres.fetchMoveHistory db' gid !! i = Some it ->
                    Ply it = postgres.ply_count row + Z.of_nat i)
         ∧ spec.chained (postgres.fen row) (postgres.fetchMoveHistory db' gid)
         ∧ postgres.fen row'
           = spec.last_position (postgres.fen row)
               (postgres.fetchMoveHistory db' gid)
         ∧ spec.replay (postgres.fen row)
             (UCI <$> postgres.fetchMoveHistory db' gid)
           = Some (postgres.fen row')).
Proof.
  split.
  - intros. by eapply accepted_moves_replay_memory.
  - intros. by eapply accepted_moves_replay_postgres.
Qed.

End Tracking.

(** ** A panic in the in-memory store

    [PersistMove] slices [rec.UCI] after it has replaced the game and set
    the moved flag: a move record shorter than four bytes makes it panic
    with both written and no history item.  The use case only passes move
    strings that passed [isValidUCISyntax], see [valid_uci_splits]. *)

Lemma memory_PersistMove_short_uci :
  ∃ s',
    memory.PersistMove (examples.heap1 ++ [examples.after_e2e4])
      examples.store1 1 examples.client 1
      (game.mkMoveRecord 55 "e2" "start" "start e2e4" 100) 0
    = (examples.heap1 ++ [examples.after_e2e4], s', Panic)
    ∧ memory.games s' !! 1%N = Some 1%nat
    ∧ memory.member (memory.moved s') 1 examples.client = true
    ∧ memory.history_of s' 1 = [].
Proof.
  eexists. split; [vm_compute; reflexivity|]. split; [reflexivity|].
  split; reflexivity.
Qed.

(** ** The theorems at concrete inputs *)

Lemma ApplyMove_rejections_witness :
  snd (game.ApplyMove examples.heap1 0 "zzzz" 100 55) = Fail ErrInvalidUCI
  ∧ snd (game.ApplyMove examples.heap1 0 "e2e5" 100 55) = Fail ErrIllegalMove.
Proof.
  split.
  - apply (proj1 (proj2 (ApplyMove_rejections (eng := toy.engine)
                           examples.heap1 0 _ "zzzz" 100 55 eq_refl))).
    + by right.
    + intros (_ & (c & Hc & Hf) & _). injection Hc as <-.
      apply file_range in Hf. vm_compute in Hf. discriminate.
  - apply (proj2 (proj2 (ApplyMove_rejections (eng := toy.engine)
                           examples.heap1 0 _ "e2e5" 100 55 eq_refl))).
    + by right.
    + apply isValidUCISyntax_spec. reflexivity.
    + by eexists.
    + intros (f & cg & Hf & Hm). vm_compute in Hf. injection Hf as <-.
      vm_compute in Hm. discriminate.
Defined.

Lemma ApplyMove_successor_witness :
  ∃ NG : game.Game toy.CG,
    (examples.heap1 ++ [examples.after_e2e4]) !! 1%nat = Some NG
    ∧ game.FEN NG = "start e2e4"%string
    ∧ game.SideToMove NG = "black"%string
    ∧ game.PlyCount NG = 1 ∧ game.StateVersion NG = 1
    ∧ game.Status_ NG = game.StatusOngoing ∧ game.Result_ NG = None
    ∧ (examples.heap1 ++ [examples.after_e2e4]) !! 0%nat
      = Some (toy.fresh 1 game.StatusOngoing 10).
Proof.
  destruct (ApplyMove_successor (eng := toy.engine) examples.heap1
              (examples.heap1 ++ [examples.after_e2e4]) 0 1
              (toy.fresh 1 game.StatusOngoing 10) "e2e4" 100 55
              examples.rec_e2e4 eq_refl)
    as (f & cg & NG & Hf & Hm & Hnew & HNG & Hne & Hid & Hfen & Hwhite
        & Hblack & Hply & Hver & Hmate & Hdraw & Hnone & Hrecv & Hrest).
  - unfold GoInt.in_range, GoInt.min_int, GoInt.max_int. simpl. lia.
  - unfold GoInt.max_int. simpl. lia.
  - unfold GoInt.in_range, GoInt.min_int, GoInt.max_int. simpl. lia.
  - unfold GoInt.max_int. simpl. lia.
  - reflexivity.
  - vm_compute in Hf. injection Hf as <-.
    vm_compute in Hm. injection Hm as <-.
    destruct (Hnone eq_refl) as [Hst Hres].
    exists NG. split; [done|]. split; [exact Hfen|].
    split; [apply Hblack; discriminate|].
    split; [done|]. split; [done|]. split; [done|]. split; [done|]. done.
Defined.

Lemma examples_wf_fresh : spec.wf_memory examples.heap1 examples.store_fresh.
Proof.
  intros k p. unfold examples.store_fresh. simpl.
  destruct (decide (k = 1%N)) as [-> | Hne].
  - rewrite lookup_insert_eq. intros [= <-]. by eexists.
  - rewrite lookup_insert_ne by done. done.
Qed.



Lemma PersistMove_atomic_witness :
  (let out :=
     memory.PersistMove (examples.heap1 ++ [examples.after_e2e4])
       examples.store1 1 examples.client 1 examples.rec_e2e4 0 in
   memory.games (snd (fst out)) !! 1%N = Some 1%nat
   ∧ memory.member (memory.moved (snd (fst out))) 1 examples.client = true
   ∧ snd out = Ok (memory.history_of (snd (fst out)) 1))
  ∧ snd (fst (postgres.PersistMove (examples.heap1 ++ [examples.after_e2e4])
                examples.db1 1 examples.client2 1 examples.rec_e2e4 0))
    = examples.db1.
Proof.
  pose proof (PersistMove_atomic (CG := toy.CG)
                (examples.heap1 ++ [examples.after_e2e4]) examples.store1
                examples.db1 1 examples.client 1 examples.rec_e2e4 0)
    as [Hmem _].
  pose proof (PersistMove_atomic (CG := toy.CG)
                (examples.heap1 ++ [examples.after_e2e4]) examples.store1
                examples.db1 1 examples.client2 1 examples.rec_e2e4 0)
    as [_ Hpg].
  split.
  - destruct (memory.PersistMove _ _ _ _ _ _ _) as [[h' s'] [hist | e |]] eqn:E;
      [|vm_compute in E; discriminate ..].
    simpl. destruct Hmem as (_ & _ & Hg & _ & Hm & _ & Hh).
    by rewrite Hh.
  - destruct (postgres.PersistMove _ _ _ _ _ _ _) as [[h' db'] [hist | e |]];
      simpl; [|by destruct Hpg ..].
    destruct Hpg as (_ & _ & _ & (p & p' & Hp & _) & _).
    vm_compute in Hp. discriminate.
Defined.


Lemma PersistMove_compare_and_swap_witness :
  (∃ s1 hist1,
     memory.PersistMove (examples.heap1 ++ [examples.after_e2e4])
       examples.store1_two 1 examples.client 1 examples.rec_e2e4 0
     = (examples.heap1 ++ [examples.after_e2e4], s1, Ok hist1)
     ∧ memory.PersistMove (examples.heap1 ++ [examples.after_e2e4]) s1 1
         examples.client2 1 examples.rec_e2e4' 0
       = (examples.heap1 ++ [examples.after_e2e4], s1,
          Fail ErrVersionConflict))
  ∧ (∃ db1 hist1,
       postgres.PersistMove (examples.heap1 ++ [examples.after_e2e4])
         examples.db1_two 1 examples.client 1 examples.rec_e2e4 0
       = (examples.heap1 ++ [examples.after_e2e4], db1, Ok hist1)
       ∧ postgres.PersistMove (examples.heap1 ++ [examples.after_e2e4]) db1 1
           examples.client2 1 examples.rec_e2e4' 0
         = (examples.heap1 ++ [examples.after_e2e4], db1,
            Fail ErrVersionConflict)).
Proof.
  destruct (PersistMove_compare_and_swap (CG := toy.CG)
              (examples.heap1 ++ [examples.after_e2e4]) 1)
    as (_ & _ & Hmem & _ & _ & Hpg & _).
  split.
  - eexists _, _. split; [vm_compute; reflexivity|].
    refine (proj2 (Hmem examples.store1_two examples.client examples.client2
                     1%nat 1%nat examples.rec_e2e4 examples.rec_e2e4' 0 0
                     examples.after_e2e4 examples.after_e2e4 _ _ _
                     eq_refl eq_refl eq_refl _) _ _).
    + vm_compute. reflexivity.
    + vm_compute. reflexivity.
    + vm_compute. reflexivity.
  - eexists _, _. split; [vm_compute; reflexivity|].
    refine (proj2 (Hpg examples.db1_two examples.client examples.client2
                     1%nat 1%nat examples.rec_e2e4 examples.rec_e2e4' 0 0
                     examples.after_e2e4 examples.after_e2e4 _ _ _
                     eq_refl eq_refl eq_refl _)
              (postgres.mkPlayerRow false 10) _ _ _ _ _ _ _ _).
    + vm_compute. reflexivity.
    + vm_compute. reflexivity.
    + reflexivity.
    + simpl. lia.
    + vm_compute. intros Hin. apply list_elem_of_singleton in Hin.
      discriminate.
    + reflexivity.
    + reflexivity.
    + reflexivity.
    + reflexivity.
Defined.


Lemma GetNext_protocol_witness :
  ∃ h3 s3 res,
    usecase.GetNext (ports.Recorder (memory_GameStore (CG := toy.CG)))
      ports.AlwaysAllow 3 examples.env examples.env examples.env []
      (memory.empty, []) "ip" "tok" examples.client
    = (h3, (s3, [ports.CallClaimNextGame examples.client;
                 ports.CallCreateWaitingBatch 3;
                 ports.CallClaimNextGame examples.client]),
       Ok res).
Proof.
  destruct (GetNext_protocol (memory_GameStore (CG := toy.CG))
              ports.AlwaysAllow 3 examples.env examples.env examples.env []
              memory.empty "ip" "tok" examples.client eq_refl)
    as (_ & _ & Hretry & _).
  edestruct (Hretry [] memory.empty) as [Hok _].
  - vm_compute. reflexivity.
  - vm_compute. reflexivity.
  - eexists _, _, _. eapply Hok. vm_compute. reflexivity.
Defined.

Lemma SubmitMove_stale_version_witness :
  usecase.SubmitMove (ports.Recorder (memory_GameStore (CG := toy.CG)))
    ports.AlwaysAllow examples.env examples.env 100 55 examples.heap1
    (examples.store1, []) "ip" "tok" 1 examples.client
    (usecase.mkSubmitMoveRequest "zzzz" 5 None)
  = (examples.heap1, (examples.store1, [ports.CallGetByID 1]),
     Fail ErrVersionConflict).
Proof.
  apply (proj1 (SubmitMove_stale_version (memory_GameStore (CG := toy.CG))
                  ports.AlwaysAllow examples.env examples.env examples.heap1
                  examples.heap1 examples.store1 examples.store1 "ip" "tok" 1
                  examples.client 5 0 (toy.fresh 1 game.StatusOngoing 10)
                  eq_refl eq_refl eq_refl ltac:(simpl; lia))).
Defined.

Lemma accepted_moves_replay_witness :
  (∃ h' s',
     service.run memory_GameStore ports.AlwaysAllow 3 service.no_env 1
       examples.session examples.heap1 examples.store_fresh = (h', s', 1%nat)
     ∧ ∃ p' G,
         memory.games s' !! 1%N = Some p' ∧ h' !! p' = Some G
         ∧ game.StateVersion G = 1
         ∧ List.length (memory.history_of s' 1) = 1%nat
         ∧ spec.replay "start" (game.UCI <$> memory.history_of s' 1)
           = Some (game.FEN G))
  ∧ (∃ h' db',
       service.run (CG := toy.CG) postgres_GameStore ports.AlwaysAllow 3
         service.no_env_pg 1 examples.session_pg [] examples.db_fresh
       = (h', db', 1%nat)
       ∧ ∃ row',
           postgres.games db' !! 1%N = Some row'
           ∧ postgres.state_version row' = 1
           ∧ List.length (postgres.fetchMoveHistory db' 1) = 1%nat
           ∧ spec.replay "start"
               (game.UCI <$> postgres.fetchMoveHistory db' 1)
             = Some (postgres.fen row')).
Proof.
  destruct (accepted_moves_replay (eng := toy.engine) ports.AlwaysAllow 3 1)
    as [Hmem Hpg].
  split.
  - destruct (service.run memory_GameStore ports.AlwaysAllow 3 service.no_env
                1 examples.session examples.heap1 examples.store_fresh)
      as [[h' s'] N] eqn:Hrun.
    assert (N = 1%nat) as ->.
    { pose proof Hrun as Hc. vm_compute in Hc. by injection Hc as _ _ <-. }
    exists h', s'. split; [reflexivity|].
    destruct (Hmem examples.session examples.heap1 h' examples.store_fresh s'
                0%nat (toy.fresh 1 game.StatusOngoing 10) 1%nat
                examples_wf_fresh eq_refl eq_refl eq_refl eq_refl)
      as (p' & G & Hg & HG & Hv & Hp & Hlen & Hply & Hch & Hlast & Hrep).
    + repeat constructor; simpl; intros i; lia.
    + exact Hrun.
    + simpl. lia.
    + unfold GoInt.max_int. simpl. lia.
    + exists p', G. split; [exact Hg|]. split; [exact HG|]. done.
  - destruct (service.run (CG := toy.CG) postgres_GameStore ports.AlwaysAllow
                3 service.no_env_pg 1 examples.session_pg []
                examples.db_fresh) as [[h' db'] N] eqn:Hrun.
    assert (N = 1%nat) as ->.
    { pose proof Hrun as Hc. vm_compute in Hc. by injection Hc as _ _ <-. }
    exists h', db'. split; [reflexivity|].
    destruct (Hpg examples.session_pg [] h' examples.db_fresh db'
                (examples.row game.StatusWaiting 10) 1%nat
                eq_refl eq_refl eq_refl Hrun)
      as (row' & Hg & Hv & Hp & Hlen & Hply & Hch & Hlast & Hrep).
    + simpl. lia.
    + unfold GoInt.max_int. simpl. lia.
    + exists row'. split; [exact Hg|]. done.
Defined.
(** * Further properties of the code *)

(** ** Move strings and their slices *)

Lemma wellformed_uci_shape (uci : string) :
  spec.wellformed_uci uci ->
  ∃ f1 r1 f2 r2 rest,
    uci = String f1 (String r1 (String f2 (String r2 rest)))
    ∧ spec.is_file f1 ∧ spec.is_rank r1 ∧ spec.is_file f2 ∧ spec.is_rank r2
    ∧ (rest = EmptyString
       ∨ ∃ p, rest = String p EmptyString ∧ spec.is_promotion p).
Proof.
  intros (Hlen & (c0 & H0 & F0) & (c1 & H1 & F1) & (c2 & H2 & F2)
          & (c3 & H3 & F3) & Hp).
  destruct uci as [|a0 [|a1 [|a2 [|a3 rest]]]]; simpl in *;
    try (destruct Hlen; discriminate).
  injection H0 as ->. injection H1 as ->. injection H2 as ->.
  injection H3 as ->.
  exists c0, c1, c2, c3, rest. repeat split; try done.
  destruct rest as [|p [|q rest]]; simpl in *.
  - by left.
  - right. exists p. split; [done|]. by apply Hp.
  - destruct Hlen; discriminate.
Qed.

(** X1. A move string that [isValidUCISyntax] accepts is sliced by the
    stores without a panic: the from and to squares are board squares, the
    promotion is present exactly for a string of five bytes and is one of
    the four pieces, and the slices put together give the string back. *)
Theorem valid_uci_slices (uci : string) :
  game.isValidUCISyntax uci = true ->
  ∃ fromSq toSq promotion,
    GoString.split_uci uci = Some (fromSq, toSq, promotion)
    ∧ spec.is_square fromSq ∧ spec.is_square toSq
    ∧ (String.length uci = 4%nat <-> promotion = None)
    ∧ (∀ p, promotion = Some p ->
            ∃ c, p = String c EmptyString ∧ spec.is_promotion c)
    ∧ String.append fromSq (String.append toSq (default EmptyString promotion))
      = uci.
Proof.
  intros Hv. apply isValidUCISyntax_spec in Hv.
  destruct (wellformed_uci_shape uci Hv)
    as (f1 & r1 & f2 & r2 & rest & -> & F1 & R1 & F2 & R2 & Hrest).
  destruct Hrest as [-> | (p & -> & Hp)].
  - exists (String f1 (String r1 EmptyString)),
           (String f2 (String r2 EmptyString)), None.
    split; [done|].
    split; [by exists f1, r1|]. split; [by exists f2, r2|].
    split; [done|]. split; [discriminate|done].
  - exists (String f1 (String r1 EmptyString)),
           (String f2 (String r2 EmptyString)),
           (Some (String p EmptyString)).
    split; [done|].
    split; [by exists f1, r1|]. split; [by exists f2, r2|].
    split; [split; discriminate|].
    split; [|done]. intros q [= <-]. by exists p.
Qed.

Lemma valid_uci_slices_witness :
  ∃ fromSq toSq promotion,
    GoString.split_uci "e7e8q" = Some (fromSq, toSq, promotion)
    ∧ spec.is_square fromSq ∧ spec.is_square toSq
    ∧ (String.length "e7e8q" = 4%nat <-> promotion = None)
    ∧ (∀ p, promotion = Some p ->
            ∃ c, p = String c EmptyString ∧ spec.is_promotion c)
    ∧ String.append fromSq (String.append toSq (default EmptyString promotion))
      = "e7e8q"%string.
Proof. apply (valid_uci_slices "e7e8q"). reflexivity. Defined.



(** ** The rule engine: what an accepted move records *)

Section RuleEngineMore.
Context {CG : Type} {eng : chess.Engine CG}.
Import game.

(** X3. The move record and the successor of an accepted move agree: the
    record carries the given identifier, the move string (also the
    successor's last move), the receiver's position as position-before and
    the successor's as position-after, which is the replay of the move on
    the position-before; the record's creation time, the successor's
    update time and last-move time are the time of the call; identifier
    and creation time of the game are kept. *)
Theorem ApplyMove_record (h h' : Heap CG) (g p : ptr) (uci : string)
        (now : Time) (recID : UUID) (rec : MoveRecord) :
  ApplyMove h g uci now recID = (h', Ok (p, rec)) ->
  ∃ G NG,
    h !! g = Some G ∧ h' !! p = Some NG
    ∧ rec_ID rec = recID
    ∧ rec_UCI rec = uci ∧ LastMoveUCI NG = Some uci
    ∧ rec_FENBefore rec = FEN G ∧ rec_FENAfter rec = FEN NG
    ∧ spec.replay_step (FEN G) uci = Some (FEN NG)
    ∧ rec_CreatedAt rec = now ∧ UpdatedAt NG = now
    ∧ LastMoveAt NG = Some now
    ∧ ID NG = ID G ∧ CreatedAt NG = CreatedAt G.
Proof.
  intros Happ.
  apply ApplyMove_inv in Happ
    as (G & f & cg & HG & Hnt & Hu & Hf & Hm & -> & -> & ->).
  eexists G, _. split; [done|].
  split; [by apply list_lookup_middle|].
  simpl. repeat split; try done.
  unfold spec.replay_step. by rewrite Hf, Hm.
Qed.

(** X4. The status of a successor is never waiting: it is ongoing,
    checkmate, stalemate, draw or resigned; it has a result exactly when
    its status is not ongoing, a decisive one exactly for checkmate and
    resigned, the drawn one exactly for stalemate and draw. *)
Theorem ApplyMove_status_result (h h' : Heap CG) (g p : ptr) (uci : string)
        (now : Time) (recID : UUID) (rec : MoveRecord) :
  ApplyMove h g uci now recID = (h', Ok (p, rec)) ->
  ∃ NG,
    h' !! p = Some NG
    ∧ Status_ NG ≠ StatusWaiting
    ∧ In (Status_ NG) [StatusOngoing; StatusCheckmate; StatusStalemate;
                       StatusDraw; StatusResigned]
    ∧ (Result_ NG = None <-> Status_ NG = StatusOngoing)
    ∧ (Result_ NG = Some ResultWhite ∨ Result_ NG = Some ResultBlack
       <-> Status_ NG = StatusCheckmate ∨ Status_ NG = StatusResigned)
    ∧ (Result_ NG = Some ResultDraw
       <-> Status_ NG = StatusStalemate ∨ Status_ NG = StatusDraw).
Proof.
  intros Happ.
  apply ApplyMove_inv in Happ
    as (G & f & cg & HG & Hnt & Hu & Hf & Hm & -> & -> & ->).
  eexists. split; [by apply list_lookup_middle|]. simpl.
  destruct (chess.GameOutcome cg), (chess.GameMethod cg); vm_compute;
    (split; [discriminate|]);
    (split; [tauto|]);
    repeat split; intros; try discriminate; try tauto;
    repeat match goal with
           | H : _ ∨ _ |- _ => destruct H
           end; try discriminate; tauto.
Qed.

(** X5. [ApplyMove] reads the receiver's status and position and nothing
    else to decide: two games with the same status and position get the
    same verdict.  With the same identifier, counters and creation time
    they get the same move record and equal successors, whatever their
    live library state ([chessGame], nil on a game read from the
    database), side to move, result, last move and update time. *)
Theorem ApplyMove_reads_status_and_position (h1 h2 : Heap CG)
        (g1 g2 : ptr) (G1 G2 : Game CG) (uci : string) (now : Time)
        (recID : UUID) :
  h1 !! g1 = Some G1 -> h2 !! g2 = Some G2 ->
  Status_ G1 = Status_ G2 -> FEN G1 = FEN G2 ->
  (∀ err, snd (ApplyMove h1 g1 uci now recID) = Fail err
          <-> snd (ApplyMove h2 g2 uci now recID) = Fail err)
  ∧ (ID G1 = ID G2 -> PlyCount G1 = PlyCount G2 ->
     StateVersion G1 = StateVersion G2 -> CreatedAt G1 = CreatedAt G2 ->
     ∀ h1' p1 rec,
       ApplyMove h1 g1 uci now recID = (h1', Ok (p1, rec)) ->
       ∃ h2' p2 NG,
         ApplyMove h2 g2 uci now recID = (h2', Ok (p2, rec))
         ∧ h1' !! p1 = Some NG ∧ h2' !! p2 = Some NG).
Proof.
  intros H1 H2 Hst Hfen. unfold ApplyMove. rewrite H1, H2, Hst, Hfen.
  split.
  - intros err.
    destruct (negb (String.eqb (Status_ G2) StatusOngoing)
              && negb (String.eqb (Status_ G2) StatusWaiting)); [done|].
    destruct (negb (isValidUCISyntax uci)); [done|].
    destruct (chess.FEN (FEN G2)) as [f|]; [|done].
    destruct (chess.MoveStr (chess.NewGame (Some f)) uci); [|done].
    simpl. split; discriminate.
  - intros Hid Hply Hver Hcr h1' p1 rec.
    rewrite Hid, Hply, Hver, Hcr.
    destruct (negb (String.eqb (Status_ G2) StatusOngoing)
              && negb (String.eqb (Status_ G2) StatusWaiting));
      [discriminate|].
    destruct (negb (isValidUCISyntax uci)); [discriminate|].
    destruct (chess.FEN (FEN G2)) as [f|]; [|discriminate].
    destruct (chess.MoveStr (chess.NewGame (Some f)) uci) as [cg|];
      [|discriminate].
    simpl. intros [= <- <- <-].
    eexists _, _, _. split; [reflexivity|].
    split; by apply list_lookup_middle.
Qed.

End RuleEngineMore.

Lemma ApplyMove_record_witness :
  ∃ (G NG : game.Game toy.CG),
    examples.heap1 !! 0%nat = Some G
    ∧ (examples.heap1 ++ [examples.after_e2e4]) !! 1%nat = Some NG
    ∧ game.rec_ID examples.rec_e2e4 = 55%N
    ∧ game.rec_UCI examples.rec_e2e4 = "e2e4"%string
    ∧ game.LastMoveUCI NG = Some "e2e4"%string
    ∧ game.rec_FENBefore examples.rec_e2e4 = game.FEN G
    ∧ game.rec_FENAfter examples.rec_e2e4 = game.FEN NG
    ∧ spec.replay_step (game.FEN G) "e2e4" = Some (game.FEN NG)
    ∧ game.rec_CreatedAt examples.rec_e2e4 = 100
    ∧ game.UpdatedAt NG = 100
    ∧ game.LastMoveAt NG = Some 100
    ∧ game.ID NG = game.ID G ∧ game.CreatedAt NG = game.CreatedAt G.
Proof.
  apply (ApplyMove_record (eng := toy.engine) examples.heap1
           (examples.heap1 ++ [examples.after_e2e4]) 0 1 "e2e4" 100 55
           examples.rec_e2e4).
  reflexivity.
Defined.

Lemma ApplyMove_status_result_witness :
  ∃ NG : game.Game toy.CG,
    (examples.heap1 ++ [examples.after_e2e4]) !! 1%nat = Some NG
    ∧ game.Status_ NG ≠ game.StatusWaiting
    ∧ In (game.Status_ NG)
         [game.StatusOngoing; game.StatusCheckmate; game.StatusStalemate;
          game.StatusDraw; game.StatusResigned]
    ∧ (game.Result_ NG = None <-> game.Status_ NG = game.StatusOngoing)
    ∧ (game.Result_ NG = Some game.ResultWhite
       ∨ game.Result_ NG = Some game.ResultBlack
       <-> game.Status_ NG = game.StatusCheckmate
           ∨ game.Status_ NG = game.StatusResigned)
    ∧ (game.Result_ NG = Some game.ResultDraw
       <-> game.Status_ NG = game.StatusStalemate
           ∨ game.Status_ NG = game.StatusDraw).
Proof.
  apply (ApplyMove_status_result (eng := toy.engine) examples.heap1
           (examples.heap1 ++ [examples.after_e2e4]) 0 1 "e2e4" 100 55
           examples.rec_e2e4).
  reflexivity.
Defined.

(** A game read from the database (no live library state, another update
    time) and the in-memory object of the same game. *)
Lemma ApplyMove_reads_status_and_position_witness :
  (∀ err,
     snd (game.ApplyMove examples.heap1 0 "e2e5" 100 55) = Fail err
     <-> snd (game.ApplyMove
                [postgres.scanGame (CG := toy.CG) 1
                   (examples.row game.StatusOngoing 10)] 0 "e2e5" 100 55)
         = Fail err)
  ∧ ∃ h2' p2 NG,
      game.ApplyMove
        [postgres.scanGame (CG := toy.CG) 1
           (examples.row game.StatusOngoing 10)] 0 "e2e4" 100 55
      = (h2', Ok (p2, examples.rec_e2e4))
      ∧ (examples.heap1 ++ [examples.after_e2e4]) !! 1%nat = Some NG
      ∧ h2' !! p2 = Some NG.
Proof.
  split.
  - apply (ApplyMove_reads_status_and_position (eng := toy.engine)
             examples.heap1
             [postgres.scanGame 1 (examples.row game.StatusOngoing 10)]
             0 0 (toy.fresh 1 game.StatusOngoing 10)
             (postgres.scanGame 1 (examples.row game.StatusOngoing 10))
             "e2e5" 100 55 eq_refl eq_refl eq_refl eq_refl).
  - apply (proj2 (ApplyMove_reads_status_and_position (eng := toy.engine)
                    examples.heap1
                    [postgres.scanGame 1 (examples.row game.StatusOngoing 10)]
                    0 0 (toy.fresh 1 game.StatusOngoing 10)
                    (postgres.scanGame 1 (examples.row game.StatusOngoing 10))
                    "e2e4" 100 55 eq_refl eq_refl eq_refl eq_refl)
                 eq_refl eq_refl eq_refl eq_refl
                 (examples.heap1 ++ [examples.after_e2e4]) 1%nat
                 examples.rec_e2e4 eq_refl).
Defined.

(** ** Move submission: the order of the checks *)

Section Submission.
Context {CG S E : Type} {eng : chess.Engine CG}.
Context (St : ports.GameStore CG S E) (rl : ports.RateLimiter).
Import game.

(** X6. Past the rate limiter, the lookup and the version check,
    [SubmitMove] runs the rule engine before it touches the store again.
    A move the rule engine rejects is answered with the engine's error
    after the single call [GetByID], with no object allocated.  An
    accepted move is passed to [PersistMove] together with the successor,
    the move record and the ply, which is the successor's ply count less
    one (the receiver's ply count, when that is below the largest [int]);
    an error of [PersistMove] is returned as it is, and its history is
    returned with the record, the successor and the hint to fetch another
    game, set exactly when the successor is not ongoing. *)
Theorem SubmitMove_protocol (e1 e2 : E) (now : Time) (recID : UUID)
        (h h1 : Heap CG) (s s1 : S) (ip token : string)
        (gameID clientID : UUID) (req : usecase.SubmitMoveRequest)
        (g : ptr) (G : Game CG) :
  rl ip token = true ->
  ports.GetByID e1 h s gameID = (h1, s1, Ok g) ->
  h1 !! g = Some G ->
  StateVersion G = usecase.ExpectedVersion req ->
  let run :=
    usecase.SubmitMove (ports.Recorder St) rl e1 e2 now recID h (s, [])
      ip token gameID clientID req in
  (∀ err,
     snd (ApplyMove h1 g (usecase.req_UCI req) now recID) = Fail err ->
     run = (h1, (s1, [ports.CallGetByID gameID]), Fail err))
  ∧ (∀ h2 newGame rec,
       ApplyMove h1 g (usecase.req_UCI req) now recID
       = (h2, Ok (newGame, rec)) ->
       ∃ NG ply,
         h2 !! newGame = Some NG
         ∧ ply = GoInt.sub (PlyCount NG) 1
         ∧ (GoInt.in_range (PlyCount G) -> PlyCount G ≠ GoInt.max_int ->
            ply = PlyCount G)
         ∧ (∀ h3 s3 err,
              ports.PersistMove e2 h2 s1 gameID clientID newGame rec ply
              = (h3, s3, Fail err) ->
              run = (h3, (s3, [ports.CallGetByID gameID;
                               ports.CallPersistMove gameID clientID newGame
                                 rec ply]),
                     Fail err))
         ∧ (∀ h3 s3 history NG',
              ports.PersistMove e2 h2 s1 gameID clientID newGame rec ply
              = (h3, s3, Ok history) ->
              h3 !! newGame = Some NG' ->
              run = (h3, (s3, [ports.CallGetByID gameID;
                               ports.CallPersistMove gameID clientID newGame
                                 rec ply]),
                     Ok (usecase.mkSubmitMoveResult rec newGame history
                           (negb (String.eqb (Status_ NG') StatusOngoing)))))).
Proof.
  intros Hrl Hget HG Hver. simpl.
  unfold usecase.SubmitMove. rewrite Hrl. simpl. rewrite Hget. simpl.
  rewrite HG.
  destruct (decide (StateVersion G ≠ usecase.ExpectedVersion req));
    [contradiction|].
  split.
  - intros err Herr.
    destruct (ApplyMove h1 g (usecase.req_UCI req) now recID)
      as [h2 r] eqn:Happ.
    simpl in Herr. subst r.
    assert (h2 = h1) as ->; [|done].
    revert Happ. unfold ApplyMove. rewrite HG.
    repeat case_match; intros; simplify_eq; done.
  - intros h2 newGame rec Happ. rewrite Happ.
    pose proof Happ as Hinv.
    apply ApplyMove_inv in Hinv
      as (G' & f & cg & HG' & Hnt & Hu & Hf & Hm & -> & -> & ->).
    rewrite HG in HG'. injection HG' as <-.
    eexists _, _. split; [by apply list_lookup_middle|].
    split; [reflexivity|]. simpl. split; [|split].
    + intros Hr Hmax. rewrite add_one_exact by done.
      unfold GoInt.sub. replace (PlyCount G + 1 - 1) with (PlyCount G) by lia.
      by apply wrap_in_range.
    + intros h3 s3 err Hp.
      rewrite list_lookup_middle by done. simpl. by rewrite Hp.
    + intros h3 s3 history NG' Hp HNG'.
      rewrite list_lookup_middle by done. simpl. rewrite Hp.
      by rewrite HNG'.
Qed.

(** A request that the rate limiter refuses is answered with
    [ErrRateLimited] by every use case, whatever the store: heap and store
    are returned as they were given, so no method of the store ran. *)
Lemma rate_limited_requests (Rest : ports.GameStoreRest CG S E)
        (h : Heap CG) (s : S) (ip token : string) :
  rl ip token = false ->
  (∀ batchSize e1 e2 e3 clientID,
     usecase.GetNext St rl batchSize e1 e2 e3 h s ip token clientID
     = (h, s, Fail ErrRateLimited))
  ∧ (∀ e1 e2 now recID gameID clientID req,
       usecase.SubmitMove St rl e1 e2 now recID h s ip token gameID clientID
         req
       = (h, s, Fail ErrRateLimited))
  ∧ (∀ e now id,
       usecase.Assign Rest rl e now id h s ip token
       = (h, s, usecase.AssignFail ErrRateLimited))
  ∧ (∀ e id,
       usecase.GetGame St rl e h s ip token id
       = (h, s, Fail ErrRateLimited)).
Proof.
  intros Hrl. unfold usecase.GetNext, usecase.SubmitMove, usecase.Assign,
    usecase.GetGame. rewrite Hrl. done.
Qed.

End Submission.

(** ** Move submission over the two stores *)

Section SubmitStores.
Context {CG : Type} {eng : chess.Engine CG}.
Import game.

(** [ApplyMove] accepts exactly the well-formed legal moves on games that
    are waiting or ongoing. *)
Lemma ApplyMove_ok_iff (h : Heap CG) (g : ptr) (G : Game CG) (uci : string)
      (now : Time) (recID : UUID) :
  h !! g = Some G ->
  (∃ NG rec, ApplyMove h g uci now recID
             = (h ++ [NG], Ok (List.length h, rec))
             ∧ StateVersion NG = GoInt.add (StateVersion G) 1
             ∧ PlyCount NG = GoInt.add (PlyCount G) 1
             ∧ ID NG = ID G
             ∧ rec_UCI rec = uci)
  <-> spec.non_terminal (Status_ G) ∧ spec.wellformed_uci uci
      ∧ spec.legal (FEN G) uci.
Proof.
  intros HG. split.
  - intros (NG & rec & Happ & _).
    apply ApplyMove_inv in Happ
      as (G' & f & cg & HG' & Hnt & Hu & Hf & Hm & _).
    rewrite HG in HG'. injection HG' as <-.
    split; [done|]. split; [by apply isValidUCISyntax_spec|].
    by exists f, cg.
  - intros (Hnt & Hu & f & cg & Hf & Hm).
    unfold ApplyMove. rewrite HG.
    apply non_terminal_test in Hnt. rewrite Hnt.
    apply isValidUCISyntax_spec in Hu. rewrite Hu. simpl.
    rewrite Hf, Hm. by eexists _, _.
Qed.

(** An error of [ApplyMove] is one of the rule engine's three, and the
    heap is as it was. *)
Lemma ApplyMove_fail (h h' : Heap CG) (g : ptr) (uci : string) (now : Time)
      (recID : UUID) (err : Err) :
  ApplyMove h g uci now recID = (h', Fail err) ->
  h' = h
  ∧ (err = ErrGameNotOngoing ∨ err = ErrInvalidUCI ∨ err = ErrIllegalMove).
Proof.
  unfold ApplyMove. intros Happ.
  repeat case_match; simplify_eq; tauto.
Qed.

Lemma ApplyMove_panic (h h' : Heap CG) (g : ptr) (uci : string) (now : Time)
      (recID : UUID) :
  ApplyMove h g uci now recID = (h', Panic) -> h !! g = None.
Proof.
  unfold ApplyMove. intros Happ.
  repeat case_match; simplify_eq; done.
Qed.

Lemma SubmitMove_memory_assignment_errors (rl : ports.RateLimiter)
      (e1 e2 : memory.Env) (now : Time) (recID : UUID) (h : Heap CG)
      (s : memory.Store) (ip token : string) (gameID clientID : UUID)
      (req : usecase.SubmitMoveRequest) :
  rl ip token = true ->
  let run :=
    usecase.SubmitMove memory_GameStore rl e1 e2 now recID h s ip token
      gameID clientID req in
  let playable :=
    ∃ g G, memory.games s !! gameID = Some g ∧ h !! g = Some G
           ∧ spec.playable (Status_ G) (FEN G) (StateVersion G) req in
  (snd run = Fail ErrNotAssigned
   <-> playable
       ∧ memory.member (memory.assigned s) gameID clientID = false)
  ∧ (snd run = Fail ErrAlreadyMoved
     <-> playable
         ∧ memory.member (memory.assigned s) gameID clientID = true
         ∧ memory.member (memory.moved s) gameID clientID = true)
  ∧ (snd run = Fail ErrNotAssigned ∨ snd run = Fail ErrAlreadyMoved ->
     snd (fst run) = s).
Proof.
  intros Hrl. simpl. unfold usecase.SubmitMove. rewrite Hrl. simpl.
  unfold memory.GetByID.
  destruct (memory.games s !! gameID) as [g|] eqn:Hg; simpl.
  2: { repeat split; try discriminate; try (intros [? | ?]; discriminate);
       intros ((g & G & Hg' & _) & _); discriminate. }
  destruct (h !! g) as [G|] eqn:HG; simpl.
  2: { repeat split; try discriminate; try (intros [? | ?]; discriminate);
       intros ((g' & G & Hg' & HG' & _) & _); simplify_eq. }
  destruct (decide (StateVersion G ≠ usecase.ExpectedVersion req))
    as [Hv | Hv]; simpl.
  { repeat split; try discriminate; try (intros [? | ?]; discriminate);
      intros ((g' & G' & Hg' & HG' & Hve & _) & _); simplify_eq. }
  assert (StateVersion G = usecase.ExpectedVersion req) as Hver
      by (destruct (decide (StateVersion G = usecase.ExpectedVersion req));
          [done|contradiction]).
  clear Hv.
  destruct (ApplyMove h g (usecase.req_UCI req) now recID) as [h2 r] eqn:Happ.
  destruct r as [[newGame rec] | err |].
  - pose proof Happ as Hinv.
    apply ApplyMove_inv in Hinv
      as (G' & f & cg & HG' & Hnt & Hu & Hf & Hm & -> & -> & ->).
    rewrite HG in HG'. injection HG' as <-.
    rewrite list_lookup_middle by done. simpl.
    assert (∃ g0 G0, Some g = Some g0 ∧ h !! g0 = Some G0
                     ∧ spec.playable (Status_ G0) (FEN G0) (StateVersion G0)
                         req) as Hplay.
    { exists g, G. split; [done|]. split; [done|].
      split; [done|]. split; [done|].
      split; [by apply isValidUCISyntax_spec|]. by exists f, cg. }
    set (NG := mkGame _ _ _ _ _ _ _ _ _ _ _ _).
    set (rec := mkMoveRecord _ _ _ _ _).
    destruct (memory.member (memory.assigned s) gameID clientID) eqn:Ha.
    + destruct (memory.member (memory.moved s) gameID clientID) eqn:Hmv.
      * rewrite memory_PersistMove_AlreadyMoved by done. simpl.
        split; [split; [discriminate|by intros [_ ?]]|].
        split; [done|done].
      * assert (∀ r : outcome usecase.SubmitMoveResult,
                  (∀ e, r = Fail e -> e = ErrNotFound ∨ e = ErrVersionConflict) ->
                  (r = Fail ErrNotAssigned
                   <-> (∃ g0 G0, Some g = Some g0 ∧ h !! g0 = Some G0
                                 ∧ spec.playable (Status_ G0) (FEN G0)
                                     (StateVersion G0) req)
                       ∧ true = false)
                  ∧ (r = Fail ErrAlreadyMoved
                     <-> (∃ g0 G0, Some g = Some g0 ∧ h !! g0 = Some G0
                                   ∧ spec.playable (Status_ G0) (FEN G0)
                                       (StateVersion G0) req)
                         ∧ true = true ∧ false = true)
                  ∧ (r = Fail ErrNotAssigned ∨ r = Fail ErrAlreadyMoved ->
                     False)) as Hother.
        { intros r Hr. split; [|split].
          - split; [|by intros [_ ?]].
            intros ->. by destruct (Hr _ eq_refl).
          - split; [|by intros (_ & _ & ?)].
            intros ->. by destruct (Hr _ eq_refl).
          - intros [-> | ->]; by destruct (Hr _ eq_refl). }
        destruct (memory.PersistMove (h ++ [NG]) s gameID clientID
                    (List.length h) rec
                    (GoInt.sub (GoInt.add (PlyCount G) 1) 1))
          as [[h3 s3] r3] eqn:Hp.
        destruct r3 as [hist | err |]; simpl.
        -- apply memory_PersistMove_ok in Hp
             as (? & ? & ? & ? & ? & ? & -> & _).
           rewrite list_lookup_middle by done. simpl.
           match goal with
           | |- (?r = _ <-> _) ∧ _ =>
               destruct (Hother r) as (H1 & H2 & H3); [discriminate|]
           end.
           split; [done|]. split; [done|]. intros H. by destruct (H3 H).
        -- assert (err = ErrNotFound ∨ err = ErrVersionConflict) as Herr.
           { revert Hp. unfold memory.PersistMove.
             unfold memory.member in Ha.
             destruct (memory.assigned s !! gameID) as [aset|]; [|done].
             rewrite Ha. simpl. rewrite Hmv.
             repeat case_match; intros; simplify_eq; tauto. }
           apply memory_PersistMove_fail in Hp as (-> & -> & _).
           destruct (Hother (Fail err)) as (H1 & H2 & H3).
           { by intros e [= <-]. }
           split; [done|]. split; [done|]. intros H. by destruct (H3 H).
        -- match goal with
           | |- (?r = _ <-> _) ∧ _ =>
               destruct (Hother r) as (H1 & H2 & H3); [discriminate|]
           end.
           split; [done|]. split; [done|]. intros H. by destruct (H3 H).
    + rewrite memory_PersistMove_NotAssigned by done. simpl.
      repeat split; try done; try discriminate. by intros [_ [? _]].
  - pose proof Happ as Hfail.
    apply ApplyMove_fail in Hfail as [-> Herr]. simpl.
    assert (¬ (spec.non_terminal (Status_ G)
               ∧ spec.wellformed_uci (usecase.req_UCI req)
               ∧ spec.legal (FEN G) (usecase.req_UCI req))) as Hno.
    { intros Hok.
      apply (ApplyMove_ok_iff h g G (usecase.req_UCI req) now recID HG) in Hok
        as (NG & rec & Happ' & _).
      rewrite Happ in Happ'. discriminate. }
    assert (err ≠ ErrNotAssigned ∧ err ≠ ErrAlreadyMoved) as [Hn1 Hn2]
        by (destruct Herr as [-> | [-> | ->]]; done).
    split; [|split].
    + split; [by intros [= ?]|].
      intros ((g' & G' & Hg' & HG' & _ & Hok) & _). simplify_eq; tauto.
    + split; [by intros [= ?]|].
      intros ((g' & G' & Hg' & HG' & _ & Hok) & _). simplify_eq; tauto.
    + by intros [[= ?] | [= ?]].
  - apply ApplyMove_panic in Happ. congruence.
Qed.

Lemma SubmitMove_postgres_assignment_errors (rl : ports.RateLimiter)
      (e1 e2 : postgres.Env) (now : Time) (recID : UUID) (h : Heap CG)
      (db : postgres.DB) (ip token : string) (gameID clientID : UUID)
      (req : usecase.SubmitMoveRequest) :
  rl ip token = true ->
  let run :=
    usecase.SubmitMove postgres_GameStore rl e1 e2 now recID h db ip token
      gameID clientID req in
  let playable :=
    ∃ r, postgres.games db !! gameID = Some r
         ∧ spec.playable (postgres.status r) (postgres.fen r)
             (postgres.state_version r) req in
  (snd run = Fail ErrNotAssigned
   <-> playable ∧ postgres.game_players db !! (gameID, clientID) = None)
  ∧ (snd run = Fail ErrAlreadyMoved
     <-> playable
         ∧ ∃ p, postgres.game_players db !! (gameID, clientID) = Some p
                ∧ postgres.has_moved p = true)
  ∧ (snd run = Fail ErrNotAssigned ∨ snd run = Fail ErrAlreadyMoved ->
     snd (fst run) = db).
Proof.
  intros Hrl. simpl. unfold usecase.SubmitMove. rewrite Hrl. simpl.
  unfold postgres.GetByID.
  destruct (postgres.games db !! gameID) as [r|] eqn:Hg; simpl.
  2: { repeat split; try discriminate; try (intros [? | ?]; discriminate);
       intros ((r & Hg' & _) & _); discriminate. }
  rewrite list_lookup_middle by done.
  set (G := postgres.scanGame gameID r).
  destruct (decide (StateVersion G ≠ usecase.ExpectedVersion req))
    as [Hv | Hv]; simpl.
  { repeat split; try discriminate; try (intros [? | ?]; discriminate);
      intros ((r' & Hg' & Hve & _) & _); simplify_eq. }
  assert (StateVersion G = usecase.ExpectedVersion req) as Hver
      by (destruct (decide (StateVersion G = usecase.ExpectedVersion req));
          [done|contradiction]).
  clear Hv.
  assert ((h ++ [G]) !! List.length h = Some G) as HG
      by (by apply list_lookup_middle).
  destruct (ApplyMove (h ++ [G]) (List.length h) (usecase.req_UCI req) now
              recID) as [h2 res] eqn:Happ.
  destruct res as [[newGame rec] | err |].
  - pose proof Happ as Hinv.
    apply ApplyMove_inv in Hinv
      as (G' & f & cg & HG' & Hnt & Hu & Hf & Hm & -> & -> & ->).
    rewrite HG in HG'. injection HG' as <-.
    rewrite list_lookup_middle by done. simpl.
    assert (∃ r0, Some r = Some r0
                  ∧ spec.playable (postgres.status r0) (postgres.fen r0)
                      (postgres.state_version r0) req) as Hplay.
    { exists r. split; [done|]. split; [done|]. split; [done|].
      split; [by apply isValidUCISyntax_spec|]. by exists f, cg. }
    set (NG := mkGame _ _ _ _ _ _ _ _ _ _ _ _).
    set (rec := mkMoveRecord _ _ _ _ _).
    destruct (postgres.game_players db !! (gameID, clientID)) as [p|] eqn:Hgp.
    + destruct (postgres.has_moved p) eqn:Hmv.
      * rewrite (postgres_PersistMove_AlreadyMoved _ _ _ _ _ _ _ p) by done.
        simpl. split; [split; [discriminate|by intros [_ ?]]|].
        split; [|done]. split; [|done]. intros _. split; [done|by exists p].
      * assert (∀ x : outcome usecase.SubmitMoveResult,
                  (∀ e, x = Fail e -> e = ErrDriver ∨ e = ErrVersionConflict) ->
                  (x = Fail ErrNotAssigned
                   <-> (∃ r0, Some r = Some r0
                              ∧ spec.playable (postgres.status r0)
                                  (postgres.fen r0) (postgres.state_version r0)
                                  req)
                       ∧ Some p = None)
                  ∧ (x = Fail ErrAlreadyMoved
                     <-> (∃ r0, Some r = Some r0
                                ∧ spec.playable (postgres.status r0)
                                    (postgres.fen r0)
                                    (postgres.state_version r0) req)
                         ∧ ∃ p0, Some p = Some p0
                                 ∧ postgres.has_moved p0 = true)
                  ∧ (x = Fail ErrNotAssigned ∨ x = Fail ErrAlreadyMoved ->
                     False)) as Hother.
        { intros x Hx. split; [|split].
          - split; [|by intros [_ ?]].
            intros ->. by destruct (Hx _ eq_refl).
          - split; [|intros (_ & p0 & [= <-] & ?); congruence].
            intros ->. by destruct (Hx _ eq_refl).
          - intros [-> | ->]; by destruct (Hx _ eq_refl). }
        destruct (postgres.PersistMove _ _ _ _ _ _ _)
          as [[h3 db3] r3] eqn:Hp.
        destruct r3 as [hist | err |]; simpl.
        -- apply postgres_PersistMove_ok in Hp
             as (? & ? & ? & ? & ? & ? & -> & _).
           rewrite list_lookup_middle by done. simpl.
           match goal with
           | |- (?x = _ <-> _) ∧ _ =>
               destruct (Hother x) as (H1 & H2 & H3); [discriminate|]
           end.
           split; [done|]. split; [done|]. intros H. by destruct (H3 H).
        -- assert (err = ErrDriver ∨ err = ErrVersionConflict) as Herr.
           { revert Hp. unfold postgres.PersistMove. rewrite Hgp, Hmv.
             repeat case_match; intros; simplify_eq; tauto. }
           destruct (Hother (Fail err)) as (H1 & H2 & H3).
           { by intros e [= <-]. }
           split; [done|]. split; [done|]. intros H. by destruct (H3 H).
        -- match goal with
           | |- (?x = _ <-> _) ∧ _ =>
               destruct (Hother x) as (H1 & H2 & H3); [discriminate|]
           end.
           split; [done|]. split; [done|]. intros H. by destruct (H3 H).
    + rewrite postgres_PersistMove_NotAssigned by done. simpl.
      split; [done|]. split; [|done].
      split; [discriminate|]. by intros (_ & p & ? & _).
  - pose proof Happ as Hfail.
    apply ApplyMove_fail in Hfail as [-> Herr]. simpl.
    assert (¬ (spec.non_terminal (Status_ G)
               ∧ spec.wellformed_uci (usecase.req_UCI req)
               ∧ spec.legal (FEN G) (usecase.req_UCI req))) as Hno.
    { intros Hok.
      apply (ApplyMove_ok_iff (h ++ [G]) (List.length h) G
               (usecase.req_UCI req) now recID HG) in Hok
        as (NG & rec & Happ' & _).
      rewrite Happ in Happ'. discriminate. }
    assert (err ≠ ErrNotAssigned ∧ err ≠ ErrAlreadyMoved) as [Hn1 Hn2]
        by (destruct Herr as [-> | [-> | ->]]; done).
    split; [|split].
    + split; [by intros [= ?]|].
      intros ((r' & Hg' & _ & Hok) & _). simplify_eq; tauto.
    + split; [by intros [= ?]|].
      intros ((r' & Hg' & _ & Hok) & _). simplify_eq; tauto.
    + by intros [[= ?] | [= ?]].
  - apply ApplyMove_panic in Happ. congruence.
Qed.

(** X7. Assignment is checked last.  [SubmitMove] answers
    [ErrNotAssigned] exactly when the request is playable on the stored
    game (it names the stored version and its move is well formed and
    legal on a game that is waiting or ongoing) and the client has no
    assignment to the game; it answers [ErrAlreadyMoved] exactly when the
    request is playable and the client is assigned and has moved.  In
    both cases the store is left as it was.  This holds over the in-memory
    store and over the transactional store. *)
Theorem SubmitMove_assignment_checked_last (rl : ports.RateLimiter)
        (now : Time) (recID : UUID) (h : Heap CG) (ip token : string)
        (gameID clientID : UUID) (req : usecase.SubmitMoveRequest) :
  rl ip token = true ->
  (∀ (e1 e2 : memory.Env) (s : memory.Store),
     let run :=
       usecase.SubmitMove memory_GameStore rl e1 e2 now recID h s ip token
         gameID clientID req in
     let playable :=
       ∃ g G, memory.games s !! gameID = Some g ∧ h !! g = Some G
              ∧ spec.playable (Status_ G) (FEN G) (StateVersion G) req in
     (snd run = Fail ErrNotAssigned
      <-> playable
          ∧ memory.member (memory.assigned s) gameID clientID = false)
     ∧ (snd run = Fail ErrAlreadyMoved
        <-> playable
            ∧ memory.member (memory.assigned s) gameID clientID = true
            ∧ memory.member (memory.moved s) gameID clientID = true)
     ∧ (snd run = Fail ErrNotAssigned ∨ snd run = Fail ErrAlreadyMoved ->
        snd (fst run) = s))
  ∧ (∀ (e1 e2 : postgres.Env) (db : postgres.DB),
       let run :=
         usecase.SubmitMove postgres_GameStore rl e1 e2 now recID h db ip
           token gameID clientID req in
       let playable :=
         ∃ r, postgres.games db !! gameID = Some r
              ∧ spec.playable (postgres.status r) (postgres.fen r)
                  (postgres.state_version r) req in
       (snd run = Fail ErrNotAssigned
        <-> playable
            ∧ postgres.game_players db !! (gameID, clientID) = None)
       ∧ (snd run = Fail ErrAlreadyMoved
          <-> playable
              ∧ ∃ p, postgres.game_players db !! (gameID, clientID) = Some p
                     ∧ postgres.has_moved p = true)
       ∧ (snd run = Fail ErrNotAssigned ∨ snd run = Fail ErrAlreadyMoved ->
          snd (fst run) = db)).
Proof.
  intros Hrl. split.
  - intros e1 e2 s. by apply SubmitMove_memory_assignment_errors.
  - intros e1 e2 db. by apply SubmitMove_postgres_assignment_errors.
Qed.

Lemma sub_add_one (z : Z) :
  GoInt.in_range z -> GoInt.sub (GoInt.add z 1) 1 = z.
Proof.
  intros Hr. unfold GoInt.sub, GoInt.add.
  replace (GoInt.wrap (z + 1) - 1) with (GoInt.wrap (z + 1) + -1) by lia.
  rewrite wrap_add_l. replace (z + 1 + -1) with z by lia.
  by apply wrap_in_range.
Qed.

Lemma SubmitMove_accepts_memory (rl : ports.RateLimiter)
      (e1 e2 : memory.Env) (now : Time) (recID : UUID) (h : Heap CG)
      (s : memory.Store) (ip token : string) (gameID clientID : UUID)
      (req : usecase.SubmitMoveRequest) (g : ptr) (G : Game CG) :
  rl ip token = true ->
  memory.games s !! gameID = Some g -> h !! g = Some G ->
  spec.playable (Status_ G) (FEN G) (StateVersion G) req ->
  GoInt.in_range (StateVersion G) ->
  memory.member (memory.assigned s) gameID clientID = true ->
  memory.member (memory.moved s) gameID clientID = false ->
  ∃ NG item s',
    usecase.SubmitMove memory_GameStore rl e1 e2 now recID h s ip token
      gameID clientID req
    = (h ++ [NG], s',
       Ok (usecase.mkSubmitMoveResult
             (mkMoveRecord recID (usecase.req_UCI req) (FEN G) (FEN NG) now)
             (List.length h)
             (memory.history_of s gameID ++ [item])
             (negb (String.eqb (Status_ NG) StatusOngoing))))
    ∧ memory.games s' !! gameID = Some (List.length h)
    ∧ ID NG = ID G
    ∧ StateVersion NG = GoInt.add (StateVersion G) 1
    ∧ spec.replay_step (FEN G) (usecase.req_UCI req) = Some (FEN NG)
    ∧ memory.member (memory.moved s') gameID clientID = true
    ∧ memory.assigned s' = memory.assigned s
    ∧ memory.history_of s' gameID = memory.history_of s gameID ++ [item]
    ∧ UCI item = usecase.req_UCI req ∧ ClientID item = clientID
    ∧ Ply item = GoInt.sub (GoInt.add (PlyCount G) 1) 1
    ∧ FENBefore item = FEN G ∧ FENAfter item = FEN NG.
Proof.
  intros Hrl Hg HG (Hver & Hnt & Hwf & Hleg) Hr Ha Hmv.
  destruct (proj2 (ApplyMove_ok_iff h g G (usecase.req_UCI req) now recID HG))
    as (NG & rec & Happ & HvNG & HpNG & Hid & Huci); [done|].
  pose proof Happ as Hinv.
  apply ApplyMove_inv in Hinv
    as (G' & f & cg & HG' & _ & Hu & Hf & Hm & _ & Hh & Hrec).
  rewrite HG in HG'. injection HG' as <-.
  apply app_inv_head in Hh. injection Hh as HNG.
  destruct (valid_uci_splits _ Hu) as [[[fromSq toSq] promotion] Hsp].
  set (item := mkMoveHistoryItem (GoInt.sub (GoInt.add (PlyCount G) 1) 1)
                 (usecase.req_UCI req) fromSq toSq promotion clientID (FEN G)
                 (FEN NG) now).
  exists NG, item. eexists.
  split.
  - unfold usecase.SubmitMove. rewrite Hrl. simpl.
    unfold memory.GetByID. rewrite Hg. simpl. rewrite HG.
    destruct (decide (StateVersion G ≠ usecase.ExpectedVersion req));
      [contradiction|].
    rewrite Happ. rewrite list_lookup_middle by done. simpl.
    unfold memory.PersistMove. unfold memory.member in Ha.
    destruct (memory.assigned s !! gameID) as [aset|]; [|done].
    rewrite Ha. simpl. rewrite Hmv, Hg.
    rewrite (lookup_app_l_Some _ _ _ _ HG).
    rewrite list_lookup_middle by done.
    rewrite HvNG, sub_add_one by done.
    destruct (decide (StateVersion G ≠ StateVersion G)); [contradiction|].
    rewrite Hrec. simpl. rewrite Hsp. simpl.
    rewrite list_lookup_middle by done. simpl.
    rewrite HpNG. subst item. rewrite HNG.
    unfold memory.history_of. simpl. rewrite lookup_insert_eq. simpl.
    reflexivity.
  - simpl. rewrite lookup_insert_eq.
    split; [done|]. split; [done|]. split; [done|].
    split; [unfold spec.replay_step; rewrite Hf, Hm; by rewrite HNG|].
    split; [apply member_add_member|]. split; [done|].
    split; [|done].
    unfold memory.history_of. simpl. rewrite lookup_insert_eq.
    subst item. by rewrite HNG.
Qed.

Lemma fits_int4_bounds (z : Z) :
  - 2 ^ 31 <= z <= 2 ^ 31 - 1 -> postgres.fits_int4 z = true.
Proof.
  intros Hz. unfold postgres.fits_int4.
  apply andb_true_iff. split; apply Z.leb_le; lia.
Qed.

Lemma SubmitMove_accepts_postgres (rl : ports.RateLimiter)
      (e1 e2 : postgres.Env) (now : Time) (recID : UUID) (h : Heap CG)
      (db : postgres.DB) (ip token : string) (gameID clientID : UUID)
      (req : usecase.SubmitMoveRequest) (r : postgres.GameRow)
      (p : postgres.PlayerRow) :
  rl ip token = true ->
  postgres.games db !! gameID = Some r ->
  spec.playable (postgres.status r) (postgres.fen r)
    (postgres.state_version r) req ->
  postgres.game_players db !! (gameID, clientID) = Some p ->
  postgres.has_moved p = false ->
  recID ∉ (postgres.m_id <$> postgres.moves db) ->
  0 <= postgres.ply_count r < 2 ^ 31 - 1 ->
  0 <= postgres.state_version r < 2 ^ 31 - 1 ->
  ∃ NG db' row,
    usecase.SubmitMove postgres_GameStore rl e1 e2 now recID h db ip token
      gameID clientID req
    = ((h ++ [postgres.scanGame gameID r]) ++ [NG], db',
       Ok (usecase.mkSubmitMoveResult
             (mkMoveRecord recID (usecase.req_UCI req) (postgres.fen r)
                (FEN NG) now)
             (S (List.length h))
             (postgres.fetchMoveHistory db' gameID)
             (negb (String.eqb (Status_ NG) StatusOngoing))))
    ∧ postgres.games db' !! gameID
      = Some (postgres.mkGameRow (Status_ NG) (Result_ NG) (FEN NG)
                (SideToMove NG) (postgres.ply_count r + 1)
                (Some (usecase.req_UCI req))
                (Some (postgres.timestamptz now))
                (postgres.state_version r + 1) (postgres.created_at r)
                (postgres.timestamptz now))
    ∧ spec.replay_step (postgres.fen r) (usecase.req_UCI req) = Some (FEN NG)
    ∧ postgres.game_players db' !! (gameID, clientID)
      = Some (postgres.mkPlayerRow true (postgres.gp_created_at p))
    ∧ postgres.moves db' = postgres.moves db ++ [row]
    ∧ postgres.m_id row = recID ∧ postgres.m_game_id row = gameID
    ∧ postgres.m_ply row = postgres.ply_count r
    ∧ postgres.m_uci row = usecase.req_UCI req
    ∧ postgres.m_client_id row = clientID
    ∧ postgres.m_fen_before row = postgres.fen r
    ∧ postgres.m_fen_after row = FEN NG.
Proof.
  intros Hrl Hg (Hver & Hnt & Hwf & Hleg) Hgp Hmv Hfresh Hply Hv.
  set (G := postgres.scanGame (CG := CG) gameID r).
  assert ((h ++ [G]) !! List.length h = Some G) as HG
      by (by apply list_lookup_middle).
  destruct (proj2 (ApplyMove_ok_iff (h ++ [G]) (List.length h) G
                     (usecase.req_UCI req) now recID HG))
    as (NG & rec & Happ & HvNG & HpNG & Hid & Huci); [done|].
  pose proof Happ as Hinv.
  apply ApplyMove_inv in Hinv
    as (G' & f & cg & HG' & _ & Hu & Hf & Hm & _ & Hh & Hrec).
  rewrite HG in HG'. injection HG' as <-.
  apply app_inv_head in Hh. injection Hh as HNG.
  destruct (valid_uci_splits _ Hu) as [[[fromSq toSq] promotion] Hsp].
  assert (GoInt.in_range (postgres.ply_count r)) as Hr1
      by (unfold GoInt.in_range, GoInt.min_int, GoInt.max_int; lia).
  assert (GoInt.in_range (postgres.state_version r)) as Hr2
      by (unfold GoInt.in_range, GoInt.min_int, GoInt.max_int; lia).
  assert (StateVersion NG = postgres.state_version r + 1) as HvNG'.
  { rewrite HvNG. apply add_one_exact; [done|].
    unfold GoInt.max_int. simpl. lia. }
  assert (PlyCount NG = postgres.ply_count r + 1) as HpNG'.
  { rewrite HpNG. apply add_one_exact; [done|].
    unfold GoInt.max_int. simpl. lia. }
  assert (List.length (h ++ [G]) = S (List.length h)) as Hlen
      by (rewrite length_app; simpl; lia).
  set (row := postgres.mkMoveRow recID gameID (postgres.ply_count r)
                (usecase.req_UCI req) fromSq toSq promotion clientID
                (postgres.fen r) (FEN NG) (postgres.timestamptz now)).
  exists NG. eexists. exists row.
  split.
  - unfold usecase.SubmitMove. rewrite Hrl. simpl.
    unfold postgres.GetByID. rewrite Hg. simpl.
    fold G. rewrite HG.
    destruct (decide (StateVersion G ≠ usecase.ExpectedVersion req));
      [contradiction|].
    rewrite Happ. rewrite list_lookup_middle by done. simpl.
    rewrite HpNG. fold (PlyCount G).
    replace (PlyCount G) with (postgres.ply_count r) by done.
    rewrite sub_add_one by done.
    unfold postgres.PersistMove. rewrite Hgp, Hmv.
    rewrite Hrec. simpl. rewrite Hsp.
    unfold postgres.exec_InsertMove. simpl.
    rewrite bool_decide_eq_false_2 by done.
    rewrite Hg. simpl.
    rewrite fits_int4_bounds by lia. simpl.
    rewrite list_lookup_middle by done.
    unfold postgres.exec_UpdateGame. simpl.
    rewrite HvNG', HpNG'.
    replace (GoInt.sub (postgres.state_version r + 1) 1)
      with (postgres.state_version r).
    2: { rewrite <- (add_one_exact (postgres.state_version r));
           [by rewrite sub_add_one|done|].
         unfold GoInt.max_int. simpl. lia. }
    rewrite !fits_int4_bounds by lia. simpl. rewrite Hg.
    destruct (decide (postgres.state_version r = postgres.state_version r));
      [|contradiction].
    unfold postgres.exec_MarkMoved. simpl. rewrite Hgp.
    rewrite list_lookup_middle by done. simpl.
    rewrite Hlen. rewrite HNG. simpl. reflexivity.
  - simpl. rewrite !lookup_insert_eq.
    rewrite HNG. simpl.
    split; [done|].
    split; [unfold spec.replay_step; simpl in Hf; by rewrite Hf, Hm|].
    split; [done|]. split; [|done].
    subst row. by rewrite HNG.
Qed.

(** X8. An assigned client that has not moved and presents a playable
    request is accepted: [SubmitMove] returns the move record and the
    successor at a fresh address, the store holds the successor under the
    game's identifier and the client's moved flag, and the history has
    grown by the one item of this move, at the ply of the game before the
    move.  In the in-memory store this needs the version to be an [int];
    in the transactional store the counters must fit their [INT] columns
    and the identifier of the move must be new; the row of the game then
    holds the time of the call as its [TIMESTAMPTZ] columns keep it, in
    whole microseconds. *)
Theorem SubmitMove_accepts (rl : ports.RateLimiter) (now : Time)
        (recID : UUID) (h : Heap CG) (ip token : string)
        (gameID clientID : UUID) (req : usecase.SubmitMoveRequest) :
  rl ip token = true ->
  (∀ (e1 e2 : memory.Env) (s : memory.Store) (g : ptr) (G : Game CG),
     memory.games s !! gameID = Some g -> h !! g = Some G ->
     spec.playable (Status_ G) (FEN G) (StateVersion G) req ->
     GoInt.in_range (StateVersion G) ->
     memory.member (memory.assigned s) gameID clientID = true ->
     memory.member (memory.moved s) gameID clientID = false ->
     ∃ NG item s',
       usecase.SubmitMove memory_GameStore rl e1 e2 now recID h s ip token
         gameID clientID req
       = (h ++ [NG], s',
          Ok (usecase.mkSubmitMoveResult
                (mkMoveRecord recID (usecase.req_UCI req) (FEN G) (FEN NG)
                   now)
                (List.length h)
                (memory.history_of s gameID ++ [item])
                (negb (String.eqb (Status_ NG) StatusOngoing))))
       ∧ memory.games s' !! gameID = Some (List.length h)
       ∧ ID NG = ID G
       ∧ StateVersion NG = GoInt.add (StateVersion G) 1
       ∧ spec.replay_step (FEN G) (usecase.req_UCI req) = Some (FEN NG)
       ∧ memory.member (memory.moved s') gameID clientID = true
       ∧ memory.assigned s' = memory.assigned s
       ∧ memory.history_of s' gameID = memory.history_of s gameID ++ [item]
       ∧ UCI item = usecase.req_UCI req ∧ ClientID item = clientID
       ∧ Ply item = GoInt.sub (GoInt.add (PlyCount G) 1) 1
       ∧ FENBefore item = FEN G ∧ FENAfter item = FEN NG)
  ∧ (∀ (e1 e2 : postgres.Env) (db : postgres.DB) (r : postgres.GameRow)
       (p : postgres.PlayerRow),
       postgres.games db !! gameID = Some r ->
       spec.playable (postgres.status r) (postgres.fen r)
         (postgres.state_version r) req ->
       postgres.game_players db !! (gameID, clientID) = Some p ->
       postgres.has_moved p = false ->
       recID ∉ (postgres.m_id <$> postgres.moves db) ->
       0 <= postgres.ply_count r < 2 ^ 31 - 1 ->
       0 <= postgres.state_version r < 2 ^ 31 - 1 ->
       ∃ NG db' row,
         usecase.SubmitMove postgres_GameStore rl e1 e2 now recID h db ip
           token gameID clientID req
         = ((h ++ [postgres.scanGame gameID r]) ++ [NG], db',
            Ok (usecase.mkSubmitMoveResult
                  (mkMoveRecord recID (usecase.req_UCI req) (postgres.fen r)
                     (FEN NG) now)
                  (S (List.length h))
                  (postgres.fetchMoveHistory db' gameID)
                  (negb (String.eqb (Status_ NG) StatusOngoing))))
         ∧ postgres.games db' !! gameID
           = Some (postgres.mkGameRow (Status_ NG) (Result_ NG) (FEN NG)
                     (SideToMove NG) (postgres.ply_count r + 1)
                     (Some (usecase.req_UCI req))
                     (Some (postgres.timestamptz now))
                     (postgres.state_version r + 1) (postgres.created_at r)
                     (postgres.timestamptz now))
         ∧ spec.replay_step (postgres.fen r) (usecase.req_UCI req)
           = Some (FEN NG)
         ∧ postgres.game_players db' !! (gameID, clientID)
           = Some (postgres.mkPlayerRow true (postgres.gp_created_at p))
         ∧ postgres.moves db' = postgres.moves db ++ [row]
         ∧ postgres.m_id row = recID ∧ postgres.m_game_id row = gameID
         ∧ postgres.m_ply row = postgres.ply_count r
         ∧ postgres.m_uci row = usecase.req_UCI req
         ∧ postgres.m_client_id row = clientID
         ∧ postgres.m_fen_before row = postgres.fen r
         ∧ postgres.m_fen_after row = FEN NG).
Proof.
  intros Hrl. split.
  - intros e1 e2 s g G. by apply SubmitMove_accepts_memory.
  - intros e1 e2 db r p. by apply SubmitMove_accepts_postgres.
Qed.

End SubmitStores.

(** ** Creating games: [New], [CreateWaitingBatch] and seeding *)

Section CreateMemory.
Context {CG : Type} {eng : chess.Engine CG}.
Import game.

(** The object that [NewGame] allocates. *)
Lemma NewGame_new (h : Heap CG) (id : UUID) (t : Time) :
  ∃ obj, NewGame h id t = (h ++ [obj], List.length h)
         ∧ spec.new_game obj id StatusOngoing t.
Proof.
  unfold NewGame, fromChessGame, alloc. eexists. split; [reflexivity|].
  by repeat split.
Qed.

Lemma new_game_waiting (obj : Game CG) (id : UUID) (t : Time) :
  spec.new_game obj id StatusOngoing t ->
  spec.new_game (with_Status obj StatusWaiting) id StatusWaiting t.
Proof. intros (? & ? & ? & ? & ? & ? & ? & ?). by repeat split. Qed.

Lemma holds_new_heap_ext (h l : Heap CG) (s : memory.Store) (k : UUID)
      (st : Status) (t : Time) :
  spec.holds_new h s k st t -> spec.holds_new (h ++ l) s k st t.
Proof.
  intros (p & G & Hk & HG & Hnew). exists p, G.
  split; [done|]. split; [by apply lookup_app_l_Some|done].
Qed.

(** *** The seeding loop of [New] *)

Lemma seed_loop_step (e : memory.Env) (n i : nat) (h : Heap CG)
      (s : memory.Store) :
  ∃ obj,
    spec.new_game obj (memory.new_uuid e i) StatusOngoing (memory.now e)
    ∧ memory.seed_loop e (S n) i h s
      = memory.seed_loop e n (S i) (h ++ [obj])
          (memory.set_games s
             (<[memory.new_uuid e i := List.length h]> (memory.games s))).
Proof.
  eexists. split; cycle 1.
  - simpl. unfold NewGame, fromChessGame, alloc. reflexivity.
  - by repeat split.
Qed.

Lemma seed_loop_frame (e : memory.Env) (n i : nat) (h : Heap CG)
      (s : memory.Store) :
  ∃ l, fst (memory.seed_loop e n i h s) = h ++ l
       ∧ memory.assigned (snd (memory.seed_loop e n i h s))
         = memory.assigned s
       ∧ memory.moved (snd (memory.seed_loop e n i h s)) = memory.moved s
       ∧ memory.history (snd (memory.seed_loop e n i h s))
         = memory.history s
       ∧ (spec.wf_memory h s ->
          spec.wf_memory (h ++ l) (snd (memory.seed_loop e n i h s))).
Proof.
  revert i h s. induction n as [|n IH]; intros i h s.
  - exists []. simpl. by rewrite app_nil_r.
  - destruct (seed_loop_step e n i h s) as (obj & Hnew & ->).
    destruct (IH (S i) (h ++ [obj])
                (memory.set_games s
                   (<[memory.new_uuid e i := List.length h]>
                      (memory.games s))))
      as (l & Hh & Ha & Hm & Hhi & Hwf).
    exists ([obj] ++ l). rewrite Hh, Ha, Hm, Hhi.
    split; [by rewrite <- app_assoc|]. split; [done|]. split; [done|].
    split; [done|]. intros Hwf0. rewrite app_assoc. apply Hwf.
    intros k p. simpl.
    destruct (decide (memory.new_uuid e i = k)) as [<- | Hne].
    + rewrite lookup_insert_eq. intros [= <-]. exists obj.
      split; [by apply list_lookup_middle|]. by destruct Hnew.
    + rewrite lookup_insert_ne by done. intros Hk.
      destruct (Hwf0 k p Hk) as (G & HG & Hid). exists G.
      split; [by apply lookup_app_l_Some|done].
Qed.

Lemma seed_loop_keeps (e : memory.Env) (n i : nat) (h : Heap CG)
      (s : memory.Store) (k : UUID) :
  spec.holds_new h s k StatusOngoing (memory.now e) ->
  spec.holds_new (fst (memory.seed_loop e n i h s))
    (snd (memory.seed_loop e n i h s)) k StatusOngoing (memory.now e).
Proof.
  revert i h s. induction n as [|n IH]; intros i h s; [done|].
  destruct (seed_loop_step e n i h s) as (obj & Hnew & ->).
  intros (p & W & Hk & HW & HnewW). apply IH.
  destruct (decide (memory.new_uuid e i = k)) as [Heq | Hne].
  - exists (List.length h), obj. simpl. rewrite Heq, lookup_insert_eq.
    split; [done|]. split; [by apply list_lookup_middle|]. by rewrite <- Heq.
  - exists p, W. simpl. rewrite lookup_insert_ne by done.
    split; [done|]. split; [by apply lookup_app_l_Some|done].
Qed.

Lemma seed_loop_creates (e : memory.Env) (n i j : nat) (h : Heap CG)
      (s : memory.Store) :
  (j < n)%nat ->
  spec.holds_new (fst (memory.seed_loop e n i h s))
    (snd (memory.seed_loop e n i h s)) (memory.new_uuid e (i + j))
    StatusOngoing (memory.now e).
Proof.
  revert i j h s. induction n as [|n IH]; intros i j h s Hj; [lia|].
  destruct (seed_loop_step e n i h s) as (obj & Hnew & ->).
  destruct j as [|j].
  - rewrite Nat.add_0_r. apply seed_loop_keeps.
    exists (List.length h), obj. simpl. rewrite lookup_insert_eq.
    split; [done|]. split; [by apply list_lookup_middle|done].
  - replace (i + S j)%nat with (S i + j)%nat by lia. apply IH. lia.
Qed.

Lemma seed_loop_games (e : memory.Env) (n i : nat) (h : Heap CG)
      (s : memory.Store) (k : UUID) (p : ptr) :
  memory.games (snd (memory.seed_loop e n i h s)) !! k = Some p ->
  memory.games s !! k = Some p
  ∨ ((∃ j, (j < n)%nat ∧ k = memory.new_uuid e (i + j))
     ∧ spec.holds_new (fst (memory.seed_loop e n i h s))
         (snd (memory.seed_loop e n i h s)) k StatusOngoing (memory.now e)).
Proof.
  revert i h s. induction n as [|n IH]; intros i h s; [by left|].
  destruct (seed_loop_step e n i h s) as (obj & Hnew & ->).
  intros Hk.
  destruct (IH _ _ _ Hk) as [Hold | [(j & Hj & ->) Hnew']].
  - simpl in Hold.
    destruct (decide (memory.new_uuid e i = k)) as [Heq | Hne].
    + right. split.
      { exists 0%nat. split; [lia|]. by rewrite Nat.add_0_r. }
      subst k. apply seed_loop_keeps.
      exists (List.length h), obj. simpl. rewrite lookup_insert_eq.
      split; [done|]. split; [by apply list_lookup_middle|done].
    + rewrite lookup_insert_ne in Hold by done. by left.
  - right. split; [|done]. exists (S j). split; [lia|]. f_equal. lia.
Qed.

(** X12. [New(seedCount)] gives a store without assignments, moved
    flags or history, in which every identifier drawn has a new ongoing
    game and every game is such a one, stored under its own identifier.
    A count of zero or less gives the empty store. *)
Theorem New_seeds (e : memory.Env) (h : Heap CG) (seedCount : Z) :
  ∃ l s',
    memory.New e h seedCount = (h ++ l, s')
    ∧ memory.assigned s' = ∅ ∧ memory.moved s' = ∅ ∧ memory.history s' = ∅
    ∧ spec.wf_memory (h ++ l) s'
    ∧ (∀ j, (j < Z.to_nat seedCount)%nat ->
            spec.holds_new (h ++ l) s' (memory.new_uuid e j) StatusOngoing
              (memory.now e))
    ∧ (∀ k p, memory.games s' !! k = Some p ->
              (∃ j, (j < Z.to_nat seedCount)%nat ∧ k = memory.new_uuid e j)
              ∧ spec.holds_new (h ++ l) s' k StatusOngoing (memory.now e))
    ∧ (seedCount <= 0 -> l = [] ∧ s' = memory.empty).
Proof.
  unfold memory.New.
  destruct (seed_loop_frame e (Z.to_nat seedCount) 0 h memory.empty)
    as (l & Hh & Ha & Hm & Hhi & Hwf).
  destruct (memory.seed_loop e (Z.to_nat seedCount) 0 h memory.empty)
    as [h' s'] eqn:Hloop.
  simpl in *. subst h'. exists l, s'.
  split; [done|]. split; [done|]. split; [done|]. split; [done|].
  split; [apply Hwf; by intros k p|].
  split; [|split].
  - intros j Hj.
    pose proof (seed_loop_creates e (Z.to_nat seedCount) 0 j h memory.empty Hj)
      as Hc.
    by rewrite Hloop in Hc.
  - intros k p Hk.
    pose proof (seed_loop_games e (Z.to_nat seedCount) 0 h memory.empty k p)
      as Hg.
    rewrite Hloop in Hg. simpl in Hg.
    destruct (Hg Hk) as [Hold | Hnew]; [done|done].
  - intros Hle. replace (Z.to_nat seedCount) with 0%nat in Hloop by lia.
    simpl in Hloop. injection Hloop as Hl <-.
    split; [|done]. apply (app_inv_head h). by rewrite app_nil_r.
Qed.

(** *** The loop of [CreateWaitingBatch] *)

Lemma batch_loop_step (e : memory.Env) (n i : nat) (h : Heap CG)
      (s : memory.Store) :
  ∃ obj,
    spec.new_game obj (memory.new_uuid e i) StatusOngoing (memory.now e)
    ∧ memory.batch_loop e (S n) i h s
      = memory.batch_loop e n (S i)
          ((h ++ [obj]) ++ [with_Status obj StatusWaiting])
          (memory.set_games s
             (<[memory.new_uuid e i := S (List.length h)]> (memory.games s))).
Proof.
  eexists. split; cycle 1.
  - simpl. unfold NewGame, fromChessGame, alloc. simpl.
    rewrite list_lookup_middle by done.
    rewrite length_app. simpl. rewrite Nat.add_1_r. reflexivity.
  - by repeat split.
Qed.

Lemma batch_step_holds (h : Heap CG) (s : memory.Store) (obj : Game CG)
      (k : UUID) (t : Time) :
  spec.new_game obj k StatusOngoing t ->
  spec.holds_new ((h ++ [obj]) ++ [with_Status obj StatusWaiting])
    (memory.set_games s (<[k := S (List.length h)]> (memory.games s)))
    k StatusWaiting t.
Proof.
  intros Hnew. exists (S (List.length h)), (with_Status obj StatusWaiting).
  simpl. rewrite lookup_insert_eq. split; [done|].
  split; [|by apply new_game_waiting].
  replace (S (List.length h)) with (List.length (h ++ [obj]))
    by (rewrite length_app; simpl; lia).
  by apply list_lookup_middle.
Qed.

(** The loop keeps a new waiting game under its key: a later iteration
    that draws the same identifier stores another one. *)
Lemma batch_loop_keeps (e : memory.Env) (n i : nat) (h h' : Heap CG)
      (s s' : memory.Store) (k : UUID) :
  memory.batch_loop e n i h s = (h', s', Ok tt) ->
  spec.holds_new h s k StatusWaiting (memory.now e) ->
  spec.holds_new h' s' k StatusWaiting (memory.now e).
Proof.
  revert i h s. induction n as [|n IH]; intros i h s.
  - simpl. by intros [= <- <-].
  - destruct (batch_loop_step e n i h s) as (obj & Hnew & ->).
    intros Hloop (p & W & Hk & HW & HnewW).
    apply (IH _ _ _ Hloop).
    destruct (decide (memory.new_uuid e i = k)) as [Heq | Hne].
    + rewrite <- Heq. by apply batch_step_holds.
    + exists p, W. simpl. rewrite lookup_insert_ne by done.
      split; [done|]. split; [|done].
      apply lookup_app_l_Some. by apply lookup_app_l_Some.
Qed.

(** Every identifier drawn by the loop ends up with a new waiting game. *)
Lemma batch_loop_creates (e : memory.Env) (n i j : nat) (h h' : Heap CG)
      (s s' : memory.Store) :
  memory.batch_loop e n i h s = (h', s', Ok tt) ->
  (j < n)%nat ->
  spec.holds_new h' s' (memory.new_uuid e (i + j)) StatusWaiting
    (memory.now e).
Proof.
  revert i j h s. induction n as [|n IH]; intros i j h s Hloop Hj; [lia|].
  destruct (batch_loop_step e n i h s) as (obj & Hnew & Heq).
  rewrite Heq in Hloop.
  destruct j as [|j].
  - rewrite Nat.add_0_r. apply (batch_loop_keeps _ _ _ _ _ _ _ _ Hloop).
    by apply batch_step_holds.
  - replace (i + S j)%nat with (S i + j)%nat by lia.
    apply (IH _ _ _ _ Hloop). lia.
Qed.

(** What the loop leaves under a key is what was there or a new waiting
    game under an identifier it drew. *)
Lemma batch_loop_games (e : memory.Env) (n i : nat) (h h' : Heap CG)
      (s s' : memory.Store) (k : UUID) (p : ptr) :
  memory.batch_loop e n i h s = (h', s', Ok tt) ->
  memory.games s' !! k = Some p ->
  memory.games s !! k = Some p
  ∨ ((∃ j, (j < n)%nat ∧ k = memory.new_uuid e (i + j))
     ∧ spec.holds_new h' s' k StatusWaiting (memory.now e)).
Proof.
  revert i h s. induction n as [|n IH]; intros i h s.
  - simpl. intros [= <- <-]. by left.
  - destruct (batch_loop_step e n i h s) as (obj & Hnew & ->).
    intros Hloop Hk.
    destruct (IH _ _ _ Hloop Hk) as [Hold | [(j & Hj & ->) Hnew']].
    + simpl in Hold.
      destruct (decide (memory.new_uuid e i = k)) as [Heq | Hne].
      * right. split.
        { exists 0%nat. split; [lia|]. by rewrite Nat.add_0_r. }
        subst k. apply (batch_loop_keeps _ _ _ _ _ _ _ _ Hloop).
        by apply batch_step_holds.
      * rewrite lookup_insert_ne in Hold by done. by left.
    + right. split; [|done]. exists (S j). split; [lia|].
      f_equal. lia.
Qed.

End CreateMemory.

Section CreateBatch.
Context {CG : Type} {eng : chess.Engine CG}.
Import game.

(** X13. [CreateWaitingBatch] of the in-memory store never fails.  It
    stores a new waiting game under every identifier it draws; a game
    found in the store afterwards is the one that was there or such a new
    one, so a game is replaced only when its identifier is drawn again.
    Assignments, moved flags and histories are not touched, a well-formed
    store stays well formed, and a count of zero or less changes
    nothing. *)
Theorem memory_CreateWaitingBatch_creates (e : memory.Env) (h : Heap CG)
        (s : memory.Store) (count : Z) :
  ∃ l s',
    memory.CreateWaitingBatch e h s count = (h ++ l, s', Ok tt)
    ∧ memory.assigned s' = memory.assigned s
    ∧ memory.moved s' = memory.moved s
    ∧ memory.history s' = memory.history s
    ∧ (spec.wf_memory h s -> spec.wf_memory (h ++ l) s')
    ∧ (∀ j, (j < Z.to_nat count)%nat ->
            spec.holds_new (h ++ l) s' (memory.new_uuid e j) StatusWaiting
              (memory.now e))
    ∧ (∀ k p, memory.games s' !! k = Some p ->
              memory.games s !! k = Some p
              ∨ ((∃ j, (j < Z.to_nat count)%nat ∧ k = memory.new_uuid e j)
                 ∧ spec.holds_new (h ++ l) s' k StatusWaiting (memory.now e)))
    ∧ (count <= 0 -> l = [] ∧ s' = s).
Proof.
  unfold memory.CreateWaitingBatch.
  destruct (batch_loop_spec e (Z.to_nat count) 0 h s)
    as (l & s' & Hloop & Ha & Hm & Hh & Hg & Hwf).
  exists l, s'. split; [done|]. split; [done|]. split; [done|].
  split; [done|]. split; [done|]. split; [|split].
  - intros j Hj.
    apply (batch_loop_creates e _ 0 j _ _ _ _ Hloop Hj).
  - intros k p Hk.
    apply (batch_loop_games e _ 0 _ _ _ _ k p Hloop Hk).
  - intros Hle. replace (Z.to_nat count) with 0%nat in Hloop by lia.
    simpl in Hloop. injection Hloop as Hl <-.
    split; [|done]. apply (app_inv_head h). by rewrite app_nil_r.
Qed.

End CreateBatch.

(** *** The batch of the transactional store *)

Lemma postgres_batch_loop_players (e : postgres.Env) (n i : nat)
      (db : postgres.DB) :
  postgres.game_players (postgres.batch_loop e n i db)
  = postgres.game_players db.
Proof.
  revert i db. induction n as [|n IH]; intros i db; simpl; [done|].
  rewrite IH. unfold postgres.exec_InsertWaiting.
  by destruct (postgres.games db !! postgres.new_uuid e i).
Qed.

Lemma postgres_batch_loop_creates (e : postgres.Env) (n i j : nat)
      (db : postgres.DB) :
  (j < n)%nat ->
  is_Some (postgres.games (postgres.batch_loop e n i db)
             !! postgres.new_uuid e (i + j)).
Proof.
  revert i j db. induction n as [|n IH]; intros i j db Hj; [lia|].
  simpl. destruct j as [|j].
  - rewrite Nat.add_0_r.
    assert (is_Some (postgres.games
                       (postgres.exec_InsertWaiting db (postgres.new_uuid e i)
                          (postgres.now e)) !! postgres.new_uuid e i))
      as [row Hrow].
    { unfold postgres.exec_InsertWaiting.
      destruct (postgres.games db !! postgres.new_uuid e i) eqn:Hid.
      - rewrite Hid. by eexists.
      - simpl. rewrite lookup_insert_eq. by eexists. }
    exists row. by apply postgres_batch_loop_rows.
  - replace (i + S j)%nat with (S i + j)%nat by lia. apply IH. lia.
Qed.

Lemma postgres_batch_loop_games (e : postgres.Env) (n i : nat)
      (db : postgres.DB) (gid : UUID) (row : postgres.GameRow) :
  postgres.games (postgres.batch_loop e n i db) !! gid = Some row ->
  postgres.games db !! gid = Some row
  ∨ ((∃ j, (j < n)%nat ∧ gid = postgres.new_uuid e (i + j))
     ∧ postgres.games db !! gid = None
     ∧ row = spec.waiting_row (postgres.now e)).
Proof.
  revert i db. induction n as [|n IH]; intros i db; simpl; [by left|].
  intros Hrow.
  destruct (IH _ _ Hrow) as [Hold | [(j & Hj & ->) [Hnone ->]]].
  - unfold postgres.exec_InsertWaiting in Hold.
    destruct (postgres.games db !! postgres.new_uuid e i) eqn:Hid;
      [by left|].
    simpl in Hold.
    destruct (decide (postgres.new_uuid e i = gid)) as [<- | Hne].
    + rewrite lookup_insert_eq in Hold. injection Hold as <-.
      right. split; [|done]. exists 0%nat. split; [lia|].
      by rewrite Nat.add_0_r.
    + rewrite lookup_insert_ne in Hold by done. by left.
  - right. split; [exists (S j); split; [lia|f_equal; lia]|].
    split; [|done].
    unfold postgres.exec_InsertWaiting in Hnone.
    destruct (postgres.games db !! postgres.new_uuid e i) eqn:Hid; [done|].
    simpl in Hnone.
    destruct (decide (postgres.new_uuid e i = postgres.new_uuid e (S i + j)))
      as [Heq | Hne].
    + rewrite Heq, lookup_insert_eq in Hnone. discriminate.
    + by rewrite lookup_insert_ne in Hnone.
Qed.

(** X14. [CreateWaitingBatch] of the transactional store never fails
    and never changes a row that exists: a new identifier gets the waiting
    row of the initial position at version 0, an identifier that is taken
    is passed over ([ON CONFLICT DO NOTHING]).  Every identifier drawn has
    a row afterwards; [game_players] and [moves] are not touched, no game
    object is allocated, and a count of zero or less changes nothing. *)
Theorem postgres_CreateWaitingBatch_creates (CG : Type) (e : postgres.Env)
        (h : game.Heap CG) (db : postgres.DB) (count : Z) :
  ∃ db',
    postgres.CreateWaitingBatch e h db count = (h, db', Ok tt)
    ∧ postgres.game_players db' = postgres.game_players db
    ∧ postgres.moves db' = postgres.moves db
    ∧ (∀ gid row, postgres.games db !! gid = Some row ->
                  postgres.games db' !! gid = Some row)
    ∧ (∀ gid row, postgres.games db' !! gid = Some row ->
                  postgres.games db !! gid = Some row
                  ∨ ((∃ j, (j < Z.to_nat count)%nat
                           ∧ gid = postgres.new_uuid e j)
                     ∧ postgres.games db !! gid = None
                     ∧ row = spec.waiting_row (postgres.now e)))
    ∧ (∀ j, (j < Z.to_nat count)%nat ->
            is_Some (postgres.games db' !! postgres.new_uuid e j))
    ∧ (count <= 0 -> db' = db).
Proof.
  unfold postgres.CreateWaitingBatch. eexists. split; [reflexivity|].
  destruct (postgres_batch_loop_rows e (Z.to_nat count) 0 db) as [Hm Hrows].
  split; [apply postgres_batch_loop_players|]. split; [done|].
  split; [done|]. split; [|split].
  - intros gid row Hrow.
    apply (postgres_batch_loop_games e _ 0 db gid row Hrow).
  - intros j Hj.
    apply (postgres_batch_loop_creates e _ 0 j db Hj).
  - intros Hle. by replace (Z.to_nat count) with 0%nat by lia.
Qed.

(** ** Matchmaking: what a claim returns and when it finds a game *)

Section ClaimMore.
Context {CG : Type} {eng : chess.Engine CG}.
Import game.

(** In a well-formed store the selection loop does not panic. *)
Lemma choose_wf (h : Heap CG) (s : memory.Store) (clientID : UUID)
      (order : list UUID) :
  spec.wf_memory h s -> ∃ r, memory.choose h s clientID order = Ok r.
Proof.
  intros Hwf. induction order as [|k rest IH]; simpl; [by eexists|].
  destruct (memory.games s !! k) as [g|] eqn:Hg; [|done].
  destruct (Hwf _ _ Hg) as (G & -> & _).
  repeat case_match; try done; by eexists.
Qed.

Lemma memory_ClaimNextGame_wf_result (e : memory.Env) (h h' : Heap CG)
      (s s' : memory.Store) (clientID : UUID)
      (r : outcome (ptr * list MoveHistoryItem)) :
  spec.wf_memory h s ->
  memory.ClaimNextGame e h s clientID = (h', s', r) ->
  (∃ x, r = Ok x) ∨ (r = Fail ErrNoGamesAvailable ∧ h' = h ∧ s' = s).
Proof.
  intros Hwf. unfold memory.ClaimNextGame.
  destruct (choose_wf h s clientID (memory.iter_order e) Hwf) as [[p|] Hc];
    rewrite Hc.
  - destruct (choose_sound _ _ _ _ _ Hc) as (k & G & _ & _ & HG & _).
    rewrite HG.
    destruct (String.eqb (Status_ G) StatusWaiting); simpl;
      intros [= <- <- <-]; left; by eexists.
  - intros [= <- <- <-]. by right.
Qed.

(** The game that an in-memory claim returns. *)
Lemma memory_ClaimNextGame_claimed (e : memory.Env) (h h' : Heap CG)
      (s s' : memory.Store) (clientID : UUID) (p : ptr)
      (hist : list MoveHistoryItem) :
  spec.wf_memory h s ->
  memory.ClaimNextGame e h s clientID = (h', s', Ok (p, hist)) ->
  ∃ p0 G0 G,
    memory.games s !! ID G = Some p0 ∧ h !! p0 = Some G0
    ∧ spec.non_terminal (Status_ G0)
    ∧ G = with_Status G0 StatusOngoing
    ∧ h' !! p = Some G
    ∧ memory.games s' !! ID G = Some p
    ∧ (∀ k, k ≠ ID G -> memory.games s' !! k = memory.games s !! k)
    ∧ memory.member (memory.assigned s) (ID G) clientID = false
    ∧ memory.member (memory.assigned s') (ID G) clientID = true
    ∧ memory.moved s' = memory.moved s
    ∧ memory.history s' = memory.history s
    ∧ hist = memory.history_of s (ID G)
    ∧ (∃ l, h' = h ++ l).
Proof.
  intros Hwf Hc.
  apply memory_ClaimNextGame_ok in Hc
    as (k & p0 & G & Hin & Hg & HG & Hnt & Hm & Ha & Hmv & Hhi & Hh & Hcase).
  destruct (Hwf _ _ Hg) as (G0 & HG0 & Hk).
  rewrite HG in HG0. injection HG0 as <-. subst k.
  exists p0, G, (with_Status G StatusOngoing). simpl.
  split; [done|]. split; [done|]. split; [done|]. split; [done|].
  destruct Hcase as [(Hst & -> & -> & Hgs) | (Hst & -> & -> & Hgs)].
  - split; [by apply list_lookup_middle|].
    split; [rewrite Hgs; by rewrite lookup_insert_eq|].
    split; [intros k Hne; rewrite Hgs; by rewrite lookup_insert_ne|].
    split; [done|]. split; [rewrite Ha; apply member_add_member|].
    split; [done|]. split; [done|]. split; [done|]. by eexists.
  - assert (with_Status G StatusOngoing = G) as ->
        by (destruct G; simpl in *; by subst).
    split; [done|]. split; [by rewrite Hgs|].
    split; [intros k Hne; by rewrite Hgs|].
    split; [done|]. split; [rewrite Ha; apply member_add_member|].
    split; [done|]. split; [done|]. split; [done|].
    exists []. by rewrite app_nil_r.
Qed.

(** A claim finds a game as soon as the iteration meets a key under which
    a game that is waiting or ongoing is not assigned to the client. *)
Lemma memory_ClaimNextGame_finds (e : memory.Env) (h : Heap CG)
      (s : memory.Store) (clientID k : UUID) (p : ptr) (G : Game CG) :
  spec.wf_memory h s ->
  k ∈ memory.iter_order e ->
  memory.games s !! k = Some p -> h !! p = Some G ->
  spec.non_terminal (Status_ G) ->
  memory.member (memory.assigned s) (ID G) clientID = false ->
  ∃ h' s' x, memory.ClaimNextGame e h s clientID = (h', s', Ok x).
Proof.
  intros Hwf Hin Hk HG Hnt Hm.
  destruct (choose_complete h s clientID (memory.iter_order e) k p G)
    as [q Hq]; try done.
  unfold memory.ClaimNextGame. rewrite Hq.
  destruct (choose_sound _ _ _ _ _ Hq) as (k' & G' & _ & _ & HG' & _).
  rewrite HG'.
  destruct (String.eqb (Status_ G') StatusWaiting); simpl; by repeat eexists.
Qed.

(** X10. With a batch size above zero, [GetNext] over a well-formed
    in-memory store gives the client a game, whatever the store held: it
    is enough that one of the identifiers drawn for the batch is not one
    the client is assigned to and that the iteration of the second claim
    meets it.  The game returned is ongoing, it is stored under its
    identifier, the client was not assigned to it before and is assigned
    to it now, and the history returned is the stored history of that
    game. *)
Theorem GetNext_replenishes_memory (rl : ports.RateLimiter) (batchSize : Z)
        (e1 e2 e3 : memory.Env) (h : Heap CG) (s : memory.Store)
        (ip token : string) (clientID : UUID) (j : nat) :
  rl ip token = true ->
  spec.wf_memory h s ->
  (j < Z.to_nat batchSize)%nat ->
  memory.member (memory.assigned s) (memory.new_uuid e2 j) clientID = false ->
  memory.new_uuid e2 j ∈ memory.iter_order e3 ->
  ∃ h' s' g hist G,
    usecase.GetNext memory_GameStore rl batchSize e1 e2 e3 h s ip token
      clientID
    = (h', s', Ok (usecase.mkNextGameResult g hist))
    ∧ h' !! g = Some G ∧ Status_ G = StatusOngoing
    ∧ memory.games s' !! ID G = Some g
    ∧ memory.member (memory.assigned s) (ID G) clientID = false
    ∧ memory.member (memory.assigned s') (ID G) clientID = true
    ∧ hist = memory.history_of s (ID G).
Proof.
  intros Hrl Hwf Hj Hfresh Hin.
  unfold usecase.GetNext. rewrite Hrl. simpl.
  destruct (memory.ClaimNextGame e1 h s clientID) as [[h1 s1] r1] eqn:Hc1.
  destruct (memory_ClaimNextGame_wf_result _ _ _ _ _ _ _ Hwf Hc1)
    as [[[g hist] ->] | (-> & -> & ->)].
  - destruct (memory_ClaimNextGame_claimed _ _ _ _ _ _ _ _ Hwf Hc1)
      as (p0 & G0 & G & Hg0 & HG0 & Hnt & -> & HG & Hg & _ & Hm & Hm' & _ & _
          & Hh & _).
    exists h1, s1, g, hist, (with_Status G0 StatusOngoing).
    by repeat split.
  - simpl. unfold memory.CreateWaitingBatch.
    destruct (batch_loop_spec e2 (Z.to_nat batchSize) 0 h s)
      as (l & s2 & Hloop & Ha & Hmv & Hhi & Hg & Hwf2).
    rewrite Hloop.
    destruct (batch_loop_creates e2 _ 0 j _ _ _ _ Hloop Hj)
      as (p & W & Hk & HW & Hid & Hst & _).
    simpl in Hk.
    destruct (memory_ClaimNextGame_finds e3 (h ++ l) s2 clientID
                (memory.new_uuid e2 j) p W) as (h3 & s3 & [g hist] & Hc3);
      try done.
    { by apply Hwf2. }
    { rewrite Hst. by left. }
    { by rewrite Ha, Hid. }
    rewrite Hc3.
    destruct (memory_ClaimNextGame_claimed _ _ _ _ _ _ _ _ (Hwf2 Hwf) Hc3)
      as (p0 & G0 & G & Hg0 & HG0 & Hnt & -> & HG & Hg' & _ & Hm & Hm' & _ & _
          & Hh & _).
    exists h3, s3, g, hist, (with_Status G0 StatusOngoing).
    split; [done|]. split; [done|]. split; [done|]. split; [done|].
    split; [by rewrite <- Ha|]. split; [done|].
    rewrite Hh. unfold memory.history_of. by rewrite Hhi.
Qed.

End ClaimMore.

Section ClaimMorePostgres.
Context {CG : Type}.
Import game.

(** The game that a transactional claim returns, and its row. *)
Lemma postgres_ClaimNextGame_claimed (e : postgres.Env) (h h' : Heap CG)
      (db db' : postgres.DB) (clientID : UUID) (g : ptr)
      (hist : list MoveHistoryItem) :
  postgres.ClaimNextGame e h db clientID = (h', db', Ok (g, hist)) ->
  ∃ id r r' G,
    postgres.games db !! id = Some r
    ∧ spec.non_terminal (postgres.status r)
    ∧ G = with_Status (postgres.scanGame id r) StatusOngoing
    ∧ h' = h ++ [G] ∧ g = List.length h
    ∧ postgres.games db' !! id = Some r'
    ∧ postgres.scanGame (CG := CG) id r'
      = with_Status
          (mkGame id (postgres.status r) (postgres.result r) (postgres.fen r)
             (postgres.side_to_move r) (postgres.ply_count r)
             (postgres.last_move_uci r) (postgres.last_move_at r)
             (postgres.state_version r) (postgres.created_at r)
             (if String.eqb (postgres.status r) StatusWaiting
              then postgres.db_now e else postgres.updated_at r) None)
          StatusOngoing
    ∧ (∀ id', id' ≠ id ->
              postgres.games db' !! id' = postgres.games db !! id')
    ∧ postgres.game_players db !! (id, clientID) = None
    ∧ postgres.game_players db'
      = <[(id, clientID) := postgres.mkPlayerRow false (postgres.db_now e)]>
          (postgres.game_players db)
    ∧ postgres.moves db' = postgres.moves db
    ∧ hist = postgres.fetchMoveHistory db id.
Proof.
  intros Hc. pose proof Hc as Hok.
  apply postgres_ClaimNextGame_ok in Hok
    as (id & r & Hq & -> & -> & Hgp & Hgp' & Hmv & Hframe & ->).
  destruct (queryClaimNextGame_sound _ _ _ _ _ Hq)
    as (_ & (Hg & Hnt & _) & _).
  revert Hc. unfold postgres.ClaimNextGame. rewrite Hq. simpl.
  rewrite bool_decide_eq_false_2 by (rewrite Hgp; by intros [? ?]).
  unfold postgres.exec_ActivateGame. simpl. rewrite Hg.
  change "waiting"%string with StatusWaiting.
  destruct (String.eqb (postgres.status r) StatusWaiting) eqn:Hw.
  - intros [= <- <-].
    eexists id, r, _, _. rewrite Hw. split; [done|]. split; [done|].
    split; [reflexivity|].
    split; [by rewrite insert_app_r_alt, Nat.sub_diag by done|].
    split; [done|]. simpl. rewrite lookup_insert_eq.
    split; [reflexivity|]. split; [reflexivity|].
    split; [intros id' Hne; by rewrite lookup_insert_ne|].
    done.
  - intros [= <-].
    assert (postgres.status r = StatusOngoing) as Ho.
    { destruct Hnt as [Hst | Hst]; [|done].
      rewrite Hst in Hw. discriminate. }
    eexists id, r, r, _. rewrite Hw. split; [done|]. split; [done|].
    split; [reflexivity|].
    split; [f_equal; f_equal; unfold with_Status, postgres.scanGame; simpl;
            by rewrite Ho|].
    split; [done|]. split; [done|].
    split; [unfold with_Status, postgres.scanGame; simpl; by rewrite Ho|].
    done.
Qed.

Lemma postgres_ClaimNextGame_not_ok (e : postgres.Env) (h h' : Heap CG)
      (db db' : postgres.DB) (clientID : UUID)
      (r : outcome (ptr * list MoveHistoryItem)) :
  postgres.ClaimNextGame e h db clientID = (h', db', r) ->
  (∃ x, r = Ok x) ∨ (r = Fail ErrNoGamesAvailable ∧ db' = db).
Proof.
  unfold postgres.ClaimNextGame. intros Hc.
  repeat case_match; simplify_eq; try (by right); left; by eexists.
Qed.

(** X11. With a batch size above zero, [GetNext] over the transactional
    store gives the client a game as soon as one identifier drawn for the
    batch is new (no row of [games] or [game_players] has it) and the
    scan of the second claim meets its row unlocked.  The game returned
    is ongoing, in the object and in its row; the client had no
    assignment row for it and has one now, with the moved flag unset. *)
Theorem GetNext_replenishes_postgres (rl : ports.RateLimiter)
        (batchSize : Z) (e1 e2 e3 : postgres.Env) (h : Heap CG)
        (db : postgres.DB) (ip token : string) (clientID : UUID) (j : nat) :
  rl ip token = true ->
  (j < Z.to_nat batchSize)%nat ->
  postgres.games db !! postgres.new_uuid e2 j = None ->
  postgres.game_players db !! (postgres.new_uuid e2 j, clientID) = None ->
  postgres.new_uuid e2 j ∈ postgres.scan_order e3 ->
  postgres.new_uuid e2 j ∉ postgres.locked e3 ->
  ∃ h' db' g hist G r' t,
    usecase.GetNext postgres_GameStore rl batchSize e1 e2 e3 h db ip token
      clientID
    = (h', db', Ok (usecase.mkNextGameResult g hist))
    ∧ h' !! g = Some G ∧ Status_ G = StatusOngoing
    ∧ postgres.games db' !! ID G = Some r'
    ∧ postgres.status r' = StatusOngoing
    ∧ postgres.game_players db !! (ID G, clientID) = None
    ∧ postgres.game_players db' !! (ID G, clientID)
      = Some (postgres.mkPlayerRow false t).
Proof.
  intros Hrl Hj Hnone Hgp Hin Hl.
  unfold usecase.GetNext. rewrite Hrl. simpl.
  destruct (postgres.ClaimNextGame e1 h db clientID) as [[h1 db1] r1] eqn:Hc1.
  destruct (postgres_ClaimNextGame_not_ok _ _ _ _ _ _ _ Hc1)
    as [[[g hist] ->] | (-> & ->)].
  - destruct (postgres_ClaimNextGame_claimed _ _ _ _ _ _ _ _ Hc1)
      as (id & r & r' & G & Hg & Hnt & -> & -> & -> & Hg' & Hscan & _ & Hgp0
          & Hgp' & _).
    eexists _, db1, _, hist, _, r', _. split; [reflexivity|].
    split; [by apply list_lookup_middle|]. simpl.
    split; [done|]. split; [done|].
    split; [by injection Hscan|]. split; [done|].
    rewrite Hgp'. by rewrite lookup_insert_eq.
  - simpl. unfold postgres.CreateWaitingBatch.
    set (db2 := postgres.batch_loop e2 (Z.to_nat batchSize) 0 db).
    destruct (postgres_batch_loop_creates e2 _ 0 j db Hj) as [row Hrow].
    simpl in Hrow. fold db2 in Hrow.
    destruct (postgres_batch_loop_games e2 _ 0 db _ _ Hrow)
      as [Hold | (_ & _ & ->)]; [congruence|].
    assert (postgres.game_players db2 = postgres.game_players db) as Hgp2
        by apply postgres_batch_loop_players.
    destruct (postgres_ClaimNextGame_succeeds e3 h1 db2 clientID
                (postgres.new_uuid e2 j)
                (spec.waiting_row (postgres.now e2)))
      as (h3 & db3 & g & hist & Hc3); try done.
    { split; [done|]. split; [by left|]. by rewrite Hgp2. }
    rewrite Hc3.
    destruct (postgres_ClaimNextGame_claimed _ _ _ _ _ _ _ _ Hc3)
      as (id & r & r' & G & Hg & Hnt & -> & -> & -> & Hg' & Hscan & _ & Hgp0
          & Hgp' & _).
    eexists _, db3, _, hist, _, r', _. split; [reflexivity|].
    split; [by apply list_lookup_middle|]. simpl.
    split; [done|]. split; [done|].
    split; [by injection Hscan|].
    split; [|rewrite Hgp'; by rewrite lookup_insert_eq].
    simpl in Hgp0. by rewrite Hgp2 in Hgp0.
Qed.

End ClaimMorePostgres.

Section Activation.
Context {CG : Type} {eng : chess.Engine CG}.
Import game.

(** X15. A claim changes nothing of the game it returns but its status:
    the object returned is the stored game with status ongoing, and that
    is what the store holds afterwards, so a waiting game is activated (in
    the transactional store its update time becomes the time of the
    statement) and an ongoing game is as it was.  The history returned is
    the stored history of that game; the other games, the moved flags and
    the recorded moves are not touched: the in-memory store keeps its
    map of moved flags, and in the transactional store the one change to
    [game_players] is the new row of the client for this game, with
    [has_moved] false, so every row that was there is there as it
    was. *)
Theorem ClaimNextGame_activates (clientID : UUID) :
  (∀ (e : memory.Env) (h h' : Heap CG) (s s' : memory.Store) (p : ptr)
     (hist : list MoveHistoryItem),
     spec.wf_memory h s ->
     memory.ClaimNextGame e h s clientID = (h', s', Ok (p, hist)) ->
     ∃ p0 G0 G,
       memory.games s !! ID G = Some p0 ∧ h !! p0 = Some G0
       ∧ spec.non_terminal (Status_ G0)
       ∧ G = with_Status G0 StatusOngoing
       ∧ h' !! p = Some G
       ∧ memory.games s' !! ID G = Some p
       ∧ (∀ k, k ≠ ID G -> memory.games s' !! k = memory.games s !! k)
       ∧ memory.moved s' = memory.moved s
       ∧ memory.history s' = memory.history s
       ∧ hist = memory.history_of s (ID G)
       ∧ (∃ l, h' = h ++ l))
  ∧ (∀ (e : postgres.Env) (h h' : Heap CG) (db db' : postgres.DB) (g : ptr)
       (hist : list MoveHistoryItem),
       postgres.ClaimNextGame e h db clientID = (h', db', Ok (g, hist)) ->
       ∃ id r r' G,
         postgres.games db !! id = Some r
         ∧ spec.non_terminal (postgres.status r)
         ∧ G = with_Status (postgres.scanGame id r) StatusOngoing
         ∧ h' = h ++ [G] ∧ g = List.length h
         ∧ postgres.games db' !! id = Some r'
         ∧ postgres.scanGame (CG := CG) id r'
           = with_Status
               (mkGame id (postgres.status r) (postgres.result r)
                  (postgres.fen r) (postgres.side_to_move r)
                  (postgres.ply_count r) (postgres.last_move_uci r)
                  (postgres.last_move_at r) (postgres.state_version r)
                  (postgres.created_at r)
                  (if String.eqb (postgres.status r) StatusWaiting
                   then postgres.db_now e else postgres.updated_at r) None)
               StatusOngoing
         ∧ (∀ id', id' ≠ id ->
                   postgres.games db' !! id' = postgres.games db !! id')
         ∧ postgres.game_players db !! (id, clientID) = None
         ∧ postgres.game_players db'
           = <[(id, clientID) :=
                 postgres.mkPlayerRow false (postgres.db_now e)]>
               (postgres.game_players db)
         ∧ (∀ k row, postgres.game_players db !! k = Some row ->
                     postgres.game_players db' !! k = Some row)
         ∧ postgres.moves db' = postgres.moves db
         ∧ hist = postgres.fetchMoveHistory db id).
Proof.
  split.
  - intros e h h' s s' p hist Hwf Hc.
    destruct (memory_ClaimNextGame_claimed _ _ _ _ _ _ _ _ Hwf Hc)
      as (p0 & G0 & G & H1 & H2 & H3 & H4 & H5 & H6 & H7 & _ & _ & H8 & H9
          & H10 & H11).
    exists p0, G0, G. by repeat split.
  - intros e h h' db db' g hist Hc.
    destruct (postgres_ClaimNextGame_claimed _ _ _ _ _ _ _ _ Hc)
      as (id & r & r' & G & H1 & H2 & H3 & H4 & H5 & H6 & H7 & H8 & Hnew
          & Hgp & H9 & H10).
    exists id, r, r', G.
    do 8 (split; [done|]). split; [done|]. split; [done|].
    split; [|done].
    intros k row Hk. rewrite Hgp. rewrite lookup_insert_ne; [done|].
    intros <-. by rewrite Hnew in Hk.
Qed.

(** ** Active games: [HasActiveGames], [ListOngoing] and the legacy
    assignment *)

Lemma active_loop_wf (h : Heap CG) (s : memory.Store) (order : list UUID) :
  spec.wf_memory h s -> ∃ b, memory.active_loop h s order = Ok b.
Proof.
  intros Hwf. induction order as [|k rest IH]; simpl; [by eexists|].
  destruct (memory.games s !! k) as [g|] eqn:Hg; [|done].
  destruct (Hwf _ _ Hg) as (G & -> & _).
  destruct (_ || _); [by eexists|done].
Qed.

Lemma waiting_or_ongoing_test (st : Status) :
  String.eqb st StatusWaiting || String.eqb st StatusOngoing = true
  <-> spec.non_terminal st.
Proof.
  unfold spec.non_terminal.
  rewrite orb_true_iff, !String.eqb_eq. done.
Qed.

Lemma active_loop_true (h : Heap CG) (s : memory.Store)
      (order : list UUID) :
  memory.active_loop h s order = Ok true ->
  ∃ k p G, k ∈ order ∧ memory.games s !! k = Some p ∧ h !! p = Some G
           ∧ spec.non_terminal (Status_ G).
Proof.
  induction order as [|k rest IH]; simpl; [discriminate|].
  destruct (memory.games s !! k) as [g|] eqn:Hg.
  - destruct (h !! g) as [G|] eqn:HG; [|discriminate].
    destruct (String.eqb (Status_ G) StatusWaiting
              || String.eqb (Status_ G) StatusOngoing) eqn:Hst.
    + intros _. exists k, g, G. split; [by left|].
      split; [done|]. split; [done|]. by apply waiting_or_ongoing_test.
    + intros Hr. destruct (IH Hr) as (k' & p & G' & Hin & Hrest).
      exists k', p, G'. split; [by right|done].
  - intros Hr. destruct (IH Hr) as (k' & p & G' & Hin & Hrest).
    exists k', p, G'. split; [by right|done].
Qed.

Lemma active_loop_false (h : Heap CG) (s : memory.Store)
      (order : list UUID) (k : UUID) (p : ptr) (G : Game CG) :
  memory.active_loop h s order = Ok false ->
  k ∈ order -> memory.games s !! k = Some p -> h !! p = Some G ->
  ¬ spec.non_terminal (Status_ G).
Proof.
  induction order as [|k' rest IH]; simpl; [by intros _ ?%elem_of_nil|].
  intros Hr Hin Hk HG.
  destruct (decide (k' = k)) as [-> | Hne].
  - rewrite Hk, HG in Hr.
    destruct (String.eqb (Status_ G) StatusWaiting
              || String.eqb (Status_ G) StatusOngoing) eqn:Hst;
      [discriminate|].
    intros Hnt. apply waiting_or_ongoing_test in Hnt. congruence.
  - apply elem_of_cons in Hin as [-> | Hin]; [done|].
    apply IH; try done. revert Hr. repeat case_match; try done.
Qed.

Lemma queryHasActive_spec (db : postgres.DB) :
  postgres.queryHasActive db = true <-> spec.active_postgres db.
Proof.
  unfold postgres.queryHasActive, spec.active_postgres, spec.non_terminal.
  rewrite bool_decide_eq_true. unfold map_Exists. done.
Qed.

(** X16. [HasActiveGames] answers true exactly when the store holds a
    game that is waiting or ongoing (in the in-memory store: well formed,
    with the iteration meeting every key), and leaves heap and store as
    they are.  When it answers false no claim can succeed: every
    [ClaimNextGame], of any client, answers [ErrNoGamesAvailable]. *)
Theorem HasActiveGames_exact :
  (∀ (e : memory.Env) (h : Heap CG) (s : memory.Store),
     spec.wf_memory h s ->
     spec.enumerates (memory.iter_order e) (memory.games s) ->
     ∃ b, memory.HasActiveGames e h s = (h, s, Ok b)
          ∧ (b = true <-> spec.active_memory h s)
          ∧ (b = false ->
             ∀ e' clientID,
               memory.ClaimNextGame e' h s clientID
               = (h, s, Fail ErrNoGamesAvailable)))
  ∧ (∀ (h : Heap CG) (db : postgres.DB),
       ∃ b, postgres.HasActiveGames h db = (h, db, Ok b)
            ∧ (b = true <-> spec.active_postgres db)
            ∧ (b = false ->
               ∀ e' clientID,
                 postgres.ClaimNextGame e' h db clientID
                 = (h, db, Fail ErrNoGamesAvailable))).
Proof.
  split.
  - intros e h s Hwf Hen. unfold memory.HasActiveGames.
    destruct (active_loop_wf h s (memory.iter_order e) Hwf) as [b Hb].
    exists b. rewrite Hb. split; [done|].
    assert (b = true <-> spec.active_memory h s) as Hiff.
    { split.
      - intros ->. apply active_loop_true in Hb
          as (k & p & G & _ & Hk & HG & Hnt). by exists k, p, G.
      - intros (k & p & G & Hk & HG & Hnt).
        destruct b; [done|]. exfalso.
        apply (active_loop_false _ _ _ k p G Hb); try done.
        apply Hen. by eexists. }
    split; [done|].
    intros -> e' clientID. unfold memory.ClaimNextGame.
    destruct (choose_wf h s clientID (memory.iter_order e') Hwf)
      as [[p|] Hc]; rewrite Hc; [|done].
    destruct (choose_sound _ _ _ _ _ Hc) as (k & G & _ & Hk & HG & Hnt & _).
    assert (false = true) as Hf by (apply Hiff; by exists k, p, G).
    discriminate.
  - intros h db. unfold postgres.HasActiveGames.
    exists (postgres.queryHasActive db). split; [done|].
    split; [apply queryHasActive_spec|].
    intros Hb e' clientID. unfold postgres.ClaimNextGame.
    destruct (postgres.queryClaimNextGame db e' clientID) as [[id r]|] eqn:Hq;
      [|done].
    destruct (queryClaimNextGame_sound _ _ _ _ _ Hq)
      as (_ & (Hg & Hnt & _) & _).
    assert (postgres.queryHasActive db = true) as Ht
        by (apply queryHasActive_spec; by exists id, r).
    congruence.
Qed.

End Activation.

Section Seeding.
Context {CG : Type} {eng : chess.Engine CG}.
Import game.

(** X17. [seedIfEmpty] never fails.  Over a store that holds a game
    that is waiting or ongoing it changes nothing, so seeding twice is
    seeding once.  Otherwise it creates one batch: with a batch size
    above zero the in-memory store holds an active game afterwards, and so
    does the transactional store as soon as one identifier drawn is new.
    Assignments, moved flags, histories and recorded moves are not
    touched. *)
Theorem seedIfEmpty_seeds (batchSize : Z) :
  (∀ (e1 e2 : memory.Env) (h : Heap CG) (s : memory.Store),
     spec.wf_memory h s ->
     spec.enumerates (memory.iter_order e1) (memory.games s) ->
     ∃ l s',
       main.seedIfEmpty memory_GameStore memory_GameStoreRest e1 e2 h s
         batchSize
       = (h ++ l, s', Ok tt)
       ∧ (spec.active_memory h s -> l = [] ∧ s' = s)
       ∧ (0 < batchSize -> spec.active_memory (h ++ l) s')
       ∧ spec.wf_memory (h ++ l) s'
       ∧ memory.assigned s' = memory.assigned s
       ∧ memory.moved s' = memory.moved s
       ∧ memory.history s' = memory.history s)
  ∧ (∀ (e1 e2 : postgres.Env) (h : Heap CG) (db : postgres.DB),
       ∃ db',
         main.seedIfEmpty postgres_GameStore postgres_GameStoreRest e1 e2 h
           db batchSize
         = (h, db', Ok tt)
         ∧ (spec.active_postgres db -> db' = db)
         ∧ (∀ j, (j < Z.to_nat batchSize)%nat ->
                 postgres.games db !! postgres.new_uuid e2 j = None ->
                 spec.active_postgres db')
         ∧ (∀ gid row, postgres.games db !! gid = Some row ->
                       postgres.games db' !! gid = Some row)
         ∧ postgres.game_players db' = postgres.game_players db
         ∧ postgres.moves db' = postgres.moves db).
Proof.
  split.
  - intros e1 e2 h s Hwf Hen. unfold main.seedIfEmpty. simpl.
    unfold memory.HasActiveGames.
    destruct (active_loop_wf h s (memory.iter_order e1) Hwf) as [b Hb].
    rewrite Hb. destruct b.
    + exists [], s. rewrite app_nil_r. split; [done|]. split; [done|].
      split; [|done].
      intros _. apply active_loop_true in Hb
        as (k & p & G & _ & Hk & HG & Hnt). by exists k, p, G.
    + unfold memory.CreateWaitingBatch.
      destruct (batch_loop_spec e2 (Z.to_nat batchSize) 0 h s)
        as (l & s' & Hloop & Ha & Hm & Hh & Hg & Hwf').
      rewrite Hloop. exists l, s'. split; [done|].
      split; [|split; [|by auto]].
      * intros (k & p & G & Hk & HG & Hnt). exfalso.
        apply (active_loop_false _ _ _ k p G Hb); try done.
        apply Hen. by eexists.
      * intros Hpos.
        destruct (batch_loop_creates e2 _ 0 0 _ _ _ _ Hloop)
          as (p & W & Hk & HW & _ & Hst & _); [lia|].
        exists (memory.new_uuid e2 0), p, W.
        split; [done|]. split; [done|]. rewrite Hst. by left.
  - intros e1 e2 h db. unfold main.seedIfEmpty. simpl.
    unfold postgres.HasActiveGames.
    destruct (postgres.queryHasActive db) eqn:Hb.
    + exists db. split; [done|]. split; [done|].
      split; [|done]. intros j _ _. by apply queryHasActive_spec.
    + unfold postgres.CreateWaitingBatch.
      eexists. split; [reflexivity|].
      destruct (postgres_batch_loop_rows e2 (Z.to_nat batchSize) 0 db)
        as [Hm Hrows].
      split; [|split; [|split; [done|split; [|done]]]].
      * intros Hact. apply queryHasActive_spec in Hact. congruence.
      * intros j Hj Hnone.
        destruct (postgres_batch_loop_creates e2 _ 0 j db Hj) as [row Hrow].
        destruct (postgres_batch_loop_games e2 _ 0 db _ _ Hrow)
          as [Hold | (_ & _ & ->)]; [simpl in Hold; congruence|].
        exists (postgres.new_uuid e2 (0 + j)), (spec.waiting_row (postgres.now e2)).
        split; [done|]. by left.
      * apply postgres_batch_loop_players.
Qed.

(** *** [ListOngoing] *)

Lemma ongoing_loop_spec (h : Heap CG) (s : memory.Store)
      (order : list UUID) (out : list ptr) :
  spec.wf_memory h s ->
  ∃ found,
    memory.ongoing_loop h s order out = Ok (out ++ found)
    ∧ ∀ p, p ∈ found
           <-> ∃ k G, k ∈ order ∧ memory.games s !! k = Some p
                      ∧ h !! p = Some G ∧ Status_ G = StatusOngoing.
Proof.
  intros Hwf. revert out. induction order as [|k rest IH]; intros out; simpl.
  - exists []. rewrite app_nil_r. split; [done|].
    intros p. split; [by intros ?%elem_of_nil|].
    by intros (k & G & ?%elem_of_nil & _).
  - destruct (memory.games s !! k) as [g|] eqn:Hg.
    + destruct (Hwf _ _ Hg) as (G & HG & Hid). rewrite HG.
      destruct (String.eqb_spec (Status_ G) StatusOngoing) as [Hst | Hst].
      * destruct (IH (out ++ [g])) as (found & -> & Hfound).
        exists (g :: found). split; [by rewrite <- app_assoc|].
        intros p. rewrite elem_of_cons, Hfound. split.
        -- intros [-> | (k' & G' & Hin & Hrest)].
           ++ exists k, G. split; [by left|done].
           ++ exists k', G'. split; [by right|done].
        -- intros (k' & G' & [-> | Hin]%elem_of_cons & Hk' & Hrest).
           ++ left. congruence.
           ++ right. by exists k', G'.
      * destruct (IH out) as (found & -> & Hfound).
        exists found. split; [done|].
        intros p. rewrite Hfound. split.
        -- intros (k' & G' & Hin & Hrest). exists k', G'.
           split; [by right|done].
        -- intros (k' & G' & [-> | Hin]%elem_of_cons & Hk' & HG' & Hst').
           ++ simplify_eq.
           ++ by exists k', G'.
    + destruct (IH out) as (found & -> & Hfound).
      exists found. split; [done|].
      intros p. rewrite Hfound. split.
      * intros (k' & G' & Hin & Hrest). exists k', G'.
        split; [by right|done].
      * intros (k' & G' & [-> | Hin]%elem_of_cons & Hk' & Hrest).
        -- congruence.
        -- by exists k', G'.
Qed.

End Seeding.

Section ReadPathFacts.
Context {CG : Type} {eng : chess.Engine CG}.
Import game.

Lemma scan_rows_spec (h : Heap CG) (rows : list (UUID * postgres.GameRow))
      (out : list ptr) :
  postgres.scan_rows h rows out
  = (h ++ ((fun kr => postgres.scanGame (fst kr) (snd kr)) <$> rows),
     out ++ seq (List.length h) (List.length rows)).
Proof.
  revert h out. induction rows as [|kr rest IH]; intros h out; simpl.
  - by rewrite !app_nil_r.
  - unfold alloc. rewrite IH. rewrite <- !app_assoc. simpl.
    rewrite length_app. simpl. by rewrite Nat.add_1_r.
Qed.

Lemma elem_of_queryListOngoing (db : postgres.DB) (e : postgres.Env)
      (id : UUID) (r : postgres.GameRow) :
  (id, r) ∈ postgres.queryListOngoing db e
  <-> id ∈ postgres.scan_order e ∧ postgres.games db !! id = Some r
      ∧ postgres.status r = StatusOngoing.
Proof.
  unfold postgres.queryListOngoing.
  rewrite list_elem_of_filter, elem_of_scan. simpl. tauto.
Qed.

(** X18. [ListOngoing] returns the games whose status is ongoing, and
    only those: no waiting game and no finished one.  The in-memory store
    (well formed, with the iteration meeting every key) returns the stored
    pointers and changes nothing; the transactional store allocates one
    object per row of the query, in the order of the scan, and leaves the
    tables as they are. *)
Theorem ListOngoing_exact :
  (∀ (e : memory.Env) (h : Heap CG) (s : memory.Store),
     spec.wf_memory h s ->
     spec.enumerates (memory.iter_order e) (memory.games s) ->
     ∃ out,
       memory.ListOngoing e h s = (h, s, Ok out)
       ∧ ∀ p, p ∈ out
              <-> ∃ k G, memory.games s !! k = Some p ∧ h !! p = Some G
                         ∧ Status_ G = StatusOngoing)
  ∧ (∀ (e : postgres.Env) (h : Heap CG) (db : postgres.DB),
       ∃ rows,
         postgres.ListOngoing e h db
         = (h ++ ((fun kr => postgres.scanGame (fst kr) (snd kr)) <$> rows),
            db, Ok (seq (List.length h) (List.length rows)))
         ∧ ∀ id r, (id, r) ∈ rows
                   <-> id ∈ postgres.scan_order e
                       ∧ postgres.games db !! id = Some r
                       ∧ postgres.status r = StatusOngoing).
Proof.
  split.
  - intros e h s Hwf Hen. unfold memory.ListOngoing.
    destruct (ongoing_loop_spec h s (memory.iter_order e) [] Hwf)
      as (found & -> & Hfound).
    exists found. split; [done|]. intros p. rewrite Hfound. split.
    + intros (k & G & _ & Hrest). by exists k, G.
    + intros (k & G & Hk & Hrest). exists k, G. split; [|done].
      apply Hen. by eexists.
  - intros e h db. exists (postgres.queryListOngoing db e).
    unfold postgres.ListOngoing. rewrite scan_rows_spec. split; [done|].
    apply elem_of_queryListOngoing.
Qed.

(** X19. The legacy [Assign], past the rate limiter, hands out a game
    exactly when [ListOngoing] finds one: a game whose status is ongoing,
    never a waiting one, with the assignment identifier and time it drew.
    It records nothing: the in-memory store and the tables are as they
    were, so the client gets no assignment and a second call may return
    the same game.  Without an ongoing game it answers with its own
    sentinel, not with an error of the store. *)
Theorem Assign_reads_ongoing (rl : ports.RateLimiter) (now : Time)
        (id : UUID) (ip token : string) :
  rl ip token = true ->
  (∀ (e : memory.Env) (h : Heap CG) (s : memory.Store),
     spec.wf_memory h s ->
     spec.enumerates (memory.iter_order e) (memory.games s) ->
     let ongoing p :=
       ∃ k G, memory.games s !! k = Some p ∧ h !! p = Some G
              ∧ Status_ G = StatusOngoing in
     ((∃ p, ongoing p) ->
      ∃ g, usecase.Assign memory_GameStoreRest rl e now id h s ip token
           = (h, s, usecase.Assigned (usecase.mkAssignResult g id now))
           ∧ ongoing g)
     ∧ ((∀ p, ¬ ongoing p) ->
        usecase.Assign memory_GameStoreRest rl e now id h s ip token
        = (h, s, usecase.AssignNoOngoingGames)))
  ∧ (∀ (e : postgres.Env) (h : Heap CG) (db : postgres.DB),
       let ongoing gid r :=
         gid ∈ postgres.scan_order e ∧ postgres.games db !! gid = Some r
         ∧ postgres.status r = StatusOngoing in
       ((∃ gid r, ongoing gid r) ->
        ∃ l gid r,
          usecase.Assign postgres_GameStoreRest rl e now id h db ip token
          = (h ++ l, db,
             usecase.Assigned
               (usecase.mkAssignResult (List.length h) id now))
          ∧ (h ++ l) !! List.length h = Some (postgres.scanGame gid r)
          ∧ ongoing gid r)
       ∧ ((∀ gid r, ¬ ongoing gid r) ->
          usecase.Assign postgres_GameStoreRest rl e now id h db ip token
          = (h, db, usecase.AssignNoOngoingGames))).
Proof.
  intros Hrl. split.
  - intros e h s Hwf Hen. simpl. unfold usecase.Assign. rewrite Hrl. simpl.
    unfold memory.ListOngoing.
    destruct (ongoing_loop_spec h s (memory.iter_order e) [] Hwf)
      as (found & -> & Hfound). simpl.
    split.
    + intros (p & k & G & Hk & HG & Hst).
      destruct found as [|g rest].
      * exfalso. apply (elem_of_nil p). apply Hfound. exists k, G.
        split; [apply Hen; by eexists|done].
      * exists g. split; [done|].
        destruct (proj1 (Hfound g)) as (k' & G' & _ & Hrest); [by left|].
        by exists k', G'.
    + intros Hno. destruct found as [|g rest]; [done|]. exfalso.
      destruct (proj1 (Hfound g)) as (k' & G' & _ & Hrest); [by left|].
      apply (Hno g). by exists k', G'.
  - intros e h db. simpl. unfold usecase.Assign. rewrite Hrl. simpl.
    unfold postgres.ListOngoing. rewrite scan_rows_spec. simpl.
    split.
    + intros (gid & r & Hon).
      destruct (postgres.queryListOngoing db e) as [|[gid0 r0] rest] eqn:Hq.
      * exfalso. apply (elem_of_nil (gid, r)). rewrite <- Hq.
        by apply elem_of_queryListOngoing.
      * simpl. eexists _, gid0, r0. split; [reflexivity|].
        split; [by apply list_lookup_middle|].
        apply elem_of_queryListOngoing. rewrite Hq. by left.
    + intros Hno.
      destruct (postgres.queryListOngoing db e) as [|[gid0 r0] rest] eqn:Hq.
      * simpl. by rewrite app_nil_r.
      * exfalso. apply (Hno gid0 r0). apply elem_of_queryListOngoing.
        rewrite Hq. by left.
Qed.

End ReadPathFacts.

(** ** The plain compare-and-swap and the insert *)

Section Legacy.
Context {CG : Type} {eng : chess.Engine CG}.
Import game.

(** X20. [SaveIfVersion] compares the stored version with the expected
    one and with nothing else.  On a mismatch it answers
    [ErrVersionConflict] and changes nothing; on a match it puts the given
    game in the place of the stored one, whatever the version the given
    game carries, and touches no other game, no assignment, moved flag,
    history or move.  For an identifier that the store does not know the
    in-memory store answers [ErrNotFound], the transactional store
    [ErrVersionConflict].  After a save that changed the version, a
    second save with the same expected version is a conflict.  The row
    of the transactional store holds the times of the given game as its
    [TIMESTAMPTZ] columns keep them, in whole microseconds. *)
Theorem SaveIfVersion_compare_and_swap (h : Heap CG) (g : ptr)
        (G : Game CG) (expected : Z) :
  h !! g = Some G ->
  (∀ (s : memory.Store),
     (memory.games s !! ID G = None ->
      memory.SaveIfVersion h s g expected = (h, s, Fail ErrNotFound))
     ∧ (∀ cur C,
          memory.games s !! ID G = Some cur -> h !! cur = Some C ->
          (StateVersion C ≠ expected ->
           memory.SaveIfVersion h s g expected
           = (h, s, Fail ErrVersionConflict))
          ∧ (StateVersion C = expected ->
             ∃ s',
               memory.SaveIfVersion h s g expected = (h, s', Ok tt)
               ∧ memory.GetByID h s' (ID G) = (h, s', Ok g)
               ∧ (∀ k, k ≠ ID G ->
                       memory.games s' !! k = memory.games s !! k)
               ∧ memory.assigned s' = memory.assigned s
               ∧ memory.moved s' = memory.moved s
               ∧ memory.history s' = memory.history s
               ∧ (StateVersion G ≠ expected ->
                  ∀ g2 G2, h !! g2 = Some G2 -> ID G2 = ID G ->
                           memory.SaveIfVersion h s' g2 expected
                           = (h, s', Fail ErrVersionConflict)))))
  ∧ (∀ (db : postgres.DB),
       postgres.fits_int4 (PlyCount G) = true ->
       postgres.fits_int4 (StateVersion G) = true ->
       postgres.fits_int4 expected = true ->
       (postgres.games db !! ID G = None ->
        postgres.SaveIfVersion h db g expected
        = (h, db, Fail ErrVersionConflict))
       ∧ (∀ r,
            postgres.games db !! ID G = Some r ->
            (postgres.state_version r ≠ expected ->
             postgres.SaveIfVersion h db g expected
             = (h, db, Fail ErrVersionConflict))
            ∧ (postgres.state_version r = expected ->
               ∃ db',
                 postgres.SaveIfVersion h db g expected = (h, db', Ok tt)
                 ∧ postgres.games db' !! ID G
                   = Some (postgres.mkGameRow (Status_ G) (Result_ G) (FEN G)
                             (SideToMove G) (PlyCount G) (LastMoveUCI G)
                             (postgres.timestamptz <$> LastMoveAt G)
                             (StateVersion G) (postgres.created_at r)
                             (postgres.timestamptz (UpdatedAt G)))
                 ∧ (∀ k, k ≠ ID G ->
                         postgres.games db' !! k = postgres.games db !! k)
                 ∧ postgres.game_players db' = postgres.game_players db
                 ∧ postgres.moves db' = postgres.moves db
                 ∧ (StateVersion G ≠ expected ->
                    ∀ g2 G2, h !! g2 = Some G2 -> ID G2 = ID G ->
                             postgres.fits_int4 (PlyCount G2) = true ->
                             postgres.fits_int4 (StateVersion G2) = true ->
                             postgres.SaveIfVersion h db' g2 expected
                             = (h, db', Fail ErrVersionConflict))))).
Proof.
  intros HG. split.
  - intros s. unfold memory.SaveIfVersion. rewrite HG. split.
    + by intros ->.
    + intros cur C -> HC. rewrite HC. split.
      * intros Hne. by destruct (decide (StateVersion C ≠ expected)).
      * intros Heq.
        destruct (decide (StateVersion C ≠ expected)); [contradiction|].
        eexists. split; [reflexivity|].
        unfold memory.GetByID. simpl. rewrite lookup_insert_eq.
        split; [done|].
        split; [intros k Hne; by rewrite lookup_insert_ne|].
        split; [done|]. split; [done|]. split; [done|].
        intros Hne g2 G2 HG2 Hid. rewrite HG2, Hid.
        simpl. rewrite lookup_insert_eq, HG.
        by destruct (decide (StateVersion G ≠ expected)).
  - intros db Hf1 Hf2 Hf3. unfold postgres.SaveIfVersion. rewrite HG.
    unfold postgres.exec_UpdateGame. rewrite Hf1, Hf2, Hf3. simpl. split.
    + by intros ->.
    + intros r ->. split.
      * intros Hne.
        by destruct (decide (postgres.state_version r = expected)).
      * intros Heq.
        destruct (decide (postgres.state_version r = expected));
          [|contradiction].
        eexists. split; [reflexivity|]. simpl. rewrite lookup_insert_eq.
        split; [done|].
        split; [intros k Hne; by rewrite lookup_insert_ne|].
        split; [done|]. split; [done|].
        intros Hne g2 G2 HG2 Hid Hg1 Hg2. rewrite HG2, Hid, Hg1, Hg2.
        simpl. rewrite lookup_insert_eq. simpl.
        by destruct (decide (StateVersion G = expected)).
Qed.

(** X21. [Insert] stores a game under a new identifier and ignores, without
    an error, a game whose identifier is taken: the row that is there
    stays.  A game inserted under a new identifier and read back with
    [GetByID] is a new object that agrees with the one inserted in its
    identifier, status, result, position, side to move, counters and last
    move; it has no live library state. *)
Theorem postgres_Insert_GetByID (h : Heap CG) (db : postgres.DB) (g : ptr)
        (G : Game CG) :
  h !! g = Some G ->
  postgres.fits_int4 (PlyCount G) = true ->
  postgres.fits_int4 (StateVersion G) = true ->
  ∃ db',
    postgres.Insert h db g = (h, db', Ok tt)
    ∧ (is_Some (postgres.games db !! ID G) -> db' = db)
    ∧ (∀ k, k ≠ ID G -> postgres.games db' !! k = postgres.games db !! k)
    ∧ postgres.game_players db' = postgres.game_players db
    ∧ postgres.moves db' = postgres.moves db
    ∧ (postgres.games db !! ID G = None ->
       ∃ G', postgres.GetByID h db' (ID G)
             = (h ++ [G'], db', Ok (List.length h))
             ∧ ID G' = ID G ∧ Status_ G' = Status_ G
             ∧ Result_ G' = Result_ G ∧ FEN G' = FEN G
             ∧ SideToMove G' = SideToMove G ∧ PlyCount G' = PlyCount G
             ∧ StateVersion G' = StateVersion G
             ∧ LastMoveUCI G' = LastMoveUCI G
             ∧ chessGame G' = None).
Proof.
  intros HG Hf1 Hf2. unfold postgres.Insert, postgres.exec_Insert.
  rewrite HG, Hf1, Hf2. simpl.
  destruct (postgres.games db !! ID G) as [r|] eqn:Hid.
  - exists db. split; [done|]. split; [done|]. split; [done|].
    split; [done|]. split; [done|]. discriminate.
  - eexists. split; [reflexivity|].
    split; [by intros [? ?]|].
    split; [intros k Hne; simpl; by rewrite lookup_insert_ne|].
    split; [done|]. split; [done|]. intros _.
    unfold postgres.GetByID. simpl. rewrite lookup_insert_eq.
    eexists. split; [reflexivity|]. by repeat split.
Qed.

End Legacy.

(** ** Reading back a move, and a move record that is too short *)

(** What a [TIMESTAMPTZ] column keeps of a time: the microsecond it
    lies in. *)
Lemma timestamptz_bounds (t : Time) :
  t - 1000 < postgres.timestamptz t <= t.
Proof.
  unfold postgres.timestamptz.
  pose proof (Z.mul_div_le t 1000). pose proof (Z.mul_succ_div_gt t 1000).
  lia.
Qed.

Lemma timestamptz_exact (t : Time) :
  postgres.timestamptz t = t <-> (1000 | t).
Proof.
  unfold postgres.timestamptz.
  rewrite <- Z.mod_divide by lia. rewrite <- Z.div_exact by lia.
  split; intros Heq; symmetry; exact Heq.
Qed.

Section ReadBack.
Context {CG : Type} {eng : chess.Engine CG}.
Import game.

(** X22. What [PersistMove] wrote is what [GetGameWithHistory] reads: in
    the in-memory store the successor's pointer and the history that
    [PersistMove] returned; in the transactional store a new object with
    the successor's status, result, position, side to move, counters and
    last move under the game's identifier, and the same history.  The
    times do not come back as they were written: the last-move time and
    the update time of the object read are those of the successor without
    what lies below the microsecond, which the [TIMESTAMPTZ] columns do
    not keep, so they differ from the successor's as soon as its clock
    reading is not a whole number of microseconds.  For an identifier
    that the store does not know both answer [ErrNotFound]. *)
Theorem GetGameWithHistory_reads_back (gameID clientID : UUID)
        (newGame : ptr) (rec : MoveRecord) (ply : Z) :
  (∀ (h h' : Heap CG) (s s' : memory.Store) hist,
     memory.PersistMove h s gameID clientID newGame rec ply
     = (h', s', Ok hist) ->
     memory.GetGameWithHistory h' s' gameID = (h', s', Ok (newGame, hist)))
  ∧ (∀ (h h' : Heap CG) (db db' : postgres.DB) hist,
       postgres.PersistMove h db gameID clientID newGame rec ply
       = (h', db', Ok hist) ->
       ∃ NG G',
         h !! newGame = Some NG
         ∧ postgres.GetGameWithHistory h' db' gameID
           = (h' ++ [G'], db', Ok (List.length h', hist))
         ∧ ID G' = gameID ∧ Status_ G' = Status_ NG
         ∧ Result_ G' = Result_ NG ∧ FEN G' = FEN NG
         ∧ SideToMove G' = SideToMove NG ∧ PlyCount G' = PlyCount NG
         ∧ StateVersion G' = StateVersion NG
         ∧ LastMoveUCI G' = LastMoveUCI NG
         ∧ LastMoveAt G' = postgres.timestamptz <$> LastMoveAt NG
         ∧ UpdatedAt G' = postgres.timestamptz (UpdatedAt NG)
         ∧ UpdatedAt NG - 1000 < UpdatedAt G' <= UpdatedAt NG
         ∧ (UpdatedAt G' = UpdatedAt NG <-> (1000 | UpdatedAt NG)))
  ∧ (∀ (h : Heap CG) (s : memory.Store) (db : postgres.DB),
       (memory.games s !! gameID = None ->
        memory.GetGameWithHistory h s gameID = (h, s, Fail ErrNotFound))
       ∧ (postgres.games db !! gameID = None ->
          postgres.GetGameWithHistory h db gameID
          = (h, db, Fail ErrNotFound))).
Proof.
  split; [|split].
  - intros h h' s s' hist Hp.
    apply memory_PersistMove_ok in Hp
      as (cur & C & NG & fromSq & toSq & promotion & -> & _ & _ & _ & _ & _
          & _ & _ & Hhist & ->).
    unfold memory.GetGameWithHistory, memory.history_of. simpl.
    by rewrite !lookup_insert_eq.
  - intros h h' db db' hist Hp.
    apply postgres_PersistMove_ok in Hp
      as (p & r & NG & fromSq & toSq & promotion & -> & _ & _ & _ & HNG & _
          & _ & _ & -> & ->).
    exists NG. eexists. split; [done|].
    unfold postgres.GetGameWithHistory, postgres.GetByID. simpl.
    rewrite lookup_insert_eq. simpl. split; [reflexivity|].
    do 10 (split; [done|]).
    split; [apply timestamptz_bounds|apply timestamptz_exact].
  - intros h s db. split.
    + unfold memory.GetGameWithHistory. by intros ->.
    + unfold postgres.GetGameWithHistory, postgres.GetByID. by intros ->.
Qed.

(** X23. [PersistMove] slices the move string of the record without
    checking its length, and relies on its caller for a string of at least
    four bytes.  With a shorter one, past the assignment checks and the
    version comparison, the in-memory store panics after it has replaced
    the game and set the client's moved flag, with no history item
    written; the transactional store panics before its first write. *)
Theorem PersistMove_short_move_string (h : Heap CG) (gameID clientID : UUID)
        (newGame : ptr) (rec : MoveRecord) (ply : Z) :
  (String.length (rec_UCI rec) < 4)%nat ->
  (∀ (s : memory.Store) cur C NG,
     memory.member (memory.assigned s) gameID clientID = true ->
     memory.member (memory.moved s) gameID clientID = false ->
     memory.games s !! gameID = Some cur ->
     h !! cur = Some C -> h !! newGame = Some NG ->
     StateVersion C = GoInt.sub (StateVersion NG) 1 ->
     ∃ s',
       memory.PersistMove h s gameID clientID newGame rec ply
       = (h, s', Panic)
       ∧ memory.games s' !! gameID = Some newGame
       ∧ memory.member (memory.moved s') gameID clientID = true
       ∧ memory.history s' = memory.history s
       ∧ memory.assigned s' = memory.assigned s)
  ∧ (∀ (db : postgres.DB) p,
       postgres.game_players db !! (gameID, clientID) = Some p ->
       postgres.has_moved p = false ->
       postgres.PersistMove h db gameID clientID newGame rec ply
       = (h, db, Panic)).
Proof.
  intros Hlen.
  assert (GoString.split_uci (rec_UCI rec) = None) as Hsp.
  { unfold GoString.split_uci.
    destruct (String.length (rec_UCI rec) <? 4)%nat eqn:Hl; [done|].
    apply Nat.ltb_ge in Hl. lia. }
  split.
  - intros s cur C NG Ha Hm Hg HC HNG Hv.
    unfold memory.PersistMove. unfold memory.member in Ha.
    destruct (memory.assigned s !! gameID) as [aset|]; [|done].
    rewrite Ha. simpl. rewrite Hm, Hg, HC, HNG.
    destruct (decide (StateVersion C ≠ GoInt.sub (StateVersion NG) 1));
      [contradiction|].
    rewrite Hsp. eexists. split; [reflexivity|]. simpl.
    rewrite lookup_insert_eq. split; [done|].
    split; [apply member_add_member|]. done.
  - intros db p Hgp Hm. unfold postgres.PersistMove.
    by rewrite Hgp, Hm, Hsp.
Qed.

End ReadBack.

(** ** Configuration *)

(** X24. Whatever the environment holds and whatever [strconv.Atoi]
    makes of it, the configuration that [Load] returns has a port that is
    not empty and a batch size above zero: the port is ["8080"] unless
    [PORT] is set, and the batch size is 20 unless
    [GAME_CREATE_BATCH_SIZE] is set to a string that [Atoi] reads as a
    positive number, which is then the batch size. *)
Theorem Load_defaults (Getenv : string -> string)
        (Atoi : string -> option Z) :
  let cfg := config.Load Getenv Atoi in
  config.Port cfg ≠ ""%string
  ∧ 0 < config.GameCreateBatchSize cfg
  ∧ (Getenv "PORT" = ""%string -> config.Port cfg = "8080"%string)
  ∧ (Getenv "PORT" ≠ ""%string -> config.Port cfg = Getenv "PORT")
  ∧ config.DatabaseURL cfg = Getenv "DATABASE_URL"
  ∧ (config.GameCreateBatchSize cfg ≠ 20 ->
     Getenv "GAME_CREATE_BATCH_SIZE" ≠ ""%string
     ∧ Atoi (Getenv "GAME_CREATE_BATCH_SIZE")
       = Some (config.GameCreateBatchSize cfg))
  ∧ (∀ n, Getenv "GAME_CREATE_BATCH_SIZE" ≠ ""%string ->
          Atoi (Getenv "GAME_CREATE_BATCH_SIZE") = Some n -> 0 < n ->
          config.GameCreateBatchSize cfg = n).
Proof.
  unfold config.Load. simpl.
  destruct (String.eqb_spec (Getenv "PORT") "") as [Hp | Hp];
    destruct (String.eqb_spec (Getenv "GAME_CREATE_BATCH_SIZE") "")
      as [Hb | Hb]; simpl;
    try destruct (Atoi (Getenv "GAME_CREATE_BATCH_SIZE")) as [n|] eqn:Ha;
    try destruct (0 <? n) eqn:Hn;
    try apply Z.ltb_lt in Hn; try apply Z.ltb_ge in Hn;
    repeat split; try done; try lia;
    try (intros; simplify_eq; lia).
Qed.

(** ** The handlers *)

Section HandlerFacts.
Context {CG S E : Type} {eng : chess.Engine CG}.
Context (store : ports.GameStore CG S E) (rl : ports.RateLimiter).
Context (batchSize : Z).
Context (uuid_Parse : string -> option UUID) (uuid_String : UUID -> string).
Import game transporthttp.

Lemma status_of_app_json (w1 w2 : list Effect) (code : Z) :
  status_of w1 = Some code -> status_of (w1 ++ w2) = Some code.
Proof.
  induction w1 as [|[k v|c b] w1 IH]; simpl; [done|done|done].
Qed.

(** Without a usable [X-Client-Id], [parseClientID] answers 400 and
    returns [uuid.Nil] with what [c.JSON] returned. *)
Lemma parseClientID_rejects (r : Request) :
  X_Client_Id r = "" ∨ uuid_Parse (X_Client_Id r) = None ->
  ∃ p, parseClientID uuid_Parse r
       = (uuid_Nil, [WriteJSON 400 (ProblemBody p)], JSON_error r)
       ∧ problem_Status p = 400.
Proof.
  intros Hbad. unfold parseClientID.
  destruct (String.eqb_spec (X_Client_Id r) "") as [Hraw|Hraw].
  - by eexists.
  - destruct Hbad as [?|Hp]; [done|]. rewrite Hp. by eexists.
Qed.

Lemma parseClientID_accepts (r : Request) (c : UUID) :
  X_Client_Id r ≠ "" -> uuid_Parse (X_Client_Id r) = Some c ->
  parseClientID uuid_Parse r = (c, [], None).
Proof.
  intros Hraw Hp. unfold parseClientID.
  destruct (String.eqb_spec (X_Client_Id r) ""); [done|]. by rewrite Hp.
Qed.

(** X9. A request whose [X-Client-Id] header is missing or is not a
    UUID is answered with status 400, but the handler goes on unless
    writing that answer failed: [parseClientID] returns what [c.JSON]
    returned, which is nil once the answer is written.  [handleGetNext]
    then runs [GetNext], and [handleSubmitMove] (for a game identifier
    that parses, a body that binds and a move string that is not empty)
    runs [SubmitMove], for the client [uuid.Nil], and the store is left
    as that use case leaves it; the status of the response stays 400.
    Only when [c.JSON] returned an error do the handlers stop, with that
    error and the store untouched. *)
Theorem handlers_run_without_client_id (r : Request) :
  X_Client_Id r = "" ∨ uuid_Parse (X_Client_Id r) = None ->
  (JSON_error r = None ->
   (∀ e1 e2 e3 h s h1 s1 res,
      usecase.GetNext store rl batchSize e1 e2 e3 h s (RealIP r)
        (X_Client_Token r) uuid_Nil = (h1, s1, res) ->
      ∃ w ret,
        handleGetNext store rl batchSize uuid_Parse uuid_String e1 e2 e3 h s
          r = (h1, s1, w, ret)
        ∧ status_of w = Some 400)
   ∧ (∀ e1 e2 now recID h s id body h1 s1 res,
        uuid_Parse (param_game_id r) = Some id ->
        Bind r = Some body ->
        handleSubmitMove_uci (body_UCI body) (body_From body) (body_To body)
          (body_Promotion body) ≠ "" ->
        usecase.SubmitMove store rl e1 e2 now recID h s (RealIP r)
          (X_Client_Token r) id uuid_Nil
          (usecase.mkSubmitMoveRequest
             (handleSubmitMove_uci (body_UCI body) (body_From body)
                (body_To body) (body_Promotion body))
             (body_ExpectedVersion body) (body_ClientNonce body))
        = (h1, s1, res) ->
        ∃ w ret,
          handleSubmitMove store rl uuid_Parse uuid_String e1 e2 now recID h
            s r = (h1, s1, w, ret)
          ∧ status_of w = Some 400))
  ∧ (∀ err, JSON_error r = Some err ->
     (∀ e1 e2 e3 h s, ∃ w,
        handleGetNext store rl batchSize uuid_Parse uuid_String e1 e2 e3 h s
          r = (h, s, w, Return (Some err))
        ∧ status_of w = Some 400)
     ∧ (∀ e1 e2 now recID h s, ∃ w,
          handleSubmitMove store rl uuid_Parse uuid_String e1 e2 now recID h
            s r = (h, s, w, Return (Some err))
          ∧ status_of w = Some 400)).
Proof.
  intros Hbad.
  destruct (parseClientID_rejects r Hbad) as (p & Hp & _).
  split.
  - intros Hj. rewrite Hj in Hp. split.
    + intros e1 e2 e3 h s h1 s1 res Hrun.
      unfold handleGetNext. rewrite Hp, Hrun.
      destruct res as [x| |].
      * destruct (toGameJSON _ _ _ _); by eexists _, _.
      * by eexists _, _.
      * by eexists _, _.
    + intros e1 e2 now recID h s id body h1 s1 res Hid Hbind Huci Hrun.
      unfold handleSubmitMove. rewrite Hp, Hid, Hbind.
      destruct (String.eqb_spec
                  (handleSubmitMove_uci (body_UCI body) (body_From body)
                     (body_To body) (body_Promotion body)) ""); [done|].
      rewrite Hrun.
      destruct res as [x| |].
      * destruct (toGameJSON _ _ _ _); by eexists _, _.
      * by eexists _, _.
      * by eexists _, _.
  - intros err Hj. rewrite Hj in Hp. split.
    + intros e1 e2 e3 h s. unfold handleGetNext. rewrite Hp. by eexists.
    + intros e1 e2 now recID h s. unfold handleSubmitMove. rewrite Hp.
      by eexists.
Qed.

(** X25. [writeErr] writes one body, after the header [Retry-After]
    for a rate-limited request and after nothing otherwise, and the
    status field of the body is the status of the response, whatever the
    error.  The status is 404 exactly for [ErrNotFound], 409 exactly for
    [ErrVersionConflict], 429 exactly for [ErrRateLimited] and 422
    exactly for the three errors of the rule engine, whose bodies carry
    the codes [game_not_ongoing], [invalid_uci] and [illegal_move] and no
    game. *)
Theorem writeErr_statuses (err : error) :
  ∃ hdr code body p,
    writeErr err = hdr ++ [WriteJSON code body]
    ∧ status_of (writeErr err) = Some code
    ∧ (body = ProblemBody p
       ∨ ∃ c, body = IllegalMoveBody (mkIllegalMoveProblem p c None))
    ∧ problem_Status p = code
    ∧ (hdr = if bool_decide (code = 429) then [SetHeader "Retry-After" "2"]
             else [])
    ∧ (code = 404 ↔ err = Sentinel ErrNotFound)
    ∧ (code = 409 ↔ err = Sentinel ErrVersionConflict)
    ∧ (code = 429 ↔ err = Sentinel ErrRateLimited)
    ∧ (code = 422 ↔
       err = Sentinel ErrGameNotOngoing
       ∧ body = IllegalMoveBody
                  (mkIllegalMoveProblem p "game_not_ongoing" None)
       ∨ err = Sentinel ErrInvalidUCI
         ∧ body = IllegalMoveBody (mkIllegalMoveProblem p "invalid_uci" None)
       ∨ err = Sentinel ErrIllegalMove
         ∧ body = IllegalMoveBody
                    (mkIllegalMoveProblem p "illegal_move" None)).
Proof.
  destruct err as [[]| |]; simpl;
    first [ eexists [], _, _, _; split; [reflexivity|]
          | eexists [_], _, _, _; split; [reflexivity|] ];
    (split; [reflexivity|]);
    (split; [(by left) || (right; by eexists)|]);
    (split; [reflexivity|]);
    (split; [reflexivity|]);
    repeat split; try done; try (intros [= ?]; done);
      try (intros [[? _]|[[? _]|[? _]]]; done);
      try (by left); try (right; by left); try (right; by right).
Qed.

(** X26. With a client identifier that parses, [handleSubmitMove]
    turns a request away before the use case, so without consulting the
    rate limiter and with the store untouched, in this order: with 404
    when [game_id] is not a UUID, also when the body would not bind;
    with what [writeErr] answers to the error of [c.Bind] when the body
    does not bind; with 422 and the code [invalid_uci] when the body
    names no move, that is when its [uci] is empty and one of [from] and
    [to] is empty. *)
Theorem handleSubmitMove_rejects_early (e1 e2 : E) (now : Time)
        (recID : UUID) (h : Heap CG) (s : S) (r : Request) (c : UUID) :
  X_Client_Id r ≠ "" -> uuid_Parse (X_Client_Id r) = Some c ->
  (uuid_Parse (param_game_id r) = None ->
   handleSubmitMove store rl uuid_Parse uuid_String e1 e2 now recID h s r
   = (h, s, writeErr (Sentinel ErrNotFound), Return (JSON_error r))
   ∧ status_of (writeErr (Sentinel ErrNotFound)) = Some 404)
  ∧ (∀ id, uuid_Parse (param_game_id r) = Some id ->
     (Bind r = None ->
      handleSubmitMove store rl uuid_Parse uuid_String e1 e2 now recID h s r
      = (h, s, writeErr ErrBind, Return (JSON_error r)))
     ∧ (∀ body, Bind r = Some body -> body_UCI body = "" ->
        body_From body = "" ∨ body_To body = "" ->
        ∃ p,
          handleSubmitMove store rl uuid_Parse uuid_String e1 e2 now recID h
            s r
          = (h, s,
             [WriteJSON 422
                (IllegalMoveBody
                   (mkIllegalMoveProblem p "invalid_uci" None))],
             Return (JSON_error r)))).
Proof.
  intros Hraw Hc.
  pose proof (parseClientID_accepts r c Hraw Hc) as Hp.
  split.
  - intros Hid. unfold handleSubmitMove. by rewrite Hp, Hid.
  - intros id Hid. split.
    + intros Hb. unfold handleSubmitMove. by rewrite Hp, Hid, Hb.
    + intros body Hb Hu Hft. unfold handleSubmitMove.
      rewrite Hp, Hid, Hb.
      assert (handleSubmitMove_uci (body_UCI body) (body_From body)
                (body_To body) (body_Promotion body) = "") as ->.
      { unfold handleSubmitMove_uci. rewrite Hu.
        destruct Hft as [-> | ->]; simpl; [done|].
        by rewrite andb_false_r. }
      simpl. by eexists.
Qed.

End HandlerFacts.

Section HandlerMemory.
Context {CG : Type} {eng : chess.Engine CG}.
Context (rl : ports.RateLimiter) (batchSize : Z).
Context (uuid_Parse : string -> option UUID) (uuid_String : UUID -> string).
Import game transporthttp.

(** Over a well-formed in-memory store an allowed [GetNext] claims a
    game or finds none; it returns no other error and does not panic. *)
Lemma GetNext_memory_result (e1 e2 e3 : memory.Env) (h h' : Heap CG)
      (s s' : memory.Store) (ip token : string) (clientID : UUID)
      (res : outcome usecase.NextGameResult) :
  rl ip token = true ->
  spec.wf_memory h s ->
  usecase.GetNext memory_GameStore rl batchSize e1 e2 e3 h s ip token
    clientID = (h', s', res) ->
  res = Fail ErrNoGamesAvailable
  ∨ ∃ g hist G,
      res = Ok (usecase.mkNextGameResult g hist)
      ∧ h' !! g = Some G ∧ Status_ G = StatusOngoing
      ∧ memory.games s' !! ID G = Some g
      ∧ memory.member (memory.assigned s) (ID G) clientID = false
      ∧ memory.member (memory.assigned s') (ID G) clientID = true
      ∧ hist = memory.history_of s (ID G).
Proof.
  intros Hrl Hwf. unfold usecase.GetNext. rewrite Hrl. simpl.
  destruct (memory.ClaimNextGame e1 h s clientID) as [[h1 s1] r1] eqn:Hc1.
  destruct (memory_ClaimNextGame_wf_result _ _ _ _ _ _ _ Hwf Hc1)
    as [[[g hist] ->] | (-> & -> & ->)].
  - intros [= <- <- <-]. right.
    destruct (memory_ClaimNextGame_claimed _ _ _ _ _ _ _ _ Hwf Hc1)
      as (p0 & G0 & G & Hg0 & HG0 & Hnt & -> & HG & Hg & _ & Hm & Hm' & _ & _
          & Hh & _).
    exists g, hist, (with_Status G0 StatusOngoing). by repeat split.
  - simpl. unfold memory.CreateWaitingBatch.
    destruct (batch_loop_spec e2 (Z.to_nat batchSize) 0 h s)
      as (l & s2 & Hloop & Ha & Hmv & Hhi & Hg & Hwf2).
    rewrite Hloop.
    destruct (memory.ClaimNextGame e3 (h ++ l) s2 clientID)
      as [[h3 s3] r3] eqn:Hc3.
    destruct (memory_ClaimNextGame_wf_result _ _ _ _ _ _ _ (Hwf2 Hwf) Hc3)
      as [[[g hist] ->] | (-> & -> & ->)].
    + intros [= <- <- <-]. right.
      destruct (memory_ClaimNextGame_claimed _ _ _ _ _ _ _ _ (Hwf2 Hwf) Hc3)
        as (p0 & G0 & G & Hg0 & HG0 & Hnt & -> & HG & Hg' & _ & Hm & Hm' & _
            & _ & Hh & _).
      exists g, hist, (with_Status G0 StatusOngoing).
      split; [done|]. split; [done|]. split; [done|]. split; [done|].
      split; [by rewrite <- Ha|]. split; [done|].
      rewrite Hh. unfold memory.history_of. by rewrite Hhi.
    + intros [= <- <- <-]. by left.
Qed.

(** X27. [GET /games/next] over a well-formed in-memory store, for a
    request that the rate limiter allows and whose answers are written.
    The client of the request is the one that [X-Client-Id] names, after
    no output, or [uuid.Nil], after the 400 that [parseClientID] wrote,
    when the header is missing or not a UUID.  The handler does not
    panic, and after that output it answers in one of two ways: with
    what [writeErr] answers to [ErrNoGamesAvailable]; or, after the
    header [Cache-Control: no-store], with status 200 and a game that is
    ongoing, together with the history stored for it, and then the
    client of the request, which was not assigned to that game, is
    assigned to it.  So a request without the header can claim a game
    for [uuid.Nil] while the status of its response is 400. *)
Theorem handleGetNext_memory (e1 e2 e3 : memory.Env) (h : Heap CG)
        (s : memory.Store) (r : Request) :
  JSON_error r = None ->
  rl (RealIP r) (X_Client_Token r) = true ->
  spec.wf_memory h s ->
  ∃ clientID w0 h' s' w,
    handleGetNext memory_GameStore rl batchSize uuid_Parse uuid_String e1 e2
      e3 h s r = (h', s', w0 ++ w, Return None)
    ∧ (X_Client_Id r ≠ "" ∧ uuid_Parse (X_Client_Id r) = Some clientID
       ∧ w0 = []
       ∨ (X_Client_Id r = "" ∨ uuid_Parse (X_Client_Id r) = None)
         ∧ clientID = uuid_Nil ∧ status_of (w0 ++ w) = Some 400)
    ∧ (w = writeErr (Sentinel ErrNoGamesAvailable)
       ∨ ∃ (G : Game CG) gj,
           w = [SetHeader "Cache-Control" "no-store";
                WriteJSON 200 (NextBody gj)]
           ∧ json_GameID gj = uuid_String (ID G)
           ∧ json_Status gj = StatusOngoing
           ∧ json_MoveHistory gj
             = toMoveHistoryJSON uuid_String (memory.history_of s (ID G))
           ∧ memory.games s' !! ID G ≠ None
           ∧ memory.member (memory.assigned s) (ID G) clientID = false
           ∧ memory.member (memory.assigned s') (ID G) clientID = true).
Proof.
  intros Hj Hrl Hwf.
  destruct (parseClientID uuid_Parse r) as [[clientID w0] err] eqn:Hp.
  assert (err = None
          ∧ (X_Client_Id r ≠ "" ∧ uuid_Parse (X_Client_Id r) = Some clientID
             ∧ w0 = []
             ∨ (X_Client_Id r = "" ∨ uuid_Parse (X_Client_Id r) = None)
               ∧ clientID = uuid_Nil
               ∧ ∀ w, status_of (w0 ++ w) = Some 400)) as [-> Hcase].
  { unfold parseClientID in Hp. rewrite Hj in Hp.
    destruct (String.eqb_spec (X_Client_Id r) "") as [Hraw|Hraw].
    - simplify_eq. split; [done|]. right. split; [by left|]. done.
    - destruct (uuid_Parse (X_Client_Id r)) as [c|] eqn:Hc; simplify_eq.
      + split; [done|]. by left.
      + split; [done|]. right. split; [by right|]. done. }
  destruct (usecase.GetNext memory_GameStore rl batchSize e1 e2 e3 h s
              (RealIP r) (X_Client_Token r) clientID)
    as [[h' s'] res] eqn:Hrun.
  exists clientID, w0, h', s'.
  destruct (GetNext_memory_result _ _ _ _ _ _ _ _ _ _ _ Hrl Hwf Hrun)
    as [-> | (g & hist & G & -> & HG & Hst & Hg & Hm & Hm' & Hh)].
  - eexists. split.
    + unfold handleGetNext. rewrite Hp, Hrun, Hj. reflexivity.
    + split; [|by left].
      destruct Hcase as [?|(? & ? & Hs)]; [by left|right; by auto].
  - eexists. split.
    + unfold handleGetNext. rewrite Hp, Hrun. simpl.
      unfold toGameJSON. rewrite HG, Hj. reflexivity.
    + split.
      * destruct Hcase as [?|(? & ? & Hs)]; [by left|right; by auto].
      * right. eexists G, _. split; [reflexivity|]. simpl.
        split; [done|]. split; [done|]. split; [by rewrite Hh|].
        split; [by rewrite Hg|]. done.
Qed.

(** X28. [POST /games/:game_id/move] over the in-memory store, end to
    end.  A request with a client identifier, a game identifier and a
    body that parse, allowed by the rate limiter, whose move (the one
    resolved from [from], [to] and [promotion], else [uci]) is playable
    at the expected version on the stored game, by a client that is
    assigned to the game and has not moved in it, is answered, after the
    header [Cache-Control: no-store], with status 200, [accepted] true,
    the move under the drawn identifier with the positions before and
    after it, and the game as it now is: the position after the move,
    the version one higher, and the stored history extended by this
    move.  The hint to fetch the next game is present exactly when the
    game is no longer ongoing. *)
Theorem handleSubmitMove_memory_accepts (e1 e2 : memory.Env) (now : Time)
        (recID : UUID) (h : Heap CG) (s : memory.Store) (r : Request)
        (clientID gameID : UUID) (body : SubmitBody) (g : ptr)
        (G : Game CG) :
  let uci := handleSubmitMove_uci (body_UCI body) (body_From body)
               (body_To body) (body_Promotion body) in
  let req := usecase.mkSubmitMoveRequest uci (body_ExpectedVersion body)
               (body_ClientNonce body) in
  X_Client_Id r ≠ "" -> uuid_Parse (X_Client_Id r) = Some clientID ->
  uuid_Parse (param_game_id r) = Some gameID ->
  Bind r = Some body ->
  rl (RealIP r) (X_Client_Token r) = true ->
  memory.games s !! gameID = Some g -> h !! g = Some G ->
  spec.playable (Status_ G) (FEN G) (StateVersion G) req ->
  GoInt.in_range (StateVersion G) ->
  memory.member (memory.assigned s) gameID clientID = true ->
  memory.member (memory.moved s) gameID clientID = false ->
  ∃ NG item s' gj,
    handleSubmitMove memory_GameStore rl uuid_Parse uuid_String e1 e2 now
      recID h s r
    = (h ++ [NG], s',
       [SetHeader "Cache-Control" "no-store";
        WriteJSON 200
          (AcceptedBody true (uuid_String recID) uci (FEN G) (FEN NG) now gj
             (if String.eqb (Status_ NG) StatusOngoing then None
              else Some true))],
       Return (JSON_error r))
    ∧ spec.replay_step (FEN G) uci = Some (FEN NG)
    ∧ json_GameID gj = uuid_String (ID G)
    ∧ json_Status gj = Status_ NG
    ∧ json_FEN gj = FEN NG
    ∧ json_StateVersion gj = GoInt.add (StateVersion G) 1
    ∧ json_MoveHistory gj
      = toMoveHistoryJSON uuid_String (memory.history_of s gameID ++ [item])
    ∧ memory.history_of s' gameID = memory.history_of s gameID ++ [item]
    ∧ UCI item = uci ∧ ClientID item = clientID
    ∧ FENBefore item = FEN G ∧ FENAfter item = FEN NG.
Proof.
  intros uci req Hraw Hc Hid Hb Hrl Hg HG Hplay Hr Ha Hmv.
  destruct (SubmitMove_accepts_memory rl e1 e2 now recID h s (RealIP r)
              (X_Client_Token r) gameID clientID req g G Hrl Hg HG Hplay Hr
              Ha Hmv)
    as (NG & item & s' & Hrun & Hg' & HidNG & Hv & Hrep & _ & _ & Hh & Hu
        & Hcl & _ & Hfb & Hfa).
  assert (String.eqb uci "" = false) as Hne.
  { destruct Hplay as (_ & _ & Hwf & _).
    destruct (wellformed_uci_shape _ Hwf) as (f1 & r1 & f2 & r2 & rest & Hs
                                              & _).
    simpl in Hs. fold uci in Hs. by rewrite Hs. }
  exists NG, item, s'. eexists. split.
  - unfold handleSubmitMove.
    rewrite (parseClientID_accepts uuid_Parse r clientID Hraw Hc), Hid, Hb.
    fold uci. rewrite Hne. fold req. rewrite Hrun. simpl.
    unfold toGameJSON. rewrite lookup_app_r by done.
    rewrite Nat.sub_diag. simpl.
    destruct (String.eqb (Status_ NG) StatusOngoing); reflexivity.
  - simpl. by rewrite HidNG.
Qed.

End HandlerMemory.

(** ** The further theorems at concrete inputs *)

Lemma SubmitMove_protocol_witness :
  ∃ h3 s3 res,
    usecase.SubmitMove (ports.Recorder (memory_GameStore (CG := toy.CG)))
      ports.AlwaysAllow service.no_env service.no_env 100 55 examples.heap1
      (examples.store1, []) "ip" "tok" 1 examples.client
      (usecase.mkSubmitMoveRequest "e2e4" 0 None)
    = (h3, (s3, [ports.CallGetByID 1;
                 ports.CallPersistMove 1 examples.client 1 examples.rec_e2e4
                   0]),
       Ok res).
Proof.
  destruct (SubmitMove_protocol (eng := toy.engine)
              (memory_GameStore (CG := toy.CG)) ports.AlwaysAllow
              service.no_env service.no_env 100 55 examples.heap1
              examples.heap1 examples.store1 examples.store1 "ip" "tok" 1
              examples.client (usecase.mkSubmitMoveRequest "e2e4" 0 None)
              0%nat (toy.fresh 1 game.StatusOngoing 10)
              eq_refl eq_refl eq_refl eq_refl) as [_ Hok].
  destruct (Hok (examples.heap1 ++ [examples.after_e2e4]) 1%nat
              examples.rec_e2e4 eq_refl)
    as (NG & ply & HNG & Hply & Hrange & _ & Hpersist).
  assert (ply = 0) as ->.
  { apply Hrange.
    - unfold GoInt.in_range, GoInt.min_int, GoInt.max_int. simpl. lia.
    - unfold GoInt.max_int. simpl. lia. }
  eexists _, _, _. eapply Hpersist.
  - vm_compute. reflexivity.
  - reflexivity.
Defined.

Lemma SubmitMove_assignment_checked_last_witness :
  snd (usecase.SubmitMove (memory_GameStore (CG := toy.CG))
         ports.AlwaysAllow service.no_env service.no_env 100 55
         examples.heap1 examples.store_fresh "ip" "tok" 1 examples.client
         (usecase.mkSubmitMoveRequest "e2e4" 0 None))
  = Fail ErrNotAssigned
  ∧ snd (usecase.SubmitMove (CG := toy.CG) postgres_GameStore
           ports.AlwaysAllow service.no_env_pg service.no_env_pg 100 55 []
           examples.db_fresh "ip" "tok" 1 examples.client
           (usecase.mkSubmitMoveRequest "e2e4" 0 None))
    = Fail ErrNotAssigned.
Proof.
  assert (spec.playable (CG := toy.CG) game.StatusOngoing "start" 0
            (usecase.mkSubmitMoveRequest "e2e4" 0 None)) as Hplay.
  { split; [reflexivity|]. split; [by right|].
    split; [apply isValidUCISyntax_spec; reflexivity|].
    eexists _, _. split; reflexivity. }
  assert (spec.playable (CG := toy.CG) game.StatusWaiting "start" 0
            (usecase.mkSubmitMoveRequest "e2e4" 0 None)) as Hplay'.
  { split; [reflexivity|]. split; [by left|].
    split; [apply isValidUCISyntax_spec; reflexivity|].
    eexists _, _. split; reflexivity. }
  split.
  - destruct (SubmitMove_assignment_checked_last (eng := toy.engine)
                ports.AlwaysAllow 100 55 examples.heap1 "ip" "tok" 1
                examples.client (usecase.mkSubmitMoveRequest "e2e4" 0 None)
                eq_refl) as [Hmem _].
    destruct (Hmem service.no_env service.no_env examples.store_fresh)
      as (Hna & _).
    apply Hna. split; [|reflexivity].
    exists 0%nat, (toy.fresh 1 game.StatusOngoing 10).
    split; [reflexivity|]. split; [reflexivity|]. exact Hplay.
  - destruct (SubmitMove_assignment_checked_last (eng := toy.engine)
                ports.AlwaysAllow 100 55 [] "ip" "tok" 1
                examples.client (usecase.mkSubmitMoveRequest "e2e4" 0 None)
                eq_refl) as [_ Hpg].
    destruct (Hpg service.no_env_pg service.no_env_pg examples.db_fresh)
      as (Hna & _).
    apply Hna. split; [|reflexivity].
    exists (examples.row game.StatusWaiting 10).
    split; [reflexivity|]. exact Hplay'.
Defined.

Lemma SubmitMove_accepts_witness :
  (∃ h' s' res,
     usecase.SubmitMove (memory_GameStore (CG := toy.CG)) ports.AlwaysAllow
       service.no_env service.no_env 100 55 examples.heap1 examples.store1
       "ip" "tok" 1 examples.client
       (usecase.mkSubmitMoveRequest "e2e4" 0 None)
     = (h', s', Ok res)
     ∧ memory.member (memory.moved s') 1 examples.client = true)
  ∧ (∃ h' db' res,
       usecase.SubmitMove (CG := toy.CG) postgres_GameStore
         ports.AlwaysAllow service.no_env_pg service.no_env_pg 100 55 []
         examples.db1 "ip" "tok" 1 examples.client
         (usecase.mkSubmitMoveRequest "e2e4" 0 None)
       = (h', db', Ok res)
       ∧ postgres.game_players db' !! (1%N, examples.client)
         = Some (postgres.mkPlayerRow true 10)).
Proof.
  assert (spec.playable (CG := toy.CG) game.StatusOngoing "start" 0
            (usecase.mkSubmitMoveRequest "e2e4" 0 None)) as Hplay.
  { split; [reflexivity|]. split; [by right|].
    split; [apply isValidUCISyntax_spec; reflexivity|].
    eexists _, _. split; reflexivity. }
  split.
  - destruct (SubmitMove_accepts (eng := toy.engine) ports.AlwaysAllow 100 55
                examples.heap1 "ip" "tok" 1 examples.client
                (usecase.mkSubmitMoveRequest "e2e4" 0 None) eq_refl)
      as [Hmem _].
    destruct (Hmem service.no_env service.no_env examples.store1 0%nat
                (toy.fresh 1 game.StatusOngoing 10) eq_refl eq_refl Hplay)
      as (NG & item & s' & Hrun & _ & _ & _ & _ & Hmoved & _).
    + unfold GoInt.in_range, GoInt.min_int, GoInt.max_int. simpl. lia.
    + reflexivity.
    + reflexivity.
    + eexists _, s', _. split; [exact Hrun|exact Hmoved].
  - destruct (SubmitMove_accepts (eng := toy.engine) ports.AlwaysAllow 100 55
                [] "ip" "tok" 1 examples.client
                (usecase.mkSubmitMoveRequest "e2e4" 0 None) eq_refl)
      as [_ Hpg].
    destruct (Hpg service.no_env_pg service.no_env_pg examples.db1
                (examples.row game.StatusOngoing 10)
                (postgres.mkPlayerRow false 10) eq_refl Hplay eq_refl
                eq_refl)
      as (NG & db' & row & Hrun & _ & _ & Hgp & _).
    + simpl. apply not_elem_of_nil.
    + simpl. lia.
    + simpl. lia.
    + eexists _, db', _. split; [exact Hrun|exact Hgp].
Defined.

Lemma GetNext_replenishes_memory_witness :
  ∃ h' s' g hist (G : game.Game toy.CG),
    usecase.GetNext memory_GameStore ports.AlwaysAllow 3 examples.env
      examples.env examples.env [] memory.empty "ip" "tok" examples.client
    = (h', s', Ok (usecase.mkNextGameResult g hist))
    ∧ h' !! g = Some G ∧ game.Status_ G = game.StatusOngoing
    ∧ memory.games s' !! game.ID G = Some g
    ∧ memory.member (memory.assigned memory.empty) (game.ID G)
        examples.client = false
    ∧ memory.member (memory.assigned s') (game.ID G) examples.client = true
    ∧ hist = memory.history_of memory.empty (game.ID G).
Proof.
  apply (GetNext_replenishes_memory (eng := toy.engine) ports.AlwaysAllow 3
           examples.env examples.env examples.env [] memory.empty "ip" "tok"
           examples.client 0%nat eq_refl).
  - intros k p Hk. vm_compute in Hk. discriminate.
  - simpl. lia.
  - reflexivity.
  - simpl. by left.
Defined.

Lemma GetNext_replenishes_postgres_witness :
  ∃ h' db' g hist (G : game.Game toy.CG) r' t,
    usecase.GetNext postgres_GameStore ports.AlwaysAllow 3
      (postgres.mkEnv [100%N] ∅ 60 (fun i => (100 + N.of_nat i)%N) 50)
      (postgres.mkEnv [100%N] ∅ 60 (fun i => (100 + N.of_nat i)%N) 50)
      (postgres.mkEnv [100%N] ∅ 60 (fun i => (100 + N.of_nat i)%N) 50)
      [] postgres.empty "ip" "tok" examples.client
    = (h', db', Ok (usecase.mkNextGameResult g hist))
    ∧ h' !! g = Some G ∧ game.Status_ G = game.StatusOngoing
    ∧ postgres.games db' !! game.ID G = Some r'
    ∧ postgres.status r' = game.StatusOngoing
    ∧ postgres.game_players postgres.empty !! (game.ID G, examples.client)
      = None
    ∧ postgres.game_players db' !! (game.ID G, examples.client)
      = Some (postgres.mkPlayerRow false t).
Proof.
  apply (GetNext_replenishes_postgres (CG := toy.CG) ports.AlwaysAllow 3
           (postgres.mkEnv [100%N] ∅ 60 (fun i => (100 + N.of_nat i)%N) 50)
           (postgres.mkEnv [100%N] ∅ 60 (fun i => (100 + N.of_nat i)%N) 50)
           (postgres.mkEnv [100%N] ∅ 60 (fun i => (100 + N.of_nat i)%N) 50)
           [] postgres.empty "ip" "tok" examples.client 0%nat eq_refl).
  - simpl. lia.
  - reflexivity.
  - reflexivity.
  - simpl. by left.
  - simpl. apply not_elem_of_empty.
Defined.

Lemma Assign_reads_ongoing_witness :
  ∃ g,
    usecase.Assign (memory_GameStoreRest (CG := toy.CG)) ports.AlwaysAllow
      examples.env12 100 77 examples.heap1 examples.store_fresh "ip" "tok"
    = (examples.heap1, examples.store_fresh,
       usecase.Assigned (usecase.mkAssignResult g 77 100))
    ∧ ∃ k G, memory.games examples.store_fresh !! k = Some g
             ∧ examples.heap1 !! g = Some G
             ∧ game.Status_ G = game.StatusOngoing.
Proof.
  destruct (Assign_reads_ongoing (CG := toy.CG) ports.AlwaysAllow 100 77 "ip"
              "tok" eq_refl) as [Hmem _].
  destruct (Hmem examples.env12 examples.heap1 examples.store_fresh
              examples_wf_fresh) as [Hsome _].
  - intros k [p Hk]. unfold examples.store_fresh in Hk. simpl in Hk.
    destruct (decide (k = 1%N)) as [-> | Hne]; [by left|].
    rewrite lookup_insert_ne in Hk by done. done.
  - apply Hsome. exists 0%nat, 1%N, (toy.fresh 1 game.StatusOngoing 10).
    split; [reflexivity|]. split; reflexivity.
Defined.

Lemma SaveIfVersion_compare_and_swap_witness :
  ∃ s',
    memory.SaveIfVersion (examples.heap1 ++ [examples.after_e2e4])
      examples.store_fresh 1 0
    = (examples.heap1 ++ [examples.after_e2e4], s', Ok tt)
    ∧ memory.GetByID (examples.heap1 ++ [examples.after_e2e4]) s' 1
      = (examples.heap1 ++ [examples.after_e2e4], s', Ok 1%nat).
Proof.
  destruct (SaveIfVersion_compare_and_swap
              (examples.heap1 ++ [examples.after_e2e4]) 1
              examples.after_e2e4 0 eq_refl) as [Hmem _].
  destruct (Hmem examples.store_fresh) as [_ Hcas].
  destruct (Hcas 0%nat (toy.fresh 1 game.StatusOngoing 10) eq_refl eq_refl)
    as [_ Hok].
  destruct (Hok eq_refl) as (s' & Hsave & Hget & _).
  exists s'. split; [exact Hsave|exact Hget].
Defined.

Lemma postgres_Insert_GetByID_witness :
  ∃ db',
    postgres.Insert examples.heap1 postgres.empty 0
    = (examples.heap1, db', Ok tt)
    ∧ ∃ G', postgres.GetByID examples.heap1 db' 1
            = (examples.heap1 ++ [G'], db', Ok 1%nat)
            ∧ game.FEN G' = "start"%string
            ∧ game.chessGame G' = None.
Proof.
  destruct (postgres_Insert_GetByID examples.heap1 postgres.empty 0
              (toy.fresh 1 game.StatusOngoing 10) eq_refl eq_refl eq_refl)
    as (db' & Hins & _ & _ & _ & _ & Hget).
  exists db'. split; [exact Hins|].
  destruct (Hget eq_refl) as (G' & HG' & _ & _ & _ & Hfen & _ & _ & _ & _ & Hcg).
  exists G'. split; [exact HG'|]. split; [exact Hfen|exact Hcg].
Defined.

Lemma PersistMove_short_move_string_witness :
  (∃ s',
     memory.PersistMove (examples.heap1 ++ [examples.after_e2e4])
       examples.store1 1 examples.client 1
       (game.mkMoveRecord 55 "e2" "start" "start e2e4" 100) 0
     = (examples.heap1 ++ [examples.after_e2e4], s', Panic)
     ∧ memory.games s' !! 1%N = Some 1%nat
     ∧ memory.member (memory.moved s') 1 examples.client = true
     ∧ memory.history s' = memory.history examples.store1)
  ∧ postgres.PersistMove (examples.heap1 ++ [examples.after_e2e4])
      examples.db1 1 examples.client 1
      (game.mkMoveRecord 55 "e2" "start" "start e2e4" 100) 0
    = (examples.heap1 ++ [examples.after_e2e4], examples.db1, Panic).
Proof.
  destruct (PersistMove_short_move_string
              (examples.heap1 ++ [examples.after_e2e4]) 1 examples.client 1
              (game.mkMoveRecord 55 "e2" "start" "start e2e4" 100) 0)
    as [Hmem Hpg].
  - simpl. lia.
  - split.
    + destruct (Hmem examples.store1 0%nat
                  (toy.fresh 1 game.StatusOngoing 10) examples.after_e2e4
                  eq_refl eq_refl eq_refl eq_refl eq_refl eq_refl)
        as (s' & Hp & Hg & Hm & Hh & _).
      exists s'. split; [exact Hp|]. split; [exact Hg|].
      split; [exact Hm|exact Hh].
    + apply (Hpg examples.db1 (postgres.mkPlayerRow false 10) eq_refl
               eq_refl).
Defined.

Lemma handlers_run_without_client_id_witness :
  ∃ h1 s1 w ret,
    transporthttp.handleGetNext (memory_GameStore (CG := toy.CG))
      ports.AlwaysAllow 3 examples.parse examples.show examples.env
      examples.env examples.env [] memory.empty (examples.request "")
    = (h1, s1, w, ret)
    ∧ transporthttp.status_of w = Some 400
    ∧ memory.member (memory.assigned s1) 100 transporthttp.uuid_Nil = true.
Proof.
  destruct (handlers_run_without_client_id (eng := toy.engine)
              (memory_GameStore (CG := toy.CG)) ports.AlwaysAllow 3
              examples.parse examples.show (examples.request "")
              (or_introl eq_refl)) as [Hgoes _].
  destruct (Hgoes eq_refl) as [Hnext _].
  eassert (usecase.GetNext (memory_GameStore (CG := toy.CG))
             ports.AlwaysAllow 3 examples.env examples.env examples.env []
             memory.empty "ip" "tok" transporthttp.uuid_Nil = (_, _, _))
    as Hrun by (vm_compute; reflexivity).
  destruct (Hnext _ _ _ _ _ _ _ _ Hrun) as (w & ret & Heq & Hst).
  eexists _, _, w, ret. split; [exact Heq|]. split; [exact Hst|].
  vm_compute. reflexivity.
Defined.

Lemma handleSubmitMove_rejects_early_witness :
  transporthttp.handleSubmitMove (memory_GameStore (CG := toy.CG))
    ports.AlwaysAllow examples.parse examples.show service.no_env
    service.no_env 100 55 examples.heap1 examples.store1
    (transporthttp.mkRequest "ip" "tok" "7" "one" None None)
  = (examples.heap1, examples.store1,
     transporthttp.writeErr (transporthttp.Sentinel ErrNotFound),
     transporthttp.Return None)
  ∧ transporthttp.status_of
      (transporthttp.writeErr (transporthttp.Sentinel ErrNotFound))
    = Some 404.
Proof.
  destruct (handleSubmitMove_rejects_early (eng := toy.engine)
              (memory_GameStore (CG := toy.CG)) ports.AlwaysAllow
              examples.parse examples.show service.no_env service.no_env 100
              55 examples.heap1 examples.store1
              (transporthttp.mkRequest "ip" "tok" "7" "one" None None)
              examples.client) as [Hid _].
  - discriminate.
  - reflexivity.
  - apply Hid. reflexivity.
Defined.

Lemma handleGetNext_memory_witness :
  ∃ clientID h' s' w,
    transporthttp.handleGetNext (memory_GameStore (CG := toy.CG))
      ports.AlwaysAllow 3 examples.parse examples.show examples.env
      examples.env examples.env [] memory.empty (examples.request "7")
    = (h', s', w, transporthttp.Return None)
    ∧ examples.parse "7" = Some clientID.
Proof.
  destruct (handleGetNext_memory (eng := toy.engine) ports.AlwaysAllow 3
              examples.parse examples.show examples.env examples.env
              examples.env [] memory.empty (examples.request "7") eq_refl
              eq_refl)
    as (clientID & w0 & h' & s' & w & Heq & Hcase & _).
  - intros k p Hk. vm_compute in Hk. discriminate.
  - exists clientID, h', s', (w0 ++ w). split; [exact Heq|].
    destruct Hcase as [(_ & Hc & _) | ([Hraw | Hnone] & _)].
    + exact Hc.
    + discriminate Hraw.
    + discriminate Hnone.
Defined.

Lemma handleSubmitMove_memory_accepts_witness :
  ∃ h' s' body,
    transporthttp.handleSubmitMove (memory_GameStore (CG := toy.CG))
      ports.AlwaysAllow examples.parse examples.show service.no_env
      service.no_env 100 55 examples.heap1 examples.store1
      (examples.request "7")
    = (h', s',
       [transporthttp.SetHeader "Cache-Control" "no-store";
        transporthttp.WriteJSON 200 body],
       transporthttp.Return None).
Proof.
  destruct (handleSubmitMove_memory_accepts (eng := toy.engine)
              ports.AlwaysAllow examples.parse examples.show service.no_env
              service.no_env 100 55 examples.heap1 examples.store1
              (examples.request "7") examples.client 1
              (transporthttp.mkSubmitBody "" "e2" "e4" None 0 None) 0%nat
              (toy.fresh 1 game.StatusOngoing 10))
    as (NG & item & s' & gj & Heq & _).
  - discriminate.
  - reflexivity.
  - reflexivity.
  - reflexivity.
  - reflexivity.
  - reflexivity.
  - reflexivity.
  - split; [reflexivity|]. split; [by right|].
    split; [apply isValidUCISyntax_spec; reflexivity|].
    eexists _, _. split; reflexivity.
  - unfold GoInt.in_range, GoInt.min_int, GoInt.max_int. simpl. lia.
  - reflexivity.
  - reflexivity.
  - eexists _, s', _. exact Heq.
Defined.
